(** * kivy-audioplayer: a shallow embedding of the queue/transport engine

    The development follows the layout of the package:
    - [_utils.py]        : [humanize_duration], [normalize_index];
    - [_conversions.py]  : the type gate ([is_allowed], [as_str], [as_sound_obj]);
    - [audioplayer.py]   : the [AudioPlayer] class.

    Python integers are [Z], finite floats are the rationals they denote
    ([Q], comparisons between numbers are exact in Python), strings are
    [string].  A method that mutates [self] and may raise is a function
    from the world to an outcome and the world left behind: an exception
    does not undo the assignments made before it. *)

From Stdlib Require Import ZArith QArith List String Ascii Bool Lia.
From Stdlib Require Import DecimalString DecimalNat DecimalZ Decimal.
Import ListNotations.

Local Open Scope string_scope.
Local Open Scope Z_scope.

(** ** Python exceptions and results *)

Inductive PyType : Type :=
| TNoneType | TInt | TFloat | TStr | TPath | TSound
| TOther (cls : string).

Inductive PyExn : Type :=
| TypeError_only_accepted (allowed : list PyType)
    (* "only {0} types are accepted".format(cls._allowed_types) *)
| TypeError_unhashable
| TypeError_unorderable
| ValueError (msg : string)
| IndexError (msg : string)
| AttributeError_NoneType (attr : string)
    (* 'NoneType' object has no attribute <attr> *)
| OverflowError
| RecursionError.

Inductive PyResult (A : Type) : Type :=
| Ok (a : A)
| Raise (e : PyExn).
Arguments Ok {A} a.
Arguments Raise {A} e.

(** ** Strings the way Python slices, splits and formats them *)

Module PyStr.

(** [s.split(sep)] for a one-character separator. *)
Fixpoint split (sep : ascii) (s : string) : list string :=
  match s with
  | EmptyString => [EmptyString]
  | String c rest =>
      if Ascii.eqb c sep then EmptyString :: split sep rest
      else match split sep rest with
           | [] => [String c EmptyString]
           | hd :: tl => String c hd :: tl
           end
  end.

(** [s[i]] for a non-negative [i]: a one-character string, or IndexError. *)
Definition index (s : string) (i : nat) : PyResult string :=
  match String.get i s with
  | Some c => Ok (String c EmptyString)
  | None => Raise (IndexError "string index out of range")
  end.

(** ["%d" % z] *)
Definition of_Z (z : Z) : string := NilEmpty.string_of_int (Z.to_int z).

(** ["%02d" % z] for a non-negative [z]. *)
Definition of_Z_02 (z : Z) : string :=
  let s := of_Z z in
  if (String.length s <? 2)%nat then "0" ++ s else s.

Definition is_digit (c : ascii) : bool :=
  let n := nat_of_ascii c in ((48 <=? n) && (n <=? 57))%nat.

Fixpoint all_digits (s : string) : bool :=
  match s with
  | EmptyString => true
  | String c rest => is_digit c && all_digits rest
  end.

(** Reading a field of decimal digits back: at least one digit, digits
    only. *)
Definition to_Z (s : string) : option Z :=
  match s with
  | EmptyString => None
  | _ => if all_digits s
         then option_map (fun d => Z.of_nat (Nat.of_uint d))
                         (NilEmpty.uint_of_string s)
         else None
  end.

End PyStr.

(** ** _utils.py *)

(** [str(datetime.timedelta(seconds=seconds))] for an integer number of
    seconds.  The standard library normalises to days and seconds of the
    day (floor division), refuses more than 999999999 days, and prints
    ["%d:%02d:%02d"] with a ["N day(s), "] prefix when days is not zero. *)
Definition timedelta_str (seconds : Z) : PyResult string :=
  let days := seconds / 86400 in
  let secs := seconds mod 86400 in
  if 999999999 <? Z.abs days then Raise OverflowError
  else
    let mm := secs / 60 in
    let ss := secs mod 60 in
    let hh := mm / 60 in
    let mm := mm mod 60 in
    let s := PyStr.of_Z hh ++ ":" ++ PyStr.of_Z_02 mm ++ ":" ++ PyStr.of_Z_02 ss in
    Ok (if days =? 0 then s
        else PyStr.of_Z days
             ++ (if Z.abs days =? 1 then " day, " else " days, ") ++ s).

Definition humanize_duration (seconds : Z) (remove_leading_zero : bool)
  : PyResult string :=
  match timedelta_str seconds with
  | Raise e => Raise e
  | Ok human_readable_duration =>
      if remove_leading_zero then
        if seconds <? 3600 then
          match PyStr.split ":" human_readable_duration with
          | [_; string_minutes; string_seconds] =>
              match (if seconds <? 10 * 60
                     then PyStr.index string_minutes 1
                     else Ok string_minutes) with
              | Raise e => Raise e
              | Ok parsed_minutes =>
                  Ok (parsed_minutes ++ ":" ++ string_seconds)
              end
          | _ => Raise (ValueError "unpack")
          end
        else Ok human_readable_duration
      else Ok human_readable_duration
  end.

Definition normalize_index {A : Type} (sequence : list A) (index : Z)
  : PyResult Z :=
  let sequence_length := Z.of_nat (List.length sequence) in
  if index <? 0 then
    if sequence_length <? Z.abs index
    then Raise (IndexError "sequnece index is out of range")
    else Ok (sequence_length + index)
  else
    if sequence_length - 1 <? index
    then Raise (IndexError "sequence index is out of range")
    else Ok index.

(** Reading a humanized duration back, as the specification words it:
    hours:minutes:seconds, or minutes:seconds when there are two fields. *)
Definition parse_hms (s : string) : option Z :=
  match PyStr.split ":" s with
  | [h; m; sec] =>
      match PyStr.to_Z h, PyStr.to_Z m, PyStr.to_Z sec with
      | Some h, Some m, Some sec => Some (3600 * h + 60 * m + sec)
      | _, _, _ => None
      end
  | [m; sec] =>
      match PyStr.to_Z m, PyStr.to_Z sec with
      | Some m, Some sec => Some (60 * m + sec)
      | _, _ => None
      end
  | _ => None
  end.

Definition round_trips (s : Z) : bool :=
  match humanize_duration s true with
  | Ok str => match parse_hms str with
              | Some t => t =? s
              | None => false
              end
  | Raise _ => false
  end.

(** ** Python values that reach the player *)

Definition Handle := nat.

Inductive PyVal : Type :=
| VNone
| VInt (z : Z)
| VFloat (q : Q)
| VStr (s : string)
| VPath (s : string)                     (* pathlib.Path, [str()] form *)
| VSound (h : Handle)                    (* kivy.core.audio.Sound, by identity *)
| VObject (id : nat) (cls : string) (str_form : string) (hashable : bool).
    (* an object of any other class: its identity, class name, [str()]
       form, and whether it can be a dict key *)

Definition type_of (v : PyVal) : PyType :=
  match v with
  | VNone => TNoneType
  | VInt _ => TInt
  | VFloat _ => TFloat
  | VStr _ => TStr
  | VPath _ => TPath
  | VSound _ => TSound
  | VObject _ cls _ _ => TOther cls
  end.

Definition PyType_eqb (a b : PyType) : bool :=
  match a, b with
  | TNoneType, TNoneType | TInt, TInt | TFloat, TFloat
  | TStr, TStr | TPath, TPath | TSound, TSound => true
  | TOther x, TOther y => String.eqb x y
  | _, _ => false
  end.

(** [isinstance(obj, types)] for a tuple of types. *)
Definition isinstance (obj : PyVal) (types : list PyType) : bool :=
  existsb (PyType_eqb (type_of obj)) types.

(** The numeric value of an int or a float. *)
Definition as_number (v : PyVal) : option Q :=
  match v with
  | VInt z => Some (inject_Z z)
  | VFloat q => Some q
  | _ => None
  end.

(** [a > b] on numbers; other operands are unorderable. *)
Definition py_gt (a b : PyVal) : PyResult bool :=
  match as_number a, as_number b with
  | Some x, Some y => Ok (negb (Qle_bool x y))
  | _, _ => Raise TypeError_unorderable
  end.

(** [a == b], as a dict compares keys. *)
Definition py_eqb (a b : PyVal) : bool :=
  match a, b with
  | VNone, VNone => true
  | VStr x, VStr y => String.eqb x y
  | VPath x, VPath y => String.eqb x y
  | VSound x, VSound y => Nat.eqb x y
  | VObject x _ _ _, VObject y _ _ _ => Nat.eqb x y
  | _, _ => match as_number a, as_number b with
            | Some x, Some y => Qeq_bool x y
            | _, _ => false
            end
  end.

Definition hashable (v : PyVal) : bool :=
  match v with
  | VObject _ _ _ h => h
  | _ => true
  end.

(** Truth value, as [if found_alias:] tests it. *)
Definition truthy (v : PyVal) : bool :=
  match v with
  | VNone => false
  | VInt z => negb (z =? 0)
  | VFloat q => negb (Qeq_bool q 0)
  | VStr s => negb (String.eqb s "")
  | VPath _ | VSound _ | VObject _ _ _ _ => true
  end.

(** ** The decode primitive (kivy.core.audio) and the world

    A [Sound] is a shared mutable object: the queue and the current
    track hold references ([Handle]) into [sounds].  [calls] records the
    transport calls made on handles, oldest first. *)

Record Sound : Type := mkSound {
  source : string;
  volume : PyVal;
  sound_state : string;
  on_play_bound : nat;       (* handlers this player bound to on_play *)
  on_stop_bound : nat;       (* handlers this player bound to on_stop *)
  unloaded : bool
}.

Inductive SoundCall : Type :=
| call_play (h : Handle)
| call_stop (h : Handle)
| call_seek (h : Handle) (position : PyVal)
| call_unload (h : Handle).

Inductive ClockEvent : Type := scheduled | cancelled.

Record AudioPlayer : Type := mkAudioPlayer {
  _external_stop_call : bool;
  _queue_progress_index : Z;
  _queue : list Handle;
  _volume : PyVal;
  _loop : bool;
  _estimate_position : bool;
  _interval : PyVal;
  _pos_estimate : PyVal;
  _state : string;
  _clock_event : option ClockEvent;
  _current_sound_obj : option Handle
}.

Record World : Type := mkWorld {
  self : AudioPlayer;
  _aliases : list (PyVal * PyVal);     (* class attribute, insertion order *)
  sounds : Handle -> Sound;
  next_handle : Handle;
  calls : list SoundCall
}.

(** ** Methods as state transformers that may raise *)

Definition M (A : Type) : Type := World -> PyResult A * World.

Definition ret {A} (a : A) : M A := fun w => (Ok a, w).
Definition raise {A} (e : PyExn) : M A := fun w => (Raise e, w).
Definition bind {A B} (c : M A) (k : A -> M B) : M B :=
  fun w => match c w with
           | (Ok a, w') => k a w'
           | (Raise e, w') => (Raise e, w')
           end.

Declare Scope py_scope.
Delimit Scope py_scope with py.
Notation "x <- c ;; k" := (bind c (fun x => k))
  (at level 61, c at next level, right associativity) : py_scope.
Notation "c ;; k" := (bind c (fun _ => k))
  (at level 61, right associativity) : py_scope.
Local Open Scope py_scope.

Definition lift {A} (r : PyResult A) : M A := fun w => (r, w).
Definition gets {A} (f : AudioPlayer -> A) : M A := fun w => (Ok (f (self w)), w).
Definition modify (f : AudioPlayer -> AudioPlayer) : M unit :=
  fun w => (Ok tt, mkWorld (f (self w)) (_aliases w) (sounds w)
                           (next_handle w) (calls w)).
Definition when (b : bool) (c : M unit) : M unit := if b then c else ret tt.

(** [try: body  except IndexError: handler] *)
Definition try_except_IndexError (body handler : M unit) : M unit :=
  fun w => match body w with
           | (Raise (IndexError _), w') => handler w'
           | r => r
           end.

(** [for x in xs: body(x)] *)
Fixpoint for_each {A} (xs : list A) (body : A -> M unit) : M unit :=
  match xs with
  | [] => ret tt
  | x :: rest => body x ;; for_each rest body
  end.

(** Attribute assignments on [self]. *)
Definition set_external_stop_call (b : bool) (p : AudioPlayer) : AudioPlayer :=
  mkAudioPlayer b (_queue_progress_index p) (_queue p) (_volume p) (_loop p)
    (_estimate_position p) (_interval p) (_pos_estimate p) (_state p)
    (_clock_event p) (_current_sound_obj p).
Definition set_queue_progress_index (i : Z) (p : AudioPlayer) : AudioPlayer :=
  mkAudioPlayer (_external_stop_call p) i (_queue p) (_volume p) (_loop p)
    (_estimate_position p) (_interval p) (_pos_estimate p) (_state p)
    (_clock_event p) (_current_sound_obj p).
Definition set_queue (q : list Handle) (p : AudioPlayer) : AudioPlayer :=
  mkAudioPlayer (_external_stop_call p) (_queue_progress_index p) q (_volume p)
    (_loop p) (_estimate_position p) (_interval p) (_pos_estimate p) (_state p)
    (_clock_event p) (_current_sound_obj p).
Definition set_volume (v : PyVal) (p : AudioPlayer) : AudioPlayer :=
  mkAudioPlayer (_external_stop_call p) (_queue_progress_index p) (_queue p) v
    (_loop p) (_estimate_position p) (_interval p) (_pos_estimate p) (_state p)
    (_clock_event p) (_current_sound_obj p).
Definition set_pos_estimate (v : PyVal) (p : AudioPlayer) : AudioPlayer :=
  mkAudioPlayer (_external_stop_call p) (_queue_progress_index p) (_queue p)
    (_volume p) (_loop p) (_estimate_position p) (_interval p) v (_state p)
    (_clock_event p) (_current_sound_obj p).
Definition set_state (s : string) (p : AudioPlayer) : AudioPlayer :=
  mkAudioPlayer (_external_stop_call p) (_queue_progress_index p) (_queue p)
    (_volume p) (_loop p) (_estimate_position p) (_interval p) (_pos_estimate p)
    s (_clock_event p) (_current_sound_obj p).
Definition set_clock_event (c : option ClockEvent) (p : AudioPlayer) : AudioPlayer :=
  mkAudioPlayer (_external_stop_call p) (_queue_progress_index p) (_queue p)
    (_volume p) (_loop p) (_estimate_position p) (_interval p) (_pos_estimate p)
    (_state p) c (_current_sound_obj p).
Definition set_current_sound_obj (c : option Handle) (p : AudioPlayer) : AudioPlayer :=
  mkAudioPlayer (_external_stop_call p) (_queue_progress_index p) (_queue p)
    (_volume p) (_loop p) (_estimate_position p) (_interval p) (_pos_estimate p)
    (_state p) (_clock_event p) c.

(** Python list indexing [l[i]]: negative indices count from the end. *)
Definition py_getitem {A} (l : list A) (i : Z) : PyResult A :=
  let n := Z.of_nat (List.length l) in
  let j := if i <? 0 then n + i else i in
  if (0 <=? j) && (j <? n) then
    match nth_error l (Z.to_nat j) with
    | Some x => Ok x
    | None => Raise (IndexError "list index out of range")
    end
  else Raise (IndexError "list index out of range").

(** Python slice [l[start:]]. *)
Definition py_slice_from {A} (l : list A) (start : Z) : list A :=
  let n := Z.of_nat (List.length l) in
  let j := if start <? 0 then Z.max 0 (n + start) else Z.min start n in
  skipn (Z.to_nat j) l.

(** ** _conversions.py *)

(** [_TypeHintConversion.is_allowed], for a class whose [_allowed_types]
    is the given tuple. *)
Definition is_allowed (_allowed_types : list PyType) (obj : PyVal)
  : PyResult unit :=
  if negb (isinstance obj _allowed_types)
  then Raise (TypeError_only_accepted _allowed_types)
  else Ok tt.

Definition NumberConversion_allowed_types : list PyType := [TInt; TFloat].
Definition PathTypeConversion_allowed_types : list PyType := [TStr; TPath].
Definition SoundTypeConversion_allowed_types : list PyType := [TStr; TPath; TSound].

Definition NumberConversion_is_allowed := is_allowed NumberConversion_allowed_types.
Definition PathTypeConversion_is_allowed := is_allowed PathTypeConversion_allowed_types.
Definition SoundTypeConversion_is_allowed := is_allowed SoundTypeConversion_allowed_types.

(** Sound objects: attribute assignment, [bind], and the transport calls
    that the base class logs before it dispatches its event. *)
Definition update_sound (h : Handle) (f : Sound -> Sound) : M unit :=
  fun w => (Ok tt, mkWorld (self w) (_aliases w)
                     (fun h' => if Nat.eqb h' h then f (sounds w h) else sounds w h')
                     (next_handle w) (calls w)).

Definition record_call (c : SoundCall) : M unit :=
  fun w => (Ok tt, mkWorld (self w) (_aliases w) (sounds w) (next_handle w)
                     (calls w ++ [c])%list).

Definition get_sound (h : Handle) : M Sound := fun w => (Ok (sounds w h), w).

Definition set_sound_volume (v : PyVal) (s : Sound) : Sound :=
  mkSound (source s) v (sound_state s) (on_play_bound s) (on_stop_bound s) (unloaded s).
Definition set_sound_state (st : string) (s : Sound) : Sound :=
  mkSound (source s) (volume s) st (on_play_bound s) (on_stop_bound s) (unloaded s).
Definition bind_on_play (s : Sound) : Sound :=
  mkSound (source s) (volume s) (sound_state s) (S (on_play_bound s)) (on_stop_bound s) (unloaded s).
Definition bind_on_stop (s : Sound) : Sound :=
  mkSound (source s) (volume s) (sound_state s) (on_play_bound s) (S (on_stop_bound s)) (unloaded s).
Definition set_unloaded (s : Sound) : Sound :=
  mkSound (source s) (volume s) (sound_state s) (on_play_bound s) (on_stop_bound s) true.

(** [event.dispatch]: every bound handler runs in turn; a handler that
    raises ends the dispatch. *)
Fixpoint dispatch (handlers : nat) (handler : M unit) : M unit :=
  match handlers with
  | O => ret tt
  | S n => handler ;; dispatch n handler
  end.

Section Runtime.

(** What the package takes from outside: [str()] of a float, and
    whether some registered kivy provider takes a file name
    ([SoundLoader.load] returns [None] when none does). *)
Variable float_str : Q -> string.
Variable SoundLoader_provides : string -> bool.

Definition py_str (v : PyVal) : string :=
  match v with
  | VNone => "None"
  | VInt z => PyStr.of_Z z
  | VFloat q => float_str q
  | VStr s => s
  | VPath s => s
  | VSound h => "<Sound>"       (* object repr; as_str reads .source instead *)
  | VObject _ _ str_form _ => str_form
  end.

(** [SoundLoader.load(filename)]: a new Sound object, or [None]. *)
Definition SoundLoader_load (filename : string) : M (option Handle) :=
  fun w =>
    if SoundLoader_provides filename then
      let h := next_handle w in
      (Ok (Some h),
       mkWorld (self w) (_aliases w)
         (fun h' => if Nat.eqb h' h
                    then mkSound filename (VFloat 1) "stop" 0 0 false
                    else sounds w h')
         (S h) (calls w))
    else (Ok None, w).

Definition SoundTypeConversion_as_str (sound : PyVal) : M string :=
  match sound with
  | VSound h => s <- get_sound h ;; ret (source s)
  | _ => ret (py_str sound)
  end.

Definition SoundTypeConversion_as_sound_obj (sound : PyVal)
  : M (option Handle) :=
  match sound with
  | VSound h => ret (Some h)
  | _ => filename <- SoundTypeConversion_as_str sound ;;
         SoundLoader_load filename
  end.

(** ** audioplayer.py: class AudioPlayer *)

Definition __iter__ (p : AudioPlayer) : list Handle :=
  py_slice_from (_queue p) (_queue_progress_index p + 1).

Definition __len__ (p : AudioPlayer) : Z :=
  Z.of_nat (List.length (py_slice_from (_queue p) (_queue_progress_index p + 1))).

Definition __contains__ (p : AudioPlayer) (item : PyVal) : bool :=
  existsb (fun sound_obj => py_eqb item (VSound sound_obj))
          (py_slice_from (_queue p) (_queue_progress_index p + 1)).

(** [dict.get(key, default)] and [dict[key] = value] on the alias table. *)
Fixpoint dict_get (d : list (PyVal * PyVal)) (key default : PyVal) : PyVal :=
  match d with
  | [] => default
  | (k, v) :: rest => if py_eqb k key then v else dict_get rest key default
  end.

Fixpoint dict_set (d : list (PyVal * PyVal)) (key value : PyVal)
  : list (PyVal * PyVal) :=
  match d with
  | [] => [(key, value)]
  | (k, v) :: rest => if py_eqb k key then (k, value) :: rest
                      else (k, v) :: dict_set rest key value
  end.

Definition aliases : M (list (PyVal * PyVal)) :=
  fun w => (Ok (_aliases w), w).

Definition register (alias value : PyVal) : M unit :=
  lift (SoundTypeConversion_is_allowed value) ;;
  fun w =>
    if hashable alias then
      (Ok tt, mkWorld (self w) (dict_set (_aliases w) alias value)
                (sounds w) (next_handle w) (calls w))
    else (Raise TypeError_unhashable, w).

Definition get_alias (alias default_value : PyVal) : M PyVal :=
  fun w =>
    if hashable alias then (Ok (dict_get (_aliases w) alias default_value), w)
    else (Raise TypeError_unhashable, w).

Definition _update_pos_estimate (position : PyVal) : M unit :=
  modify (set_pos_estimate position).

Definition _cancel_clock : M unit :=
  ev <- gets _clock_event ;;
  match ev with
  | None => raise (AttributeError_NoneType "cancel")
  | Some _ => modify (set_clock_event (Some cancelled))
  end.

Definition _start_clock : M unit :=
  modify (set_clock_event (Some scheduled)).

Definition _initialize_estimation : M unit :=
  estimate <- gets _estimate_position ;;
  when estimate _start_clock.

Definition _set_current_sound_obj : M unit :=
  q <- gets _queue ;;
  i <- gets _queue_progress_index ;;
  sound_obj <- lift (py_getitem q i) ;;
  modify (set_current_sound_obj (Some sound_obj)).

Definition _configure_sound_obj (sound_obj : Handle) : M unit :=
  v <- gets _volume ;;
  update_sound sound_obj (set_sound_volume v) ;;
  update_sound sound_obj bind_on_play ;;
  update_sound sound_obj bind_on_stop.

Definition clear_queue : M unit :=
  modify (set_queue []).

(** The body of the loop of [load], for one argument. *)
Definition load_one (ignore_aliases : bool) (audio_file : PyVal) : M unit :=
  audio_file <-
    (if negb ignore_aliases then
       found_alias <- get_alias audio_file VNone ;;
       ret (if truthy found_alias then found_alias else audio_file)
     else ret audio_file) ;;
  sound_obj <- SoundTypeConversion_as_sound_obj audio_file ;;
  match sound_obj with
  | None =>
      (* _configure_sound_obj(None): the assignment to None.volume *)
      raise (AttributeError_NoneType "volume")
  | Some sound_obj =>
      _configure_sound_obj sound_obj ;;
      q <- gets _queue ;;
      modify (set_queue (q ++ [sound_obj])%list)
  end.

Definition load (args : list PyVal)
           (clear_previous_queue ignore_aliases : bool) : M unit :=
  when clear_previous_queue clear_queue ;;
  for_each args (load_one ignore_aliases) ;;
  q <- gets _queue ;;
  when (negb (Nat.eqb (List.length q) 0))
       (modify (set_state "queue loaded")).

(** [Sound.unload()], [Sound.seek()], [Sound.play()], [Sound.stop()] *)
Definition Sound_unload (h : Handle) : M unit :=
  record_call (call_unload h) ;;
  update_sound h set_unloaded.

Definition Sound_seek (h : Handle) (position : PyVal) : M unit :=
  record_call (call_seek h position).

Definition Sound_play (h : Handle) : M unit :=
  record_call (call_play h) ;;
  update_sound h (set_sound_state "play") ;;
  s <- get_sound h ;;
  dispatch (on_play_bound s) _initialize_estimation.

Definition Sound_stop (on_stop : M unit) (h : Handle) : M unit :=
  record_call (call_stop h) ;;
  update_sound h (set_sound_state "stop") ;;
  s <- get_sound h ;;
  dispatch (on_stop_bound s) on_stop.

Definition unload : M unit :=
  cur <- gets _current_sound_obj ;;
  match cur with
  | Some h => Sound_unload h
  | None => ret tt
  end ;;
  modify (set_queue []) ;;
  modify (set_state "queue empty").

Definition seek (position : PyVal) : M unit :=
  cur <- gets _current_sound_obj ;;
  match cur with
  | Some h => Sound_seek h position
  | None => raise (AttributeError_NoneType "seek")
  end.

(** The methods that call one another ([play], [_jump_to_index],
    [stop], [skip_to_next] and the on_stop handler
    [_cancel_estimation]) are written against the table of the
    methods one call deeper; [methods] ties the knot on the depth of
    the Python call stack, which raises RecursionError at its limit.
    The depth is counted at these five methods only.  It tells whether
    a call runs out of stack, not at which call inside it Python
    notices: what a run that ends in RecursionError leaves behind is
    outside the model. *)
Record Methods : Type := mkMethods {
  m__cancel_estimation : M unit;
  m__jump_to_index : Z -> M unit;
  m_play : M unit;
  m_stop : M unit;
  m_skip_to_next : bool -> bool -> bool -> M unit
}.

Definition _cancel_estimation_body (rec : Methods) : M unit :=
  estimate <- gets _estimate_position ;;
  when estimate _cancel_clock ;;
  external <- gets _external_stop_call ;;
  if negb external then
    _update_pos_estimate (VInt 0) ;;
    m_skip_to_next rec true false true
  else ret tt.

Definition _jump_to_index_body (rec : Methods) (index : Z) : M unit :=
  try_except_IndexError
    (modify (set_queue_progress_index index) ;;
     _set_current_sound_obj)
    (modify (set_queue_progress_index (-1)) ;;
     modify (set_current_sound_obj None) ;;
     loop <- gets _loop ;;
     when loop (m_play rec)).

Definition play_body (rec : Methods) : M unit :=
  cur <- gets _current_sound_obj ;;
  match cur with
  | None => m__jump_to_index rec 0
  | Some _ => ret tt
  end ;;
  cur <- gets _current_sound_obj ;;
  match cur with
  | Some h => Sound_play h
  | None => raise (AttributeError_NoneType "play")
  end ;;
  modify (set_state "play").

Definition stop_body (rec : Methods) : M unit :=
  modify (set_external_stop_call true) ;;
  cur <- gets _current_sound_obj ;;
  match cur with
  | Some h => Sound_stop (m__cancel_estimation rec) h
  | None => raise (AttributeError_NoneType "stop")
  end ;;
  modify (set_state "stop") ;;
  modify (set_external_stop_call false).

Definition skip_to_next_body (rec : Methods)
           (play_immediately stop_current_playback restart_audio_position : bool)
  : M unit :=
  when stop_current_playback (m_stop rec) ;;
  i <- gets _queue_progress_index ;;
  m__jump_to_index rec (i + 1) ;;
  when restart_audio_position (seek (VInt 0)) ;;
  when play_immediately (m_play rec).

Definition skip_to_previous_body (rec : Methods)
           (play_immediately stop_current_playback restart_audio_position : bool)
  : M unit :=
  when stop_current_playback (m_stop rec) ;;
  q <- gets _queue ;;
  i <- gets _queue_progress_index ;;
  j <- lift (normalize_index q (i - 1)) ;;
  m__jump_to_index rec j ;;
  when restart_audio_position (seek (VInt 0)) ;;
  when play_immediately (m_play rec).

Fixpoint methods (depth : nat) : Methods :=
  match depth with
  | O => mkMethods (raise RecursionError) (fun _ => raise RecursionError)
           (raise RecursionError) (raise RecursionError)
           (fun _ _ _ => raise RecursionError)
  | S d =>
      let rec := methods d in
      mkMethods (_cancel_estimation_body rec) (_jump_to_index_body rec)
        (play_body rec) (stop_body rec) (skip_to_next_body rec)
  end.

Definition _cancel_estimation (depth : nat) : M unit :=
  m__cancel_estimation (methods depth).
Definition _jump_to_index (depth : nat) (index : Z) : M unit :=
  m__jump_to_index (methods depth) index.
Definition play (depth : nat) : M unit := m_play (methods depth).
Definition stop (depth : nat) : M unit := m_stop (methods depth).
Definition skip_to_next (depth : nat)
           (play_immediately stop_current_playback restart_audio_position : bool)
  : M unit :=
  m_skip_to_next (methods depth)
    play_immediately stop_current_playback restart_audio_position.
Definition skip_to_previous (depth : nat)
           (play_immediately stop_current_playback restart_audio_position : bool)
  : M unit :=
  match depth with
  | O => raise RecursionError
  | S d => skip_to_previous_body (methods d)
             play_immediately stop_current_playback restart_audio_position
  end.

(** The volume property. *)
Definition volume_getter (p : AudioPlayer) : PyVal := _volume p.

Definition volume_setter (new_volume : PyVal) : M unit :=
  lift (NumberConversion_is_allowed new_volume) ;;
  below <- lift (py_gt (VInt 0) new_volume) ;;
  above <- (if below then lift (py_gt new_volume (VInt 1)) else ret false) ;;
  if above then raise (ValueError "volume can only be from 0-1")
  else
    modify (set_volume new_volume) ;;
    q <- gets _queue ;;
    for_each q (fun sound_obj =>
      v <- gets _volume ;;
      update_sound sound_obj (set_sound_volume v)).

(** [AudioPlayer.__init__]: the attributes in the order the
    constructor assigns them; [load] runs before [_state] is set. *)
Definition __init__ (queue : list PyVal) (volume : PyVal) (loop estimate_position : bool)
           (interval : PyVal) : M unit :=
  modify (fun _ => mkAudioPlayer false (-1) [] volume loop estimate_position
                     interval (VInt 0) "" None None) ;;
  load queue false false ;;
  modify (set_pos_estimate (VInt 0)) ;;
  modify (set_state "queue empty") ;;
  modify (set_clock_event None) ;;
  modify (set_current_sound_obj None).

End Runtime.

(** ** audioplayer.py: position within the current track *)

(** The numbers a handle reports and that positions are computed with.
    Sums and differences of ints are exact; as soon as a float is
    involved the result is the float the interpreter rounds to. *)
Inductive Number : Type :=
| NInt (z : Z)
| NFloat (q : Q).

Definition number_val (n : Number) : PyVal :=
  match n with
  | NInt z => VInt z
  | NFloat q => VFloat q
  end.

Definition number_of (v : PyVal) : option Number :=
  match v with
  | VInt z => Some (NInt z)
  | VFloat q => Some (NFloat q)
  | _ => None
  end.

Definition exact (n : Number) : Q :=
  match n with
  | NInt z => inject_Z z
  | NFloat q => q
  end.

(** [float(int)] raises OverflowError from this int on, the first that
    rounds to 2**1024. *)
Definition float_limit : Z := 2 ^ 1024 - 2 ^ 970.

(** The numbers that enter float arithmetic without an OverflowError:
    every float, and the ints that [float(int)] takes. *)
Definition converts_to_float (n : Number) : bool :=
  match n with
  | NInt z => Z.abs z <? float_limit
  | NFloat _ => true
  end.

Section Seeking.

(** What the decode primitive reports for a handle ([Sound.get_pos()],
    [Sound.length]), and float addition and subtraction on the exact
    values of the operands. *)
Variable Sound_get_pos : World -> Handle -> Number.
Variable Sound_length : World -> Handle -> Number.
Variable float_add : Q -> Q -> Q.
Variable float_sub : Q -> Q -> Q.

(** [a + b] and [a - b] on numbers: exact on two ints, the float
    operation otherwise.  The float case stands for operands that
    [converts_to_float] takes; for an int beyond that range next to a
    float Python raises OverflowError instead, which is not modelled. *)
Definition number_add (a b : Number) : Number :=
  match a, b with
  | NInt x, NInt y => NInt (x + y)
  | _, _ => NFloat (float_add (exact a) (exact b))
  end.

Definition number_sub (a b : Number) : Number :=
  match a, b with
  | NInt x, NInt y => NInt (x - y)
  | _, _ => NFloat (float_sub (exact a) (exact b))
  end.

Definition get_pos : M Number :=
  cur <- gets _current_sound_obj ;;
  match cur with
  | Some h => fun w => (Ok (Sound_get_pos w h), w)
  | None => raise (AttributeError_NoneType "get_pos")
  end.

(** The [length] property. *)
Definition length_getter : M Number :=
  cur <- gets _current_sound_obj ;;
  match cur with
  | Some h => fun w => (Ok (Sound_length w h), w)
  | None => raise (AttributeError_NoneType "length")
  end.

(** An operand that a comparison has already taken as a number. *)
Definition as_operand (seconds : PyVal) : M Number :=
  match number_of seconds with
  | Some n => ret n
  | None => raise TypeError_unorderable
  end.

Definition fast_forward (seconds : PyVal) : M unit :=
  current_song_position <- get_pos ;;
  current_song_length <- length_getter ;;
  room <- lift (py_gt (number_val (number_sub current_song_length
                                              current_song_position))
                      seconds) ;;
  new_position <-
    (if room then
       s <- as_operand seconds ;;
       ret (number_add current_song_position s)
     else ret current_song_length) ;;
  seek (number_val new_position) ;;
  estimate <- gets _estimate_position ;;
  when estimate (_update_pos_estimate (number_val new_position)).

Definition rewind (seconds : PyVal) : M unit :=
  current_song_position <- get_pos ;;
  far <- lift (py_gt (number_val current_song_position) seconds) ;;
  new_position <-
    (if far then
       s <- as_operand seconds ;;
       ret (number_sub current_song_position s)
     else ret (NInt 0)) ;;
  seek (number_val new_position) ;;
  estimate <- gets _estimate_position ;;
  when estimate (_update_pos_estimate (number_val new_position)).

End Seeking.

(** * The vocabulary of the statements *)

(** The world left by a call, and its outcome. *)
Definition after {A} (c : M A) (w : World) : World := snd (c w).
Definition outcome {A} (c : M A) (w : World) : PyResult A := fst (c w).

(** ** Sequences of calls on the player *)

Inductive Operation : Type :=
| op_load (args : list PyVal) (clear_previous_queue ignore_aliases : bool)
| op_clear_queue
| op_unload
| op_play
| op_stop
| op_skip_to_next (play_immediately stop_current_playback restart_audio_position : bool)
| op_skip_to_previous (play_immediately stop_current_playback restart_audio_position : bool).

(** One call, at the given depth of the call stack. *)
Definition perform (float_str : Q -> string) (SoundLoader_provides : string -> bool)
           (depth : nat) (op : Operation) : M unit :=
  match op with
  | op_load args c i => load float_str SoundLoader_provides args c i
  | op_clear_queue => clear_queue
  | op_unload => unload
  | op_play => play depth
  | op_stop => stop depth
  | op_skip_to_next p s r => skip_to_next depth p s r
  | op_skip_to_previous p s r => skip_to_previous depth p s r
  end.

(** A caller that makes the calls one after the other, going on after a
    call that raised. *)
Fixpoint perform_all (float_str : Q -> string) (SoundLoader_provides : string -> bool)
         (depth : nat) (ops : list Operation) (w : World) : World :=
  match ops with
  | [] => w
  | op :: rest =>
      perform_all float_str SoundLoader_provides depth rest
        (after (perform float_str SoundLoader_provides depth op) w)
  end.

(** None of the calls ends in RecursionError: the call stack was deep
    enough for every one of them. *)
Fixpoint within_the_stack (float_str : Q -> string)
         (SoundLoader_provides : string -> bool)
         (depth : nat) (ops : list Operation) (w : World) : bool :=
  match ops with
  | [] => true
  | op :: rest =>
      match outcome (perform float_str SoundLoader_provides depth op) w with
      | Raise RecursionError => false
      | _ =>
          within_the_stack float_str SoundLoader_provides depth rest
            (after (perform float_str SoundLoader_provides depth op) w)
      end
  end.

(** The progress index is -1 or an index into the queue. *)
Definition valid_progress_index (p : AudioPlayer) : bool :=
  (_queue_progress_index p =? -1)
  || ((0 <=? _queue_progress_index p)
      && (_queue_progress_index p <? Z.of_nat (List.length (_queue p)))).

(** The calls that empty or replace the queue. *)
Definition clears (op : Operation) : bool :=
  match op with
  | op_clear_queue | op_unload => true
  | op_load _ clear_previous_queue _ => clear_previous_queue
  | _ => false
  end.

(** [keeps_index w w']: if the progress index was in order in [w], it
    still is in [w']. *)
Definition keeps_index (w w' : World) : Prop :=
  valid_progress_index (self w) = true -> valid_progress_index (self w') = true.

(** ** References that load can resolve *)

(** What [load] goes on with for one argument: the alias registered
    under it, if there is one and it is truthy, else the argument. *)
Definition resolve_alias (ignore_aliases : bool) (d : list (PyVal * PyVal))
           (audio_file : PyVal) : PyVal :=
  if negb ignore_aliases then
    let found_alias := dict_get d audio_file VNone in
    if truthy found_alias then found_alias else audio_file
  else audio_file.

(** A Sound, or a name some provider takes. *)
Definition resolves_to_sound (float_str : Q -> string)
           (SoundLoader_provides : string -> bool) (v : PyVal) : bool :=
  match v with
  | VSound _ => true
  | _ => SoundLoader_provides (py_str float_str v)
  end.

(** A reference that [load] can turn into a handle: usable as a dict
    key unless aliases are ignored, and resolving to a sound once its
    alias is looked up. *)
Definition valid_reference (float_str : Q -> string)
           (SoundLoader_provides : string -> bool)
           (ignore_aliases : bool) (d : list (PyVal * PyVal))
           (audio_file : PyVal) : bool :=
  (ignore_aliases || hashable audio_file)
  && resolves_to_sound float_str SoundLoader_provides
       (resolve_alias ignore_aliases d audio_file).

(** ** What the event handlers leave behind *)

(** What [n] bound on_play handlers leave of the player: the clock is
    scheduled if estimation is enabled and a handler ran. *)
Definition estimation_started (n : nat) (p : AudioPlayer) : AudioPlayer :=
  if _estimate_position p && negb (Nat.eqb n 0)
  then set_clock_event (Some scheduled) p else p.

(** What [n] bound on_stop handlers leave of the player when the stop
    comes from [stop()]: the clock is cancelled if estimation is enabled
    and a handler ran. *)
Definition estimation_cancelled (n : nat) (p : AudioPlayer) : AudioPlayer :=
  if _estimate_position p && negb (Nat.eqb n 0)
  then set_clock_event (Some cancelled) p else p.

(** The on_stop handlers of [stop()] can run: estimation is off, or the
    clock has been created by an earlier on_play. *)
Definition clock_ready (p : AudioPlayer) : bool :=
  negb (_estimate_position p)
  || match _clock_event p with Some _ => true | None => false end.

(** The world the on_stop handler hands to [skip_to_next] when a track
    ends by itself: clock cancelled, position estimate back to 0. *)
Definition track_ended (w : World) : World :=
  mkWorld (set_pos_estimate (VInt 0) (estimation_cancelled 1 (self w)))
          (_aliases w) (sounds w) (next_handle w) (calls w).

(** ** Relations between the world before and after a call *)

(** A call of [stop()] on a handle. *)
Definition is_stop (c : SoundCall) : bool :=
  match c with call_stop _ => true | _ => false end.

(** A method [respects] a relation between worlds when the world it
    leaves, whether it returns or raises, is related to the world it
    started from. *)
Definition respects {A} (R : World -> World -> Prop) (c : M A) : Prop :=
  forall w, R w (snd (c w)).

(** [quiet w w']: from [w] to [w'] the position estimate was not
    written and no handle was stopped. *)
Definition quiet (w w' : World) : Prop :=
  _pos_estimate (self w') = _pos_estimate (self w)
  /\ exists cs, calls w' = (calls w ++ cs)%list
                /\ forallb (fun c => negb (is_stop c)) cs = true.

(** ** Fields of a printed duration *)

(** A string without the separator of the fields. *)
Fixpoint no_colon (s : string) : bool :=
  match s with
  | EmptyString => true
  | String c rest => negb (Ascii.eqb c ":") && no_colon rest
  end.

(** What ["%02d"] prints for a minute or a second: two digits that read
    back as the number, the first of them a zero below ten. *)
Definition two_digit_field (n : Z) : bool :=
  match PyStr.of_Z_02 n with
  | String a (String b EmptyString) =>
      PyStr.is_digit a && PyStr.is_digit b
      && match PyStr.to_Z (PyStr.of_Z_02 n) with
         | Some m => m =? n
         | None => false
         end
      && (if n <? 10
          then match PyStr.to_Z (String b EmptyString) with
               | Some m => m =? n
               | None => false
               end
          else true)
  | _ => false
  end.

(** What ["%d"] prints for the hours: digits that read back as the
    number. *)
Definition hour_field (h : Z) : bool :=
  PyStr.all_digits (PyStr.of_Z h)
  && match PyStr.to_Z (PyStr.of_Z h) with
     | Some m => m =? h
     | None => false
     end.

(** The second digit of a two-digit field reads back as the number
    modulo ten. *)
Definition last_digit_field (n : Z) : bool :=
  match PyStr.of_Z_02 n with
  | String a (String b EmptyString) =>
      PyStr.is_digit a && PyStr.is_digit b
      && match PyStr.to_Z (String b EmptyString) with
         | Some m => m =? n mod 10
         | None => false
         end
  | _ => false
  end.

(** [only_clock w w']: from [w] to [w'] nothing of the player but its
    clock was written, and no handle was called. *)
Definition only_clock (w w' : World) : Prop :=
  set_clock_event (_clock_event (self w)) (self w') = self w
  /\ calls w' = calls w.

(** [under_stop w w']: if [w] is inside [stop()], with the flag set,
    then [w'] differs from it by the clock only. *)
Definition under_stop (w w' : World) : Prop :=
  _external_stop_call (self w) = true -> only_clock w w'.

(** The current track is the queue entry at the progress index, and
    there is none while the index is -1. *)
Definition current_at_index (p : AudioPlayer) : bool :=
  match _current_sound_obj p with
  | None => _queue_progress_index p =? -1
  | Some h =>
      (0 <=? _queue_progress_index p)
      && match nth_error (_queue p) (Z.to_nat (_queue_progress_index p)) with
         | Some x => Nat.eqb x h
         | None => false
         end
  end.

Definition keeps_current (w w' : World) : Prop :=
  current_at_index (self w) = true -> current_at_index (self w') = true.

(** On a player with the loop flag off the computation does not run out
    of stack, and it leaves the flag off. *)
Definition stack_safe {A} (c : M A) : Prop :=
  forall w, _loop (self w) = false ->
            outcome c w <> Raise RecursionError
            /\ _loop (self (after c w)) = false.

(** * Concrete worlds *)

(** A kivy installation with one provider, for [.wav] files. *)
Definition wav_provider (filename : string) : bool :=
  String.eqb (last (PyStr.split "." filename) "") "wav".

(** [str()] of the one float the examples print. *)
Definition demo_float_str (q : Q) : string := "1.5".

(** The double written [-0.1]. *)
Definition minus_0_1 : Q := (-3602879701896397 # 36028797018963968).

(** What the sound store holds where nothing has been loaded. *)
Definition no_sound : Sound := mkSound "" (VFloat 1) "stop" 0 0 false.

(** The world before any player is constructed: no alias, no call yet. *)
Definition world0 : World :=
  mkWorld (mkAudioPlayer false (-1) [] VNone false false VNone VNone "" None None)
          [] (fun _ => no_sound) 0%nat [].

(** [AudioPlayer()], [AudioPlayer(loop=True)] *)
Definition new_player (loop : bool) : M unit :=
  __init__ demo_float_str wav_provider [] (VInt 1) loop true (VInt 1).

(** [p = AudioPlayer()] *)
Definition fresh_world : World := after (new_player false) world0.

(** [p = AudioPlayer(); p.load("a.wav")] *)
Definition one_track_world : World :=
  after (bind (new_player false)
           (fun _ => load demo_float_str wav_provider [VStr "a.wav"] false false))
        world0.

(** [p = AudioPlayer(); p.load("a.wav"); p.play()] *)
Definition playing_world : World := after (play 2) one_track_world.

(** [p = AudioPlayer(); p.load("a.wav", "b.wav"); p.play()] *)
Definition two_tracks_playing : World :=
  after (bind (new_player false)
           (fun _ => bind (load demo_float_str wav_provider
                             [VStr "a.wav"; VStr "b.wav"] false false)
           (fun _ => play 2)))
        world0.

(** The same player inside [stop()], just before the handle is told
    to stop. *)
Definition two_tracks_stopping : World :=
  after (modify (set_external_stop_call true)) two_tracks_playing.

(** [p = AudioPlayer(); p.load("a.wav", "b.wav"); p.play();
    p.skip_to_next()]: the player is on the last of its two tracks. *)
Definition last_track_world : World :=
  after (bind (new_player false)
           (fun _ => bind (load demo_float_str wav_provider
                             [VStr "a.wav"; VStr "b.wav"] false false)
           (fun _ => bind (play 2)
           (fun _ => skip_to_next 3 true true true))))
        world0.

(** A player in the middle of a three-track queue. *)
(** One track loaded and cued without having been played:
    [skip_to_next(play_immediately=False, stop_current_playback=False)]
    on the new player. *)
Definition cued_world : World := after (skip_to_next 3 false false true) one_track_world.

Definition demo_player : AudioPlayer :=
  mkAudioPlayer false 0 [7; 8; 9]%nat (VInt 1) false true (VInt 1)
    (VInt 0) "play" None (Some 7%nat).

(** A decoder that reports 30 seconds played of a track of 200 seconds,
    for every handle. *)
Definition demo_get_pos (w : World) (h : Handle) : Number := NInt 30.

Definition demo_length (w : World) (h : Handle) : Number := NInt 200.

(** * Properties *)

(** ** _utils.py *)

Example humanize_10 : humanize_duration 10 true = Ok "0:10".
Proof. reflexivity. Qed.
Example humanize_120 : humanize_duration 120 true = Ok "2:00".
Proof. reflexivity. Qed.
Example humanize_150 : humanize_duration 150 true = Ok "2:30".
Proof. reflexivity. Qed.
Example humanize_3600 : humanize_duration 3600 true = Ok "1:00:00".
Proof. reflexivity. Qed.
Example humanize_10_keep : humanize_duration 10 false = Ok "0:00:10".
Proof. reflexivity. Qed.
Example humanize_150_keep : humanize_duration 150 false = Ok "0:02:30".
Proof. reflexivity. Qed.
Example humanize_one_day : humanize_duration 86400 true = Ok "1 day, 0:00:00".
Proof. reflexivity. Qed.
Example humanize_two_days : humanize_duration 180000 true = Ok "2 days, 2:00:00".
Proof. reflexivity. Qed.

Lemma below_forallb (P : Z -> bool) (n : nat) :
  forallb P (map Z.of_nat (seq 0 n)) = true ->
  forall z, 0 <= z < Z.of_nat n -> P z = true.
Proof.
  intros H z Hz.
  rewrite forallb_forall in H. apply H.
  apply in_map_iff. exists (Z.to_nat z). split; [lia|].
  apply in_seq. lia.
Qed.

Lemma digit_not_colon (c : ascii) :
  PyStr.is_digit c = true -> Ascii.eqb c ":" = false.
Proof.
  intros H. destruct (Ascii.eqb_spec c ":") as [->|]; [discriminate H | reflexivity].
Qed.

(** A field of digits is cut off whole at the colon that follows it. *)
Lemma split_digits_colon (f rest : string) :
  PyStr.all_digits f = true ->
  PyStr.split ":" (f ++ String ":" rest) = f :: PyStr.split ":" rest.
Proof.
  induction f as [|c f IH]; intros H; simpl in *.
  - reflexivity.
  - apply andb_prop in H as [Hc Hf].
    rewrite (digit_not_colon _ Hc), (IH Hf). reflexivity.
Qed.

Lemma split_digits (f : string) :
  PyStr.all_digits f = true -> PyStr.split ":" f = [f].
Proof.
  induction f as [|c f IH]; intros H; simpl in *.
  - reflexivity.
  - apply andb_prop in H as [Hc Hf].
    rewrite (digit_not_colon _ Hc), (IH Hf). reflexivity.
Qed.

Lemma split_two_fields (a b : string) :
  PyStr.all_digits a = true -> PyStr.all_digits b = true ->
  PyStr.split ":" (a ++ ":" ++ b) = [a; b].
Proof.
  intros Ha Hb. change (":" ++ b) with (String ":" b).
  rewrite (split_digits_colon _ _ Ha), (split_digits _ Hb). reflexivity.
Qed.

Lemma split_three_fields (a b c : string) :
  PyStr.all_digits a = true -> PyStr.all_digits b = true ->
  PyStr.all_digits c = true ->
  PyStr.split ":" (a ++ ":" ++ b ++ ":" ++ c) = [a; b; c].
Proof.
  intros Ha Hb Hc. change (":" ++ b ++ ":" ++ c) with (String ":" (b ++ ":" ++ c)).
  rewrite (split_digits_colon _ _ Ha), (split_two_fields _ _ Hb Hc). reflexivity.
Qed.

Lemma two_digit_field_ok (n : Z) : 0 <= n < 60 -> two_digit_field n = true.
Proof. apply (below_forallb two_digit_field 60). vm_compute. reflexivity. Qed.

Lemma hour_field_ok (h : Z) : 0 <= h < 24 -> hour_field h = true.
Proof. apply (below_forallb hour_field 24). vm_compute. reflexivity. Qed.

Lemma timedelta_str_below_one_day (s : Z) :
  0 <= s < 86400 ->
  timedelta_str s =
    Ok (PyStr.of_Z (s / 60 / 60) ++ ":" ++ PyStr.of_Z_02 (s / 60 mod 60)
        ++ ":" ++ PyStr.of_Z_02 (s mod 60)).
Proof.
  intros Hs. unfold timedelta_str.
  rewrite (Z.div_small s 86400), (Z.mod_small s 86400) by lia.
  reflexivity.
Qed.

(** Below one day the humanized duration reads back as the seconds it
    was made from. *)
Lemma humanize_round_trip_below_one_day (s : Z) :
  0 <= s < 86400 ->
  exists str, humanize_duration s true = Ok str /\ parse_hms str = Some s.
Proof.
  intros Hs.
  assert (Hmm : 0 <= s / 60 mod 60 < 60) by (apply Z.mod_pos_bound; lia).
  assert (Hss : 0 <= s mod 60 < 60) by (apply Z.mod_pos_bound; lia).
  assert (Hhh : 0 <= s / 60 / 60 < 24).
  { split; [apply Z.div_pos; [apply Z.div_pos|]; lia|].
    apply Z.div_lt_upper_bound; [lia|]. apply Z.div_lt_upper_bound; lia. }
  assert (Hsum : 3600 * (s / 60 / 60) + 60 * (s / 60 mod 60) + s mod 60 = s).
  { pose proof (Z.div_mod s 60 ltac:(lia)).
    pose proof (Z.div_mod (s / 60) 60 ltac:(lia)). lia. }
  pose proof (two_digit_field_ok _ Hmm) as Fm.
  pose proof (two_digit_field_ok _ Hss) as Fs.
  pose proof (hour_field_ok _ Hhh) as Fh.
  unfold humanize_duration. rewrite (timedelta_str_below_one_day s Hs).
  unfold two_digit_field in Fm, Fs. unfold hour_field in Fh.
  destruct (PyStr.of_Z_02 (s / 60 mod 60)) as [|ma [|mb [|? ?]]] eqn:Em; try discriminate Fm.
  destruct (PyStr.of_Z_02 (s mod 60)) as [|sa [|sb [|? ?]]] eqn:Es; try discriminate Fs.
  apply andb_prop in Fh as [Fh1 Fh2].
  apply andb_prop in Fm as [Fm Fm4]. apply andb_prop in Fm as [Fm Fm3].
  apply andb_prop in Fm as [Fm1 Fm2].
  apply andb_prop in Fs as [Fs _]. apply andb_prop in Fs as [Fs Fs3].
  apply andb_prop in Fs as [Fs1 Fs2].
  destruct (PyStr.to_Z (PyStr.of_Z (s / 60 / 60))) as [h|] eqn:Eh; [|discriminate].
  destruct (PyStr.to_Z (String ma (String mb ""))) as [m|] eqn:Emz; [|discriminate].
  destruct (PyStr.to_Z (String sa (String sb ""))) as [x|] eqn:Esz; [|discriminate].
  apply Z.eqb_eq in Fh2, Fm3, Fs3. subst h m x.
  assert (Dm : PyStr.all_digits (String ma (String mb "")) = true)
    by (simpl; rewrite Fm1, Fm2; reflexivity).
  assert (Ds : PyStr.all_digits (String sa (String sb "")) = true)
    by (simpl; rewrite Fs1, Fs2; reflexivity).
  pose proof (split_three_fields _ _ _ Fh1 Dm Ds) as Hsplit.
  simpl (true && _) in *.
  destruct (s <? 3600) eqn:E1.
  - (* under an hour: the hour field is dropped *)
    apply Z.ltb_lt in E1.
    assert (H0 : s / 60 / 60 = 0).
    { apply Z.div_small. split; [apply Z.div_pos; lia|].
      apply Z.div_lt_upper_bound; lia. }
    rewrite Hsplit.
    destruct (s <? 10 * 60) eqn:E2.
    + (* under ten minutes: one minute digit *)
      apply Z.ltb_lt in E2.
      assert (Hm10 : (s / 60 mod 60 <? 10) = true).
      { apply Z.ltb_lt. rewrite Z.mod_small.
        - apply Z.div_lt_upper_bound; lia.
        - split; [apply Z.div_pos; lia | apply Z.div_lt_upper_bound; lia]. }
      rewrite Hm10 in Fm4.
      destruct (PyStr.to_Z (String mb "")) as [m|] eqn:Emb; [|discriminate].
      apply Z.eqb_eq in Fm4. subst m.
      exists (String mb "" ++ ":" ++ String sa (String sb "")). split; [reflexivity|].
      unfold parse_hms.
      assert (Db : PyStr.all_digits (String mb "") = true)
        by (simpl; rewrite Fm2; reflexivity).
      rewrite (split_two_fields _ _ Db Ds), Emb, Esz. f_equal. lia.
    + exists (String ma (String mb "") ++ ":" ++ String sa (String sb "")).
      split; [reflexivity|].
      unfold parse_hms.
      rewrite (split_two_fields _ _ Dm Ds), Emz, Esz. f_equal. lia.
  - eexists. split; [reflexivity|].
    unfold parse_hms. rewrite Hsplit, Eh, Emz, Esz. f_equal. lia.
Qed.

(** From one day up the humanized form starts with a day count: its
    first field is not a number, and it reads back as nothing. *)
Lemma append_assoc (a b c : string) : (a ++ (b ++ c) = (a ++ b) ++ c)%string.
Proof. induction a as [|x a IH]; cbn; [reflexivity | rewrite IH; reflexivity]. Qed.

Lemma all_digits_app (a b : string) :
  PyStr.all_digits (a ++ b) = PyStr.all_digits a && PyStr.all_digits b.
Proof.
  induction a as [|x a IH]; cbn; [reflexivity|].
  rewrite IH, andb_assoc. reflexivity.
Qed.

Lemma no_colon_app (a b : string) :
  no_colon (a ++ b) = no_colon a && no_colon b.
Proof.
  induction a as [|x a IH]; cbn; [reflexivity|].
  rewrite IH, andb_assoc. reflexivity.
Qed.

Lemma digits_no_colon (s : string) :
  PyStr.all_digits s = true -> no_colon s = true.
Proof.
  induction s as [|c s IH]; cbn; [reflexivity|].
  intros H. apply andb_prop in H as [Hc Hs].
  rewrite (digit_not_colon _ Hc), (IH Hs). reflexivity.
Qed.

Lemma split_no_colon (f rest : string) :
  no_colon f = true ->
  PyStr.split ":" (f ++ String ":" rest) = f :: PyStr.split ":" rest.
Proof.
  induction f as [|c f IH]; intros H; cbn in *.
  - reflexivity.
  - apply andb_prop in H as [Hc Hf].
    destruct (Ascii.eqb c ":"); [discriminate Hc|].
    rewrite (IH Hf). reflexivity.
Qed.

Lemma uint_digits (d : Decimal.uint) :
  PyStr.all_digits (NilEmpty.string_of_uint d) = true.
Proof. induction d; cbn; try reflexivity; assumption. Qed.

Lemma of_Z_digits (z : Z) : 0 <= z -> PyStr.all_digits (PyStr.of_Z z) = true.
Proof.
  intros H. unfold PyStr.of_Z. destruct z; cbn.
  - reflexivity.
  - apply uint_digits.
  - lia.
Qed.

Lemma to_Z_not_digits (s : string) :
  PyStr.all_digits s = false -> PyStr.to_Z s = None.
Proof. intros H. unfold PyStr.to_Z. rewrite H. destruct s; reflexivity. Qed.

Lemma humanize_from_one_day_does_not_round_trip (s : Z) :
  86400 <= s -> round_trips s = false.
Proof.
  intros Hs. unfold round_trips, humanize_duration, timedelta_str.
  assert (Hd : 1 <= s / 86400) by (apply Z.div_le_lower_bound; lia).
  destruct (999999999 <? Z.abs (s / 86400)); [reflexivity|].
  replace (s / 86400 =? 0) with false by (symmetry; apply Z.eqb_neq; lia).
  replace (s <? 3600) with false by (symmetry; apply Z.ltb_ge; lia).
  set (secs := s mod 86400).
  assert (Hsecs : 0 <= secs < 86400) by (apply Z.mod_pos_bound; lia).
  assert (Hmm : 0 <= secs / 60 mod 60 < 60) by (apply Z.mod_pos_bound; lia).
  assert (Hss : 0 <= secs mod 60 < 60) by (apply Z.mod_pos_bound; lia).
  assert (Hhh : 0 <= secs / 60 / 60).
  { apply Z.div_pos; [apply Z.div_pos|]; lia. }
  set (sep := if Z.abs (s / 86400) =? 1 then " day, " else " days, ").
  assert (Hsep : no_colon sep = true /\ PyStr.all_digits sep = false)
    by (subst sep; destruct (Z.abs (s / 86400) =? 1); split; reflexivity).
  destruct Hsep as [Hsep1 Hsep2].
  pose proof (of_Z_digits (s / 86400) ltac:(lia)) as Dd.
  pose proof (of_Z_digits _ Hhh) as Dh.
  set (first := (PyStr.of_Z (s / 86400) ++ sep ++ PyStr.of_Z (secs / 60 / 60))%string).
  assert (Hfirst : no_colon first = true).
  { subst first. rewrite !no_colon_app, Hsep1.
    rewrite (digits_no_colon _ Dd), (digits_no_colon _ Dh). reflexivity. }
  assert (Hnot : PyStr.all_digits first = false).
  { subst first. rewrite !all_digits_app, Hsep2, andb_false_r. reflexivity. }
  match goal with |- context [parse_hms ?x] =>
    replace x with (first ++ String ":" (PyStr.of_Z_02 (secs / 60 mod 60)
                                         ++ ":" ++ PyStr.of_Z_02 (secs mod 60)))%string
  end.
  2:{ subst first. rewrite <- !append_assoc. reflexivity. }
  unfold parse_hms. rewrite (split_no_colon _ _ Hfirst).
  pose proof (two_digit_field_ok _ Hmm) as Fm.
  pose proof (two_digit_field_ok _ Hss) as Fs.
  unfold two_digit_field in Fm, Fs.
  destruct (PyStr.of_Z_02 (secs / 60 mod 60)) as [|ma [|mb [|? ?]]] eqn:Em;
    try discriminate Fm.
  destruct (PyStr.of_Z_02 (secs mod 60)) as [|sa [|sb [|? ?]]] eqn:Es;
    try discriminate Fs.
  apply andb_prop in Fm as [Fm _]. apply andb_prop in Fm as [Fm _].
  apply andb_prop in Fm as [Fm1 Fm2].
  apply andb_prop in Fs as [Fs _]. apply andb_prop in Fs as [Fs _].
  apply andb_prop in Fs as [Fs1 Fs2].
  assert (Dm : PyStr.all_digits (String ma (String mb "")) = true)
    by (cbn; rewrite Fm1, Fm2; reflexivity).
  assert (Ds : PyStr.all_digits (String sa (String sb "")) = true)
    by (cbn; rewrite Fs1, Fs2; reflexivity).
  rewrite (split_two_fields _ _ Dm Ds), (to_Z_not_digits _ Hnot). reflexivity.
Qed.

(** A non-negative number of seconds survives the round trip exactly
    when it is less than one day. *)
Lemma humanize_round_trips_iff (s : Z) :
  0 <= s -> (round_trips s = true <-> s < 86400).
Proof.
  intros H0. split.
  - intros Hr. destruct (Z.lt_ge_cases s 86400) as [|Hge]; [assumption|].
    rewrite (humanize_from_one_day_does_not_round_trip s Hge) in Hr. discriminate Hr.
  - intros Hlt.
    destruct (humanize_round_trip_below_one_day s (conj H0 Hlt)) as (str & E & P).
    unfold round_trips. rewrite E, P. apply Z.eqb_refl.
Qed.

(** C9: the humanized form of a non-negative number of seconds is meant
    to read back, as hours:minutes:seconds, to the same number of
    seconds.  At one day (86400 seconds) [humanize_duration] returns
    ["1 day, 0:00:00"], which has no hours:minutes:seconds reading. *)
Theorem humanize_duration_one_day_does_not_round_trip :
  humanize_duration 86400 true = Ok "1 day, 0:00:00"
  /\ parse_hms "1 day, 0:00:00" = None
  /\ round_trips 86400 = false.
Proof. repeat split; reflexivity. Qed.

(** ** Iteration, length and containment *)

Lemma py_slice_from_skipn {A} (l : list A) (start : Z) :
  0 <= start -> py_slice_from l start = skipn (Z.to_nat start) l.
Proof.
  intros H. unfold py_slice_from.
  destruct (start <? 0) eqn:E; [apply Z.ltb_lt in E; lia|].
  destruct (Z.min_spec start (Z.of_nat (List.length l))) as [[Hlt ->]|[Hge ->]].
  - reflexivity.
  - rewrite Nat2Z.id, skipn_all.
    symmetry. apply skipn_all2. lia.
Qed.

Lemma py_slice_from_suffix {A} (l : list A) (start : Z) :
  exists prefix, l = (prefix ++ py_slice_from l start)%list.
Proof.
  unfold py_slice_from.
  match goal with |- context [skipn ?n l] => exists (firstn n l) end.
  symmetry. apply firstn_skipn.
Qed.

(** C8: iterating the player yields a tail of the queue, and [len()] and
    [in] are computed on that same tail, not on the whole queue.  With
    the progress index at -1 or above, the tail is what lies after the
    current index: positions index+1, index+2, ... in queue order. *)
Theorem iteration_is_the_tail_after_current (p : AudioPlayer) (item : PyVal) :
  (exists played, _queue p = (played ++ __iter__ p)%list)
  /\ __len__ p = Z.of_nat (List.length (__iter__ p))
  /\ (__contains__ p item = true
      <-> exists h, In h (__iter__ p) /\ py_eqb item (VSound h) = true)
  /\ (-1 <= _queue_progress_index p ->
      __iter__ p = skipn (Z.to_nat (_queue_progress_index p + 1)) (_queue p)
      /\ (forall k, nth_error (__iter__ p) k
                    = nth_error (_queue p)
                                (Z.to_nat (_queue_progress_index p + 1) + k))
      /\ __len__ p = Z.max 0 (Z.of_nat (List.length (_queue p))
                              - (_queue_progress_index p + 1))).
Proof.
  split; [apply py_slice_from_suffix|]. split; [reflexivity|].
  split; [unfold __contains__; fold (__iter__ p); apply existsb_exists|].
  intros H.
  assert (E : __iter__ p = skipn (Z.to_nat (_queue_progress_index p + 1)) (_queue p))
    by (apply py_slice_from_skipn; lia).
  split; [exact E|]. split.
  - intros k. rewrite E. apply nth_error_skipn.
  - unfold __len__. fold (__iter__ p). rewrite E, length_skipn. lia.
Qed.

Lemma iteration_is_the_tail_after_current_witness :
  -1 <= _queue_progress_index demo_player
  /\ __iter__ demo_player = [8; 9]%nat
  /\ __len__ demo_player = 2
  /\ __contains__ demo_player (VSound 7%nat) = false.
Proof.
  assert (Hp : -1 <= _queue_progress_index demo_player) by (simpl; lia).
  destruct (iteration_is_the_tail_after_current demo_player (VSound 7%nat))
    as (_ & _ & _ & Hidx).
  destruct (Hidx Hp) as (Hiter & _ & Hlen).
  split; [exact Hp|]. split; [exact Hiter|]. split; [exact Hlen|]. reflexivity.
Defined.

Lemma len_before_start (p : AudioPlayer) :
  _queue_progress_index p = -1 ->
  __len__ p = Z.of_nat (List.length (_queue p)).
Proof.
  intros H. unfold __len__. rewrite H.
  rewrite py_slice_from_skipn by lia. reflexivity.
Qed.

(** ** The volume property *)

Local Open Scope py_scope.

Lemma set_volume_on_queue (q : list Handle) (w : World) :
  let r := for_each q (fun sound_obj =>
             v <- gets _volume ;;
             update_sound sound_obj (set_sound_volume v)) w in
  fst r = Ok tt
  /\ self (snd r) = self w
  /\ _aliases (snd r) = _aliases w
  /\ next_handle (snd r) = next_handle w
  /\ calls (snd r) = calls w
  /\ forall h, sounds (snd r) h =
               if existsb (Nat.eqb h) q
               then set_sound_volume (_volume (self w)) (sounds w h)
               else sounds w h.
Proof.
  revert w. induction q as [|a q IH]; intros w; cbn.
  - repeat split; reflexivity.
  - specialize (IH (mkWorld (self w) (_aliases w)
                      (fun h' => if Nat.eqb h' a
                                 then set_sound_volume (_volume (self w)) (sounds w a)
                                 else sounds w h')
                      (next_handle w) (calls w))).
    cbn in IH. destruct IH as (H1 & H2 & H3 & H4 & H5 & H6).
    unfold bind at 1. cbn.
    repeat split; try assumption.
    intros h. rewrite H6.
    destruct (Nat.eqb_spec h a) as [->|Hne]; cbn.
    + destruct (existsb (Nat.eqb a) q); reflexivity.
    + reflexivity.
Qed.

Lemma never_below_zero_and_above_one (q : Q) :
  negb (Qle_bool 0 q) && negb (Qle_bool q 1) = false.
Proof.
  destruct (Qle_bool 0 q) eqn:E0; [reflexivity|].
  destruct (Qle_bool q 1) eqn:E1; [reflexivity|]. exfalso.
  assert (H0 : ~ (0 <= q)%Q) by (rewrite <- Qle_bool_iff; congruence).
  assert (H1 : ~ (q <= 1)%Q) by (rewrite <- Qle_bool_iff; congruence).
  apply H1. apply Qlt_le_weak. apply Qlt_trans with 0%Q.
  - apply Qnot_le_lt. exact H0.
  - reflexivity.
Qed.

Lemma volume_setter_number_eq (new_volume : PyVal) (x : Q) (w : World) :
  as_number new_volume = Some x ->
  volume_setter new_volume w =
  for_each (_queue (self w))
    (fun sound_obj => v <- gets _volume ;;
                      update_sound sound_obj (set_sound_volume v))
    (mkWorld (set_volume new_volume (self w)) (_aliases w) (sounds w)
       (next_handle w) (calls w)).
Proof.
  intros Hx. pose proof (never_below_zero_and_above_one x) as Hn.
  unfold volume_setter, bind, lift, py_gt.
  assert (Hal : NumberConversion_is_allowed new_volume = Ok tt)
    by (destruct new_volume; try discriminate Hx; reflexivity).
  rewrite Hal, Hx. cbn [as_number].
  change (inject_Z 0) with 0%Q. change (inject_Z 1) with 1%Q.
  destruct (Qle_bool 0 x); cbn.
  - reflexivity.
  - destruct (Qle_bool x 1); [reflexivity | discriminate Hn].
Qed.

(** The setter takes every int and every float, whatever its value: the
    guard [0 > new_volume > 1] asks for a number that is both negative
    and above one. *)
Lemma volume_setter_takes_every_number (new_volume : PyVal) (x : Q) (w : World) :
  as_number new_volume = Some x ->
  outcome (volume_setter new_volume) w = Ok tt
  /\ volume_getter (self (after (volume_setter new_volume) w)) = new_volume
  /\ forall h, In h (_queue (self w)) ->
               volume (sounds (after (volume_setter new_volume) w) h) = new_volume.
Proof.
  intros Hx. unfold outcome, after.
  rewrite (volume_setter_number_eq _ _ _ Hx).
  pose proof (set_volume_on_queue (_queue (self w))
                (mkWorld (set_volume new_volume (self w)) (_aliases w) (sounds w)
                   (next_handle w) (calls w))) as Hq.
  cbn in Hq. destruct Hq as (H1 & H2 & _ & _ & _ & H6).
  split; [exact H1|]. split.
  - unfold volume_getter. rewrite H2. reflexivity.
  - intros h Hin. rewrite H6.
    assert (Hex : existsb (Nat.eqb h) (_queue (self w)) = true).
    { apply existsb_exists. exists h. split; [exact Hin | apply Nat.eqb_refl]. }
    rewrite Hex. reflexivity.
Qed.

(** A value that is neither an int nor a float is turned away by the
    type gate, before anything is assigned. *)
Lemma volume_setter_rejects_non_numbers (new_volume : PyVal) (w : World) :
  as_number new_volume = None ->
  volume_setter new_volume w
  = (Raise (TypeError_only_accepted NumberConversion_allowed_types), w).
Proof.
  intros Hx. destruct new_volume; try discriminate Hx; reflexivity.
Qed.

(** C5: out-of-range volumes are meant to be refused with a ValueError
    and leave the volume as it was, the bounds 0.0 and 1.0 being taken.
    The bounds are taken, but so are 1.5 and -0.1: the setter returns
    normally, stores them, and assigns them to the queued handle. *)
Theorem volume_setter_accepts_out_of_range :
  volume_getter (self one_track_world) = VInt 1
  /\ _queue (self one_track_world) = [0%nat]
  /\ outcome (volume_setter (VFloat (3 # 2))) one_track_world = Ok tt
  /\ volume_getter (self (after (volume_setter (VFloat (3 # 2))) one_track_world))
     = VFloat (3 # 2)
  /\ volume (sounds (after (volume_setter (VFloat (3 # 2))) one_track_world) 0%nat)
     = VFloat (3 # 2)
  /\ outcome (volume_setter (VFloat minus_0_1)) one_track_world = Ok tt
  /\ volume_getter (self (after (volume_setter (VFloat minus_0_1)) one_track_world))
     = VFloat minus_0_1
  /\ volume (sounds (after (volume_setter (VFloat minus_0_1)) one_track_world) 0%nat)
     = VFloat minus_0_1
  /\ outcome (volume_setter (VFloat 0)) one_track_world = Ok tt
  /\ outcome (volume_setter (VFloat 1)) one_track_world = Ok tt.
Proof. repeat split; reflexivity. Qed.

(** ** Running a method *)

Lemma bind_ok {A B} (c : M A) (k : A -> M B) (w w' : World) (a : A) :
  c w = (Ok a, w') -> bind c k w = k a w'.
Proof. intros H. unfold bind. rewrite H. reflexivity. Qed.

Lemma bind_raise {A B} (c : M A) (k : A -> M B) (w w' : World) (e : PyExn) :
  c w = (Raise e, w') -> bind c k w = (Raise e, w').
Proof. intros H. unfold bind. rewrite H. reflexivity. Qed.

Lemma after_eq {A} (c : M A) (w w' : World) (r : PyResult A) :
  c w = (r, w') -> after c w = w'.
Proof. intros H. unfold after. rewrite H. reflexivity. Qed.

Lemma outcome_eq {A} (c : M A) (w w' : World) (r : PyResult A) :
  c w = (r, w') -> outcome c w = r.
Proof. intros H. unfold outcome. rewrite H. reflexivity. Qed.

Lemma set_queue_same (p : AudioPlayer) : set_queue (_queue p) p = p.
Proof. destruct p; reflexivity. Qed.

(** ** load *)

Section LoadProperties.

Variable fs : Q -> string.
Variable pr : string -> bool.

(** The conversion gate never raises and only ever adds to the sound
    store. *)
Lemma as_sound_obj_resolves (v : PyVal) (w : World) :
  resolves_to_sound fs pr v = true ->
  exists h w1,
    SoundTypeConversion_as_sound_obj fs pr v w = (Ok (Some h), w1)
    /\ self w1 = self w /\ _aliases w1 = _aliases w /\ calls w1 = calls w.
Proof.
  unfold resolves_to_sound. intros H.
  destruct v; cbn in *; unfold SoundLoader_load; try rewrite H;
    do 2 eexists; (split; [reflexivity|]); repeat split.
Qed.

Lemma as_sound_obj_fails (v : PyVal) (w : World) :
  resolves_to_sound fs pr v = false ->
  SoundTypeConversion_as_sound_obj fs pr v w = (Ok None, w).
Proof.
  unfold resolves_to_sound. intros H.
  destruct v; cbn in *; unfold SoundLoader_load; try rewrite H; try reflexivity.
  discriminate H.
Qed.

Lemma resolve_alias_run (ignore_aliases : bool) (audio_file : PyVal) (w : World) :
  ignore_aliases || hashable audio_file = true ->
  (if negb ignore_aliases
   then found_alias <- get_alias audio_file VNone ;;
        ret (if truthy found_alias then found_alias else audio_file)
   else ret audio_file) w
  = (Ok (resolve_alias ignore_aliases (_aliases w) audio_file), w).
Proof.
  intros Hh. unfold resolve_alias.
  destruct ignore_aliases; cbn in *; [reflexivity|].
  unfold bind, get_alias. rewrite Hh. reflexivity.
Qed.

(** One valid reference: one handle appended, nothing else on [self]
    touched. *)
Lemma load_one_valid (ignore_aliases : bool) (audio_file : PyVal) (w : World) :
  valid_reference fs pr ignore_aliases (_aliases w) audio_file = true ->
  exists h w',
    load_one fs pr ignore_aliases audio_file w = (Ok tt, w')
    /\ self w' = set_queue (_queue (self w) ++ [h]) (self w)
    /\ _aliases w' = _aliases w
    /\ calls w' = calls w.
Proof.
  unfold valid_reference. intros Hv.
  apply andb_prop in Hv as [Hh Hr].
  destruct (as_sound_obj_resolves _ w Hr) as (h & w1 & E & F1 & F2 & F3).
  exists h. eexists. unfold load_one.
  rewrite (bind_ok _ _ _ _ _ (resolve_alias_run _ _ _ Hh)).
  rewrite (bind_ok _ _ _ _ _ E).
  split; [reflexivity|]. cbn. rewrite F1, F2, F3. repeat split.
Qed.

(** The loop of [load] over valid references appends one handle for
    each of them, in order. *)
Lemma load_loop_valid (ignore_aliases : bool) (args : list PyVal) (w : World) :
  forallb (valid_reference fs pr ignore_aliases (_aliases w)) args = true ->
  exists hs w',
    for_each args (load_one fs pr ignore_aliases) w = (Ok tt, w')
    /\ List.length hs = List.length args
    /\ self w' = set_queue (_queue (self w) ++ hs) (self w)
    /\ _aliases w' = _aliases w
    /\ calls w' = calls w.
Proof.
  revert w. induction args as [|a args IH]; intros w Hv.
  - exists [], w. cbn. rewrite app_nil_r, set_queue_same. repeat split.
  - cbn in Hv. apply andb_prop in Hv as [Ha Hargs].
    destruct (load_one_valid ignore_aliases a w Ha) as (h & w1 & E1 & S1 & A1 & C1).
    rewrite <- A1 in Hargs.
    destruct (IH w1 Hargs) as (hs & w2 & E2 & L & S2 & A2 & C2).
    exists (h :: hs), w2. cbn [for_each List.length].
    rewrite (bind_ok _ _ _ _ _ E1).
    split; [exact E2|]. split; [congruence|]. split; [|split; congruence].
    rewrite S2, S1. cbn [_queue set_queue]. rewrite <- app_assoc. reflexivity.
Qed.

(** C7 (amended): loading N valid references returns normally and
    appends exactly N handles, in order, to the queue (emptied first when
    [clear_previous_queue] is set), so its length grows by N and a player
    that had nothing queued and no current track reports length N.  The
    state afterwards is "queue loaded" whenever the queue is then
    non-empty, and is left as it was when the queue is then empty: with
    no reference at all the state is kept only if nothing is queued. *)
Theorem load_appends_valid_references
        (args : list PyVal) (clear_previous_queue ignore_aliases : bool)
        (w : World) :
  forallb (valid_reference fs pr ignore_aliases (_aliases w)) args = true ->
  exists hs w',
    load fs pr args clear_previous_queue ignore_aliases w = (Ok tt, w')
    /\ List.length hs = List.length args
    /\ _queue (self w')
       = ((if clear_previous_queue then [] else _queue (self w)) ++ hs)%list
    /\ _state (self w')
       = (if Nat.eqb (List.length (_queue (self w'))) 0
          then _state (self w) else "queue loaded")
    /\ (args <> [] -> _state (self w') = "queue loaded")
    /\ _queue_progress_index (self w') = _queue_progress_index (self w)
    /\ ((if clear_previous_queue then [] else _queue (self w)) = [] ->
        _queue_progress_index (self w) = -1 ->
        __len__ (self w') = Z.of_nat (List.length args)).
Proof.
  intros Hv. unfold load.
  set (w0 := snd (when clear_previous_queue clear_queue w)).
  assert (E0 : when clear_previous_queue clear_queue w = (Ok tt, w0))
    by (subst w0; destruct clear_previous_queue; reflexivity).
  assert (Q0 : _queue (self w0) = if clear_previous_queue then [] else _queue (self w))
    by (subst w0; destruct clear_previous_queue; reflexivity).
  assert (P0 : self w0 = set_queue (_queue (self w0)) (self w)).
  { subst w0; destruct clear_previous_queue; cbn; [reflexivity|].
    symmetry; apply set_queue_same. }
  assert (A0 : _aliases w0 = _aliases w)
    by (subst w0; destruct clear_previous_queue; reflexivity).
  rewrite <- A0 in Hv.
  destruct (load_loop_valid ignore_aliases args w0 Hv)
    as (hs & w1 & E1 & L & S1 & A1 & C1).
  rewrite (bind_ok _ _ _ _ _ E0), (bind_ok _ _ _ _ _ E1).
  assert (Q1 : _queue (self w1) = (_queue (self w0) ++ hs)%list)
    by (rewrite S1; reflexivity).
  unfold bind at 1. unfold gets at 1. unfold when.
  destruct (Nat.eqb (List.length (_queue (self w1))) 0) eqn:En; cbn [negb];
    exists hs; eexists; (split; [reflexivity|]); (split; [exact L|]);
    cbn [self modify snd set_state _queue _state _queue_progress_index];
    rewrite ?En; rewrite <- Q0, <- Q1.
  - apply Nat.eqb_eq in En.
    repeat split.
    + rewrite S1, P0. reflexivity.
    + intros Hne. exfalso. rewrite Q1, length_app, L in En.
      destruct args; [congruence | cbn in En; lia].
    + rewrite S1, P0. reflexivity.
    + intros Hq Hi. rewrite len_before_start by (rewrite S1, P0; exact Hi).
      rewrite Q1, Hq. cbn. rewrite L. reflexivity.
  - repeat split.
    + rewrite S1, P0. reflexivity.
    + intros Hq Hi. rewrite len_before_start by (cbn; rewrite S1, P0; exact Hi).
      cbn. rewrite Q1, Hq. cbn. rewrite L. reflexivity.
Qed.

(** A reference that is not valid stops [load] where it stands: with
    the TypeError of the dict for an unhashable key, or with the
    AttributeError of the assignment to [None.volume].  Nothing is
    appended for it. *)
Lemma load_one_invalid (ignore_aliases : bool) (audio_file : PyVal) (w : World) :
  valid_reference fs pr ignore_aliases (_aliases w) audio_file = false ->
  exists e,
    load_one fs pr ignore_aliases audio_file w = (Raise e, w)
    /\ (e = TypeError_unhashable \/ e = AttributeError_NoneType "volume").
Proof.
  unfold valid_reference. intros Hv.
  destruct (ignore_aliases || hashable audio_file) eqn:Hh; cbn in Hv.
  - exists (AttributeError_NoneType "volume"). split; [|right; reflexivity].
    unfold load_one.
    rewrite (bind_ok _ _ _ _ _ (resolve_alias_run _ _ _ Hh)).
    rewrite (bind_ok _ _ _ _ _ (as_sound_obj_fails _ w Hv)). reflexivity.
  - exists TypeError_unhashable. split; [|left; reflexivity].
    apply orb_false_elim in Hh as [-> Hh].
    unfold load_one. cbn. unfold bind, get_alias. rewrite Hh. reflexivity.
Qed.

Lemma load_loop_exceptions (ignore_aliases : bool) (args : list PyVal)
      (w w' : World) (e : PyExn) :
  for_each args (load_one fs pr ignore_aliases) w = (Raise e, w') ->
  e = TypeError_unhashable \/ e = AttributeError_NoneType "volume".
Proof.
  revert w. induction args as [|a args IH]; intros w H.
  - discriminate H.
  - cbn [for_each] in H.
    destruct (valid_reference fs pr ignore_aliases (_aliases w) a) eqn:Hv.
    + destruct (load_one_valid _ _ _ Hv) as (h & w1 & E & _).
      rewrite (bind_ok _ _ _ _ _ E) in H. exact (IH _ H).
    + destruct (load_one_invalid _ _ _ Hv) as (e' & E & He).
      rewrite (bind_raise _ _ _ _ _ E) in H. congruence.
Qed.

(** [load] never consults [is_allowed]: whatever it is given, it does
    not raise the TypeError that names the allowed types. *)
Lemma load_never_raises_the_gate_error
      (args : list PyVal) (clear_previous_queue ignore_aliases : bool)
      (w : World) (allowed : list PyType) :
  outcome (load fs pr args clear_previous_queue ignore_aliases) w
  <> Raise (TypeError_only_accepted allowed).
Proof.
  unfold outcome, load. intros H.
  assert (E0 : exists w0, when clear_previous_queue clear_queue w = (Ok tt, w0))
    by (destruct clear_previous_queue; eexists; reflexivity).
  destruct E0 as [w0 E0]. rewrite (bind_ok _ _ _ _ _ E0) in H.
  destruct (for_each args (load_one fs pr ignore_aliases) w0) as [[[]|e] w1] eqn:E1.
  - rewrite (bind_ok _ _ _ _ _ E1) in H. unfold bind, gets, when in H.
    destruct (negb _) in H; discriminate H.
  - rewrite (bind_raise _ _ _ _ _ E1) in H. cbn in H.
    destruct (load_loop_exceptions _ _ _ _ _ E1); congruence.
Qed.

End LoadProperties.

Lemma load_appends_valid_references_witness :
  forallb (valid_reference demo_float_str wav_provider false (_aliases fresh_world))
          [VStr "a.wav"; VStr "b.wav"] = true
  /\ exists (hs : list Handle) w',
    load demo_float_str wav_provider [VStr "a.wav"; VStr "b.wav"] false false
         fresh_world = (Ok tt, w')
    /\ List.length hs = 2%nat
    /\ _state (self w') = "queue loaded"
    /\ __len__ (self w') = 2.
Proof.
  assert (Hv : forallb (valid_reference demo_float_str wav_provider false
                          (_aliases fresh_world))
                       [VStr "a.wav"; VStr "b.wav"] = true) by reflexivity.
  split; [exact Hv|].
  destruct (load_appends_valid_references demo_float_str wav_provider
              [VStr "a.wav"; VStr "b.wav"] false false fresh_world Hv)
    as (hs & w' & E & L & _ & _ & St & _ & Len).
  exists hs, w'. split; [exact E|]. split; [exact L|].
  split; [apply St; discriminate|].
  apply Len; reflexivity.
Defined.

(** C7, as first stated, has [load()] with no reference leave the state
    alone whatever it was.  On a player that is playing its one queued
    track the call sets the state to "queue loaded". *)
Lemma load_without_references_changes_state :
  _state (self playing_world) = "play"
  /\ _queue (self playing_world) = [0%nat]
  /\ outcome (load demo_float_str wav_provider [] false false) playing_world = Ok tt
  /\ _state (self (after (load demo_float_str wav_provider [] false false)
                         playing_world)) = "queue loaded".
Proof. repeat split; reflexivity. Qed.

(** C6: a reference whose type is outside the allowed set is meant to be
    refused by [load] with the TypeError that names the allowed types.
    [register] refuses the integer 5 that way; [load] passes it to the
    loader as the file name "5", gets no Sound back, and stops on the
    assignment to [None.volume] with an AttributeError.  An object of a
    foreign class whose [str()] form is a loadable name is queued. *)
Theorem load_does_not_check_types :
  SoundTypeConversion_is_allowed (VInt 5)
  = Raise (TypeError_only_accepted [TStr; TPath; TSound])
  /\ outcome (register (VStr "five") (VInt 5)) fresh_world
     = Raise (TypeError_only_accepted [TStr; TPath; TSound])
  /\ outcome (load demo_float_str wav_provider [VInt 5] false false) fresh_world
     = Raise (AttributeError_NoneType "volume")
  /\ _queue (self (after (load demo_float_str wav_provider [VInt 5] false false)
                         fresh_world)) = []
  /\ outcome (load demo_float_str wav_provider
                   [VObject 1 "Song" "song.wav" true] false false) fresh_world
     = Ok tt
  /\ _queue (self (after (load demo_float_str wav_provider
                               [VObject 1 "Song" "song.wav" true] false false)
                         fresh_world)) = [0%nat].
Proof. repeat split; reflexivity. Qed.

(** ** The transport methods *)

Lemma methods_S (d : nat) :
  methods (S d)
  = mkMethods (_cancel_estimation_body (methods d)) (_jump_to_index_body (methods d))
      (play_body (methods d)) (stop_body (methods d)) (skip_to_next_body (methods d)).
Proof. reflexivity. Qed.

Lemma play_S (d : nat) : play (S d) = play_body (methods d).
Proof. reflexivity. Qed.

Lemma jump_S (d : nat) (i : Z) : _jump_to_index (S d) i = _jump_to_index_body (methods d) i.
Proof. reflexivity. Qed.

Lemma getitem_out_of_range {A} (l : list A) (i : Z) :
  i < - Z.of_nat (List.length l) \/ Z.of_nat (List.length l) <= i ->
  py_getitem l i = Raise (IndexError "list index out of range").
Proof.
  intros H. unfold py_getitem.
  destruct (i <? 0) eqn:E;
    [apply Z.ltb_lt in E | apply Z.ltb_ge in E];
    match goal with |- (if ?a && ?b then _ else _) = _ =>
      destruct a eqn:Ea; destruct b eqn:Eb; cbn [andb]; try reflexivity
    end;
    apply Z.leb_le in Ea; apply Z.ltb_lt in Eb; lia.
Qed.

Lemma getitem_in_range {A} (l : list A) (i : Z) :
  0 <= i < Z.of_nat (List.length l) ->
  exists x, py_getitem l i = Ok x /\ nth_error l (Z.to_nat i) = Some x.
Proof.
  intros H. unfold py_getitem.
  replace (i <? 0) with false by (symmetry; apply Z.ltb_ge; lia).
  replace (0 <=? i) with true by (symmetry; apply Z.leb_le; lia).
  replace (i <? Z.of_nat (List.length l)) with true by (symmetry; apply Z.ltb_lt; lia).
  cbn [andb].
  destruct (nth_error l (Z.to_nat i)) as [x|] eqn:E.
  - exists x. split; reflexivity.
  - apply nth_error_None in E. lia.
Qed.

Lemma getitem_empty {A} (i : Z) :
  @py_getitem A [] i = Raise (IndexError "list index out of range").
Proof. apply getitem_out_of_range. cbn. lia. Qed.

(** With nothing queued, no current track and the loop flag set, [play]
    and [_jump_to_index] call one another without end: at every depth of
    the call stack the outcome is RecursionError. *)
Lemma play_jump_never_return (d : nat) :
  forall w,
    _queue (self w) = [] -> _loop (self w) = true ->
    (_current_sound_obj (self w) = None ->
     outcome (play d) w = Raise RecursionError)
    /\ (forall i, outcome (_jump_to_index d i) w = Raise RecursionError).
Proof.
  induction d as [|d IH]; intros w Hq Hl.
  - split; reflexivity.
  - split.
    + intros Hc. destruct (IH w Hq Hl) as [_ Hj]. specialize (Hj 0).
      unfold outcome in *. rewrite play_S. unfold play_body.
      unfold bind at 1. unfold gets at 1. rewrite Hc.
      fold (_jump_to_index d 0). unfold bind at 1.
      destruct (_jump_to_index d 0 w) as [r w1]. cbn in Hj. subst r. reflexivity.
    + intros i. unfold outcome. rewrite jump_S.
      unfold _jump_to_index_body, try_except_IndexError.
      unfold bind at 1. cbn [modify]. unfold _set_current_sound_obj.
      unfold bind at 1. cbn [gets self set_queue_progress_index _queue].
      rewrite Hq. unfold bind at 1. cbn [gets]. unfold bind at 1.
      unfold lift at 1. rewrite getitem_empty.
      unfold bind at 1. cbn [modify]. unfold bind at 1. cbn [modify].
      unfold bind at 1. cbn [gets self set_current_sound_obj set_queue_progress_index _loop].
      rewrite Hl. cbn [when].
      match goal with |- fst (m_play (methods d) ?w') = _ =>
        destruct (IH w') as [Hp _]; [exact Hq | exact Hl |];
        apply Hp; reflexivity
      end.
Qed.

(** C10: [play] is meant to return on every reachable player.  On
    [AudioPlayer(loop=True)] with nothing loaded it does not: whatever
    the depth allowed to the call stack, [play] and [_jump_to_index]
    have not reached a base case when it is used up. *)
Theorem play_on_empty_looping_player_never_returns :
  _queue (self (after (new_player true) world0)) = []
  /\ _loop (self (after (new_player true) world0)) = true
  /\ forall depth,
       outcome (play depth) (after (new_player true) world0) = Raise RecursionError.
Proof.
  split; [reflexivity|]. split; [reflexivity|].
  intros depth.
  apply (play_jump_never_return depth (after (new_player true) world0)); reflexivity.
Qed.

Lemma world_eta (w : World) :
  mkWorld (self w) (_aliases w) (sounds w) (next_handle w) (calls w) = w.
Proof. destruct w; reflexivity. Qed.

Lemma dispatch_initialize (n : nat) (w : World) :
  dispatch n _initialize_estimation w
  = (Ok tt, mkWorld (estimation_started n (self w)) (_aliases w) (sounds w)
              (next_handle w) (calls w)).
Proof.
  revert w. induction n as [|n IH]; intros w.
  - cbn. unfold estimation_started. rewrite andb_false_r, world_eta. reflexivity.
  - cbn [dispatch]. unfold bind. unfold _initialize_estimation at 1.
    unfold bind, gets, when, _start_clock.
    destruct (_estimate_position (self w)) eqn:E.
    + cbn [modify]. rewrite IH. cbn. unfold estimation_started. cbn.
      rewrite E. cbn. destruct (Nat.eqb n 0); reflexivity.
    + cbn [ret]. rewrite IH. unfold estimation_started. rewrite E. reflexivity.
Qed.

Lemma Sound_play_run (h : Handle) (w : World) :
  exists w',
    Sound_play h w = (Ok tt, w')
    /\ self w' = estimation_started (on_play_bound (sounds w h)) (self w)
    /\ calls w' = (calls w ++ [call_play h])%list
    /\ _aliases w' = _aliases w.
Proof.
  eexists. unfold Sound_play. unfold bind at 1. cbn [record_call].
  unfold bind at 1. cbn [update_sound]. unfold bind at 1. cbn [get_sound].
  rewrite dispatch_initialize. split; [reflexivity|].
  cbn. rewrite Nat.eqb_refl. cbn. repeat split.
Qed.

(** The on_stop handler under [stop()]: with the external-stop flag set
    it cancels the clock and does nothing else. *)
Lemma cancel_estimation_flagged (rec : Methods) (w : World) :
  _external_stop_call (self w) = true ->
  clock_ready (self w) = true ->
  _cancel_estimation_body rec w
  = (Ok tt, mkWorld (estimation_cancelled 1 (self w)) (_aliases w) (sounds w)
              (next_handle w) (calls w)).
Proof.
  intros Hf Hc. unfold _cancel_estimation_body, clock_ready, estimation_cancelled in *.
  unfold bind at 1. cbn [gets]. cbn [Nat.eqb negb]. rewrite andb_true_r.
  destruct (_estimate_position (self w)) eqn:E; cbn [when negb orb] in *.
  - unfold _cancel_clock. unfold bind at 1. unfold bind at 1. cbn [gets].
    destruct (_clock_event (self w)); [|discriminate Hc].
    cbn [modify]. unfold bind. cbn. rewrite Hf. reflexivity.
  - unfold bind. cbn. rewrite Hf, world_eta. reflexivity.
Qed.

Lemma dispatch_cancel_flagged (rec : Methods) (n : nat) (w : World) :
  _external_stop_call (self w) = true ->
  clock_ready (self w) = true ->
  dispatch n (_cancel_estimation_body rec) w
  = (Ok tt, mkWorld (estimation_cancelled n (self w)) (_aliases w) (sounds w)
              (next_handle w) (calls w)).
Proof.
  revert w. induction n as [|n IH]; intros w Hf Hc.
  - cbn. unfold estimation_cancelled. rewrite andb_false_r, world_eta. reflexivity.
  - cbn [dispatch]. rewrite (bind_ok _ _ _ _ _ (cancel_estimation_flagged rec w Hf Hc)).
    rewrite IH.
    + unfold estimation_cancelled. cbn.
      destruct (_estimate_position (self w)) eqn:E; cbn; rewrite ?E; cbn.
      * destruct (Nat.eqb n 0); reflexivity.
      * reflexivity.
    + unfold estimation_cancelled. cbn.
      destruct (_estimate_position (self w)); cbn; assumption.
    + unfold estimation_cancelled, clock_ready in *. cbn.
      destruct (_estimate_position (self w)) eqn:E; cbn; rewrite ?E; cbn; trivial.
Qed.

Lemma stop_run (d : nat) (h : Handle) (w : World) :
  _current_sound_obj (self w) = Some h ->
  clock_ready (self w) = true ->
  exists w',
    stop (S (S d)) w = (Ok tt, w')
    /\ self w' = set_state "stop"
                   (estimation_cancelled (on_stop_bound (sounds w h))
                      (set_external_stop_call false (self w)))
    /\ calls w' = (calls w ++ [call_stop h])%list
    /\ _aliases w' = _aliases w.
Proof.
  intros Hc Hr. eexists. unfold stop. rewrite methods_S. cbn [m_stop].
  unfold stop_body. unfold bind at 1. cbn [modify].
  unfold bind at 1. cbn [gets self set_external_stop_call _current_sound_obj].
  rewrite Hc. unfold bind at 1. unfold Sound_stop.
  unfold bind at 1. cbn [record_call]. unfold bind at 1. cbn [update_sound].
  unfold bind at 1. cbn [get_sound]. rewrite methods_S. cbn [m__cancel_estimation].
  rewrite dispatch_cancel_flagged; [| reflexivity | exact Hr].
  split; [reflexivity|]. cbn. rewrite Nat.eqb_refl. cbn.
  unfold estimation_cancelled. cbn.
  destruct (_estimate_position (self w) && _); repeat split.
Qed.

(** Reading a field through the clock updates of the handlers. *)
Ltac through_clock :=
  unfold estimation_started, estimation_cancelled;
  repeat match goal with
         | |- context [if ?b then _ else _] => destruct b
         end;
  cbn; try reflexivity; try assumption.

Lemma jump_in_range (d : nat) (i : Z) (x : Handle) (w : World) :
  0 <= i < Z.of_nat (List.length (_queue (self w))) ->
  nth_error (_queue (self w)) (Z.to_nat i) = Some x ->
  _jump_to_index (S d) i w
  = (Ok tt, mkWorld (set_current_sound_obj (Some x)
                       (set_queue_progress_index i (self w)))
              (_aliases w) (sounds w) (next_handle w) (calls w)).
Proof.
  intros Hi Hx. destruct (getitem_in_range _ _ Hi) as (y & Hy & Hn).
  assert (y = x) by congruence. subst y.
  rewrite jump_S. unfold _jump_to_index_body, try_except_IndexError.
  unfold bind at 1. cbn [modify]. unfold _set_current_sound_obj.
  unfold bind at 1. cbn [gets self set_queue_progress_index _queue].
  unfold bind at 1. cbn [gets]. unfold bind at 1.
  unfold lift at 1. cbn [self set_queue_progress_index _queue_progress_index].
  rewrite Hy. reflexivity.
Qed.

Lemma jump_out_of_range (d : nat) (i : Z) (w : World) :
  i < - Z.of_nat (List.length (_queue (self w)))
  \/ Z.of_nat (List.length (_queue (self w))) <= i ->
  _jump_to_index (S d) i w
  = when (_loop (self w)) (play d)
      (mkWorld (set_current_sound_obj None (set_queue_progress_index (-1) (self w)))
         (_aliases w) (sounds w) (next_handle w) (calls w)).
Proof.
  intros Hi. rewrite jump_S. unfold _jump_to_index_body, try_except_IndexError.
  unfold bind at 1. cbn [modify]. unfold _set_current_sound_obj.
  unfold bind at 1. cbn [gets self set_queue_progress_index _queue].
  unfold bind at 1. cbn [gets]. unfold bind at 1.
  unfold lift at 1. cbn [self set_queue_progress_index _queue_progress_index].
  rewrite (getitem_out_of_range _ _ Hi).
  unfold bind at 1. cbn [modify]. unfold bind at 1. cbn [modify].
  unfold bind at 1. cbn [gets self set_current_sound_obj set_queue_progress_index _loop].
  reflexivity.
Qed.

Lemma play_current (d : nat) (h : Handle) (w : World) :
  _current_sound_obj (self w) = Some h ->
  exists w',
    play (S d) w = (Ok tt, w')
    /\ self w' = set_state "play"
                   (estimation_started (on_play_bound (sounds w h)) (self w))
    /\ calls w' = (calls w ++ [call_play h])%list
    /\ _aliases w' = _aliases w.
Proof.
  intros Hc. destruct (Sound_play_run h w) as (w1 & E & S1 & C1 & A1).
  eexists. rewrite play_S. unfold play_body.
  unfold bind at 1. cbn [gets]. rewrite Hc.
  unfold bind at 1. cbn [ret]. unfold bind at 1. unfold bind at 1. cbn [gets].
  rewrite Hc, E. cbn [modify]. split; [reflexivity|].
  cbn. rewrite S1, C1, A1. repeat split.
Qed.

Lemma play_from_start (d : nat) (x : Handle) (rest : list Handle) (w : World) :
  _current_sound_obj (self w) = None ->
  _queue (self w) = x :: rest ->
  exists w',
    play (S (S d)) w = (Ok tt, w')
    /\ self w' = set_state "play"
                   (estimation_started (on_play_bound (sounds w x))
                      (set_current_sound_obj (Some x)
                         (set_queue_progress_index 0 (self w))))
    /\ calls w' = (calls w ++ [call_play x])%list
    /\ _aliases w' = _aliases w.
Proof.
  intros Hc Hq.
  assert (J : _jump_to_index (S d) 0 w
              = (Ok tt, mkWorld (set_current_sound_obj (Some x)
                                   (set_queue_progress_index 0 (self w)))
                          (_aliases w) (sounds w) (next_handle w) (calls w))).
  { apply jump_in_range; rewrite Hq; cbn; [lia | reflexivity]. }
  match type of J with _ = (_, ?w1) =>
    destruct (Sound_play_run x w1) as (w2 & E & S2 & C2 & A2) end.
  eexists. rewrite play_S. unfold play_body.
  unfold bind at 1. cbn [gets]. rewrite Hc.
  unfold bind at 1. fold (_jump_to_index (S d) 0). rewrite J.
  unfold bind at 1. unfold bind at 1. cbn [gets self set_current_sound_obj _current_sound_obj].
  rewrite E. cbn [modify]. split; [reflexivity|].
  cbn. rewrite S2, C2, A2. repeat split.
Qed.

Lemma play_nothing (d : nat) (w : World) :
  _current_sound_obj (self w) = None ->
  _queue (self w) = [] ->
  _loop (self w) = false ->
  play (S (S d)) w
  = (Raise (AttributeError_NoneType "play"),
     mkWorld (set_current_sound_obj None (set_queue_progress_index (-1) (self w)))
       (_aliases w) (sounds w) (next_handle w) (calls w)).
Proof.
  intros Hc Hq Hl. rewrite play_S. unfold play_body.
  unfold bind at 1. cbn [gets]. rewrite Hc.
  unfold bind at 1. fold (_jump_to_index (S d) 0).
  rewrite jump_out_of_range by (rewrite Hq; cbn; lia).
  rewrite Hl. cbn [when ret]. reflexivity.
Qed.

Lemma seek_current (h : Handle) (position : PyVal) (w : World) :
  _current_sound_obj (self w) = Some h ->
  seek position w
  = (Ok tt, mkWorld (self w) (_aliases w) (sounds w) (next_handle w)
              (calls w ++ [call_seek h position])%list).
Proof. intros Hc. unfold seek, bind, gets. rewrite Hc. reflexivity. Qed.

Lemma seek_nothing (position : PyVal) (w : World) :
  _current_sound_obj (self w) = None ->
  seek position w = (Raise (AttributeError_NoneType "seek"), w).
Proof. intros Hc. unfold seek, bind, gets. rewrite Hc. reflexivity. Qed.

Lemma skip_to_next_S (d : nat) (p s r : bool) :
  skip_to_next (S d) p s r = skip_to_next_body (methods d) p s r.
Proof. reflexivity. Qed.

Lemma skip_to_next_after_stop (rec : Methods) (p r : bool) (w w1 : World) :
  m_stop rec w = (Ok tt, w1) ->
  skip_to_next_body rec p true r w = skip_to_next_body rec p false r w1.
Proof.
  intros E. unfold skip_to_next_body. cbn [when].
  rewrite (bind_ok _ _ _ _ _ E). reflexivity.
Qed.

(** [skip_to_next] past the last track, without the stop it may begin
    with.  The jump fails and resets the player to index -1 without a
    track; with the loop flag it calls [play], which starts the head of
    the queue.  What follows depends on the arguments: [seek(0)] raises
    on a missing track, and a final [play()] on a missing track starts
    the head of the queue. *)
Lemma skip_to_next_past_the_end
      (d : nat) (w : World) (p r : bool) (x : Handle) (rest : list Handle) :
  _queue (self w) = x :: rest ->
  _queue_progress_index (self w) = Z.of_nat (List.length (x :: rest)) - 1 ->
  (_loop (self w) = false ->
   exists w',
     skip_to_next (S (S (S (S d)))) p false r w
     = (if r then Raise (AttributeError_NoneType "seek") else Ok tt, w')
     /\ if r || negb p
        then _queue_progress_index (self w') = -1
             /\ _current_sound_obj (self w') = None
             /\ calls w' = calls w
        else _queue_progress_index (self w') = 0
             /\ _current_sound_obj (self w') = Some x
             /\ _state (self w') = "play"
             /\ calls w' = (calls w ++ [call_play x])%list)
  /\ (_loop (self w) = true ->
      exists w',
        skip_to_next (S (S (S (S d)))) p false r w = (Ok tt, w')
        /\ _queue_progress_index (self w') = 0
        /\ _current_sound_obj (self w') = Some x
        /\ _state (self w') = "play"
        /\ calls w' = (calls w ++ [call_play x]
                                ++ (if r then [call_seek x (VInt 0)] else [])
                                ++ (if p then [call_play x] else []))%list).
Proof.
  intros Hq Hi.
  assert (J : _jump_to_index (S (S (S d))) (_queue_progress_index (self w) + 1) w
              = when (_loop (self w)) (play (S (S d)))
                  (mkWorld (set_current_sound_obj None
                              (set_queue_progress_index (-1) (self w)))
                     (_aliases w) (sounds w) (next_handle w) (calls w))).
  { apply jump_out_of_range. rewrite Hq, Hi. right. lia. }
  rewrite skip_to_next_S. unfold skip_to_next_body. cbn [when].
  rewrite (bind_ok _ _ _ _ _ (eq_refl : ret tt w = (Ok tt, w))).
  split; intros Hl; rewrite Hl in J; cbn [when] in J;
    unfold bind at 1; cbn [gets]; fold (_jump_to_index (S (S (S d)))).
  - (* no loop: the jump resets the player *)
    unfold ret in J. rewrite (bind_ok _ _ _ _ _ J).
    destruct r; cbn [when orb].
    + eexists. erewrite bind_raise by (apply seek_nothing; reflexivity).
      split; [reflexivity|]. cbn. repeat split.
    + rewrite (bind_ok _ _ _ _ _ (eq_refl : ret tt _ = (Ok tt, _))).
      destruct p; cbn [when negb].
      * fold (play (S (S (S d)))).
        match goal with |- exists _, play _ ?w2 = _ /\ _ =>
          destruct (play_from_start (S d) x rest w2 eq_refl Hq)
            as (w3 & E3 & S3 & C3 & _) end.
        exists w3. split; [exact E3|]. rewrite S3, C3. cbn.
        repeat split; through_clock.
      * eexists. split; [reflexivity|]. cbn. repeat split.
  - (* loop: the jump plays the queue from its head *)
    match type of J with _ = play _ ?w2 =>
      destruct (play_from_start d x rest w2 eq_refl Hq)
        as (w3 & E3 & S3 & C3 & _) end.
    rewrite E3 in J. rewrite (bind_ok _ _ _ _ _ J).
    assert (Cur3 : _current_sound_obj (self w3) = Some x)
      by (rewrite S3; through_clock).
    assert (I3 : _queue_progress_index (self w3) = 0)
      by (rewrite S3; through_clock).
    assert (St3 : _state (self w3) = "play") by (rewrite S3; through_clock).
    cbn in C3.
    destruct r; cbn [when].
    + rewrite (bind_ok _ _ _ _ _ (seek_current x _ _ Cur3)).
      destruct p; cbn [when].
      * fold (play (S (S (S d)))).
        match goal with |- exists _, play _ ?w4 = _ /\ _ =>
          destruct (play_current (S (S d)) x w4 Cur3) as (w5 & E5 & S5 & C5 & _) end.
        exists w5. split; [exact E5|].
        cbn in S5, C5. rewrite S5, C5, C3, <- !app_assoc. cbn.
        repeat split; through_clock.
      * eexists. split; [reflexivity|]. cbn. rewrite C3, <- !app_assoc. cbn.
        repeat split; assumption.
    + rewrite (bind_ok _ _ _ _ _ (eq_refl : ret tt w3 = (Ok tt, w3))).
      destruct p; cbn [when].
      * fold (play (S (S (S d)))).
        destruct (play_current (S (S d)) x w3 Cur3) as (w5 & E5 & S5 & C5 & _).
        exists w5. split; [exact E5|].
        rewrite S5, C5, C3, <- !app_assoc. cbn.
        repeat split; through_clock.
      * exists w3. split; [reflexivity|]. rewrite C3. cbn.
        repeat split; assumption.
Qed.

(** C3: [skip_to_next] when the progress index is the last index of a
    non-empty queue.  The stop it may begin with has to be able to run:
    with [stop_current_playback] the player has a current track, and its
    stop handlers find estimation off or the clock of an earlier play.
    Without the loop flag the failed jump leaves the progress index at
    -1 and no current track, and the call ends there, in the
    AttributeError of [seek(0)] on the missing track when
    [restart_audio_position] is set, normally when neither it nor
    [play_immediately] is; with [play_immediately] and without
    [restart_audio_position] the final [play()] starts the head of the
    queue and the index ends at 0.  With the loop flag the failed jump
    calls [play], which starts the first track, whatever the arguments:
    the index is 0 and the head of the queue is current and has been
    played. *)
Theorem skip_to_next_at_last_index
        (d : nat) (w : World) (p s r : bool) (h x : Handle) (rest : list Handle) :
  _queue (self w) = x :: rest ->
  _queue_progress_index (self w) = Z.of_nat (List.length (x :: rest)) - 1 ->
  (s = true ->
   _current_sound_obj (self w) = Some h /\ clock_ready (self w) = true) ->
  (_loop (self w) = false ->
   exists w',
     skip_to_next (S (S (S (S d)))) p s r w
     = (if r then Raise (AttributeError_NoneType "seek") else Ok tt, w')
     /\ if r || negb p
        then _queue_progress_index (self w') = -1
             /\ _current_sound_obj (self w') = None
             /\ calls w' = (calls w ++ (if s then [call_stop h] else []))%list
        else _queue_progress_index (self w') = 0
             /\ _current_sound_obj (self w') = Some x
             /\ _state (self w') = "play"
             /\ calls w' = (calls w ++ (if s then [call_stop h] else [])
                                     ++ [call_play x])%list)
  /\ (_loop (self w) = true ->
      exists w',
        skip_to_next (S (S (S (S d)))) p s r w = (Ok tt, w')
        /\ _queue_progress_index (self w') = 0
        /\ _current_sound_obj (self w') = Some x
        /\ _state (self w') = "play"
        /\ calls w' = (calls w ++ (if s then [call_stop h] else [])
                                ++ [call_play x]
                                ++ (if r then [call_seek x (VInt 0)] else [])
                                ++ (if p then [call_play x] else []))%list).
Proof.
  intros Hq Hi Hs. destruct s.
  - (* the current track is stopped first *)
    destruct (Hs eq_refl) as [Hc Hr].
    destruct (stop_run (S d) h w Hc Hr) as (w1 & E1 & S1 & C1 & _).
    assert (Q1 : _queue (self w1) = x :: rest) by (rewrite S1; through_clock).
    assert (I1 : _queue_progress_index (self w1)
                 = Z.of_nat (List.length (x :: rest)) - 1)
      by (rewrite S1; through_clock).
    assert (L1 : _loop (self w1) = _loop (self w)) by (rewrite S1; through_clock).
    assert (E : skip_to_next (S (S (S (S d)))) p true r w
                = skip_to_next (S (S (S (S d)))) p false r w1)
      by (rewrite !skip_to_next_S; exact (skip_to_next_after_stop _ _ _ _ _ E1)).
    rewrite E.
    destruct (skip_to_next_past_the_end d w1 p r x rest Q1 I1) as [Hno Hlo].
    rewrite L1 in Hno, Hlo.
    split; intros Hl.
    + destruct (Hno Hl) as (w' & E' & H'). exists w'. split; [exact E'|].
      destruct (r || negb p).
      * destruct H' as (A & B & C). rewrite C, C1. repeat split; assumption.
      * destruct H' as (A & B & St & C). rewrite C, C1, <- app_assoc.
        repeat split; assumption.
    + destruct (Hlo Hl) as (w' & E' & A & B & St & C). exists w'.
      split; [exact E'|]. rewrite C, C1, <- app_assoc.
      repeat split; assumption.
  - (* no stop: the call starts at the jump *)
    destruct (skip_to_next_past_the_end d w p r x rest Hq Hi) as [Hno Hlo].
    split; intros Hl.
    + destruct (Hno Hl) as (w' & E' & H'). exists w'. split; [exact E'|].
      destruct (r || negb p).
      * destruct H' as (A & B & C). rewrite C, app_nil_r. repeat split; assumption.
      * exact H'.
    + destruct (Hlo Hl) as (w' & E' & H'). exists w'. split; [exact E'|]. exact H'.
Qed.

Lemma skip_to_next_at_last_index_witness :
  _queue (self last_track_world) = [0; 1]%nat
  /\ _queue_progress_index (self last_track_world) = 1
  /\ _current_sound_obj (self last_track_world) = Some 1%nat
  /\ clock_ready (self last_track_world) = true
  /\ _loop (self last_track_world) = false
  /\ exists w',
       skip_to_next 4 true true true last_track_world
       = (Raise (AttributeError_NoneType "seek"), w')
       /\ _queue_progress_index (self w') = -1
       /\ _current_sound_obj (self w') = None.
Proof.
  assert (Hq : _queue (self last_track_world) = [0; 1]%nat)
    by (vm_compute; reflexivity).
  assert (Hi : _queue_progress_index (self last_track_world) = 1)
    by (vm_compute; reflexivity).
  assert (Hc : _current_sound_obj (self last_track_world) = Some 1%nat)
    by (vm_compute; reflexivity).
  assert (Hr : clock_ready (self last_track_world) = true)
    by (vm_compute; reflexivity).
  assert (Hl : _loop (self last_track_world) = false)
    by (vm_compute; reflexivity).
  destruct (skip_to_next_at_last_index 0 last_track_world true true true
              1%nat 0%nat [1%nat] Hq Hi (fun _ => conj Hc Hr)) as [Hno _].
  destruct (Hno Hl) as (w' & E & I & C & _).
  repeat (split; [assumption|]).
  exists w'. repeat split; assumption.
Defined.

(** C3, as first worded: [skip_to_next] on the last track with the loop
    flag off is to leave the progress index at -1 and no current track.
    On the last of two tracks, [skip_to_next(restart_audio_position=
    False)] returns with the index at 0 and the first track current.  On
    a single track that was cued and never played, [skip_to_next()]
    raises the AttributeError of [None.cancel] inside [stop()] and the
    index stays at 0 with the track still current. *)
Lemma skip_to_next_at_last_index_depends_on_arguments_and_clock :
  (_queue (self last_track_world) = [0; 1]%nat
   /\ _queue_progress_index (self last_track_world) = 1
   /\ _loop (self last_track_world) = false
   /\ outcome (skip_to_next 5 true true false) last_track_world = Ok tt
   /\ _queue_progress_index
        (self (after (skip_to_next 5 true true false) last_track_world)) = 0
   /\ _current_sound_obj
        (self (after (skip_to_next 5 true true false) last_track_world))
      = Some 0%nat)
  /\ (_queue (self cued_world) = [0%nat]
      /\ _queue_progress_index (self cued_world) = 0
      /\ _current_sound_obj (self cued_world) = Some 0%nat
      /\ _loop (self cued_world) = false
      /\ outcome (skip_to_next 5 true true true) cued_world
         = Raise (AttributeError_NoneType "cancel")
      /\ _queue_progress_index
           (self (after (skip_to_next 5 true true true) cued_world)) = 0
      /\ _current_sound_obj
           (self (after (skip_to_next 5 true true true) cued_world))
         = Some 0%nat).
Proof. vm_compute. repeat split; reflexivity. Qed.

(** ** Relations that every step of a method respects *)

Section Respects.

Variable R : World -> World -> Prop.
Hypothesis R_refl : forall w, R w w.
Hypothesis R_trans : forall w1 w2 w3, R w1 w2 -> R w2 w3 -> R w1 w3.

Lemma respects_ret {A} (a : A) : respects R (ret a).
Proof. intros w. apply R_refl. Qed.

Lemma respects_raise {A} (e : PyExn) : respects R (@raise A e).
Proof. intros w. apply R_refl. Qed.

Lemma respects_lift {A} (r : PyResult A) : respects R (lift r).
Proof. intros w. apply R_refl. Qed.

Lemma respects_gets {A} (f : AudioPlayer -> A) : respects R (gets f).
Proof. intros w. apply R_refl. Qed.

Lemma respects_get_sound (h : Handle) : respects R (get_sound h).
Proof. intros w. apply R_refl. Qed.

Lemma respects_bind {A B} (c : M A) (k : A -> M B) :
  respects R c -> (forall a, respects R (k a)) -> respects R (bind c k).
Proof.
  intros Hc Hk w. unfold bind. specialize (Hc w).
  destruct (c w) as [[a|e] w1]; cbn in *.
  - apply R_trans with w1; [exact Hc | apply Hk].
  - exact Hc.
Qed.

Lemma respects_when (b : bool) (c : M unit) :
  respects R c -> respects R (when b c).
Proof. intros Hc. destruct b; [exact Hc | apply respects_ret]. Qed.

Lemma respects_try (body handler : M unit) :
  respects R body -> respects R handler ->
  respects R (try_except_IndexError body handler).
Proof.
  intros Hb Hh w. unfold try_except_IndexError. specialize (Hb w).
  destruct (body w) as [[a|e] w1]; cbn in *; try exact Hb.
  destruct e; try exact Hb.
  apply R_trans with w1; [exact Hb | apply Hh].
Qed.

Lemma respects_dispatch (n : nat) (handler : M unit) :
  respects R handler -> respects R (dispatch n handler).
Proof.
  intros Hh. induction n as [|n IH]; cbn.
  - apply respects_ret.
  - apply respects_bind; [exact Hh | intros _; exact IH].
Qed.

End Respects.


Lemma quiet_refl (w : World) : quiet w w.
Proof.
  split; [reflexivity|]. exists []. rewrite app_nil_r. split; reflexivity.
Qed.

Lemma quiet_trans (w1 w2 w3 : World) : quiet w1 w2 -> quiet w2 w3 -> quiet w1 w3.
Proof.
  intros [P1 (c1 & C1 & F1)] [P2 (c2 & C2 & F2)]. split; [congruence|].
  exists (c1 ++ c2)%list. split.
  - rewrite C2, C1, app_assoc. reflexivity.
  - rewrite forallb_app, F1, F2. reflexivity.
Qed.

Lemma quiet_modify (f : AudioPlayer -> AudioPlayer) :
  (forall p, _pos_estimate (f p) = _pos_estimate p) ->
  respects quiet (modify f).
Proof.
  intros Hf w. split; [apply Hf|]. exists []. cbn. rewrite app_nil_r.
  split; reflexivity.
Qed.

Lemma quiet_update_sound (h : Handle) (f : Sound -> Sound) :
  respects quiet (update_sound h f).
Proof.
  intros w. split; [reflexivity|]. exists []. cbn. rewrite app_nil_r.
  split; reflexivity.
Qed.

Lemma quiet_record_call (c : SoundCall) :
  is_stop c = false -> respects quiet (record_call c).
Proof.
  intros Hc w. split; [reflexivity|]. exists [c]. cbn. rewrite Hc.
  split; reflexivity.
Qed.

(** Chains the rules above through a method body. *)
Ltac quiet_steps :=
  repeat first
    [ apply (respects_bind quiet quiet_trans); [| intros ?]
    | apply (respects_when quiet quiet_refl)
    | apply (respects_try quiet quiet_trans)
    | apply (respects_dispatch quiet quiet_refl quiet_trans)
    | apply (respects_ret quiet quiet_refl)
    | apply (respects_raise quiet quiet_refl)
    | apply (respects_lift quiet quiet_refl)
    | apply (respects_gets quiet quiet_refl)
    | apply (respects_get_sound quiet quiet_refl)
    | apply quiet_update_sound
    | apply quiet_record_call; reflexivity
    | apply quiet_modify; intros ?; reflexivity
    | match goal with |- respects quiet (match ?x with _ => _ end) => destruct x end
    | assumption
    | match goal with H : forall _, respects quiet _ |- _ => apply H end ].

Lemma quiet_Sound_play (h : Handle) : respects quiet (Sound_play h).
Proof. unfold Sound_play, _initialize_estimation, _start_clock. quiet_steps. Qed.

Lemma quiet_seek (position : PyVal) : respects quiet (seek position).
Proof. unfold seek, Sound_seek. quiet_steps. Qed.

(** [play] and [_jump_to_index] never stop a handle and never write the
    position estimate, at any depth. *)
Lemma quiet_play_jump (d : nat) :
  respects quiet (play d) /\ forall i, respects quiet (_jump_to_index d i).
Proof.
  induction d as [|d [IHp IHj]].
  - split; [|intros i]; apply (respects_raise quiet quiet_refl).
  - split.
    + rewrite play_S. unfold play_body.
      fold (_jump_to_index d 0). pose proof (IHj 0) as J0.
      pose proof quiet_Sound_play as SP. quiet_steps.
    + intros i. rewrite jump_S. unfold _jump_to_index_body, _set_current_sound_obj.
      fold (play d). quiet_steps.
Qed.

Lemma quiet_skip_to_next_without_stop (d : nat) (p r : bool) :
  respects quiet (skip_to_next d p false r).
Proof.
  destruct d as [|d].
  - apply (respects_raise quiet quiet_refl).
  - rewrite skip_to_next_S. unfold skip_to_next_body. cbn [when].
    destruct (quiet_play_jump d) as [Hp Hj].
    fold (play d).
    assert (J : forall i, respects quiet (m__jump_to_index (methods d) i)) by exact Hj.
    pose proof (quiet_seek (VInt 0)) as Hs.
    quiet_steps.
Qed.

(** [play] runs out of call stack only on the empty looping player:
    with a current track, a queued track, or the loop flag off, two
    levels of calls are enough for it to return or raise on its own. *)
Lemma play_returns_otherwise (d : nat) (w : World) :
  _current_sound_obj (self w) <> None
  \/ _queue (self w) <> []
  \/ _loop (self w) = false ->
  outcome (play (S (S d))) w <> Raise RecursionError.
Proof.
  intros H. unfold outcome.
  destruct (_current_sound_obj (self w)) as [h|] eqn:Hc.
  - destruct (play_current (S d) h w Hc) as (w' & E & _). rewrite E. discriminate.
  - destruct (_queue (self w)) as [|x rest] eqn:Hq.
    + destruct H as [H|[H|H]]; try congruence.
      rewrite (play_nothing d w Hc Hq H). discriminate.
    + destruct (play_from_start d x rest w Hc Hq) as (w' & E & _).
      rewrite E. discriminate.
Qed.

Lemma play_exhausts_the_stack_iff (w : World) :
  (forall d, outcome (play d) w = Raise RecursionError)
  <-> _current_sound_obj (self w) = None
      /\ _queue (self w) = [] /\ _loop (self w) = true.
Proof.
  split.
  - intros H. specialize (H 2%nat).
    destruct (_current_sound_obj (self w)) as [h|] eqn:Hc.
    + exfalso. apply (play_returns_otherwise 0 w); [left; congruence | exact H].
    + destruct (_queue (self w)) as [|x rest] eqn:Hq.
      * destruct (_loop (self w)) eqn:Hl; [repeat split|].
        exfalso. apply (play_returns_otherwise 0 w); [right; right; exact Hl | exact H].
      * exfalso. apply (play_returns_otherwise 0 w); [right; left; congruence | exact H].
  - intros (Hc & Hq & Hl) d.
    apply (play_jump_never_return d w Hq Hl). exact Hc.
Qed.

(** ** The on_stop handler *)

Lemma cancel_estimation_S (d : nat) :
  _cancel_estimation (S d) = _cancel_estimation_body (methods d).
Proof. reflexivity. Qed.

Lemma cancel_clock_when_ready (w : World) :
  clock_ready (self w) = true ->
  when (_estimate_position (self w)) _cancel_clock w
  = (Ok tt, mkWorld (estimation_cancelled 1 (self w)) (_aliases w) (sounds w)
              (next_handle w) (calls w)).
Proof.
  intros Hc. unfold clock_ready, estimation_cancelled in *.
  cbn [Nat.eqb negb]. rewrite andb_true_r.
  destruct (_estimate_position (self w)); cbn [when negb orb] in *.
  - unfold _cancel_clock, bind, gets.
    destruct (_clock_event (self w)); [reflexivity | discriminate Hc].
  - rewrite world_eta. reflexivity.
Qed.

(** With the flag set the handler writes nothing but the clock, even
    when it raises for want of a clock. *)
Lemma cancel_estimation_flag_set (d : nat) (w : World) :
  _external_stop_call (self w) = true ->
  exists r w',
    _cancel_estimation (S d) w = (r, w')
    /\ set_clock_event (_clock_event (self w)) (self w') = self w
    /\ calls w' = calls w.
Proof.
  intros Hf. rewrite cancel_estimation_S. unfold _cancel_estimation_body.
  unfold bind at 1. cbn [gets].
  destruct (_estimate_position (self w)) eqn:E; cbn [when].
  - unfold _cancel_clock. unfold bind at 1. unfold bind at 1. cbn [gets].
    destruct (_clock_event (self w)) eqn:Ec.
    + cbn [modify]. unfold bind. cbn. rewrite Hf. do 2 eexists.
      split; [reflexivity|]. cbn. rewrite <- Ec. split; [|reflexivity].
      destruct (self w); reflexivity.
    + cbn. do 2 eexists. split; [reflexivity|]. split; [|reflexivity].
      rewrite <- Ec. destruct (self w); reflexivity.
  - unfold bind. cbn. rewrite Hf. do 2 eexists. split; [reflexivity|].
    split; [|reflexivity]. destruct (self w); reflexivity.
Qed.

(** With the flag unset the handler is [skip_to_next] without the stop,
    started from a position estimate of 0. *)
Lemma cancel_estimation_flag_unset (d : nat) (w : World) :
  _external_stop_call (self w) = false ->
  clock_ready (self w) = true ->
  _cancel_estimation (S d) w = skip_to_next d true false true (track_ended w).
Proof.
  intros Hf Hc. rewrite cancel_estimation_S. unfold _cancel_estimation_body.
  unfold bind at 1. cbn [gets].
  rewrite (bind_ok _ _ _ _ _ (cancel_clock_when_ready w Hc)).
  unfold bind at 1. cbn [gets self].
  assert (F : _external_stop_call (estimation_cancelled 1 (self w)) = false)
    by through_clock.
  rewrite F. cbn [negb]. unfold _update_pos_estimate.
  unfold bind at 1. cbn [modify]. reflexivity.
Qed.

(** [skip_to_next(stop_current_playback=False)] with a next track in
    the queue: it becomes the current one, is sought to 0 and played. *)
Lemma skip_to_next_advances (d : nat) (x : Handle) (w : World) :
  0 <= _queue_progress_index (self w) + 1
    < Z.of_nat (List.length (_queue (self w))) ->
  nth_error (_queue (self w)) (Z.to_nat (_queue_progress_index (self w) + 1))
  = Some x ->
  exists w',
    skip_to_next (S (S d)) true false true w = (Ok tt, w')
    /\ _queue_progress_index (self w') = _queue_progress_index (self w) + 1
    /\ _current_sound_obj (self w') = Some x
    /\ _state (self w') = "play"
    /\ _pos_estimate (self w') = _pos_estimate (self w)
    /\ calls w' = (calls w ++ [call_seek x (VInt 0); call_play x])%list.
Proof.
  intros Hi Hx.
  pose proof (jump_in_range d _ x w Hi Hx) as J.
  match type of J with _ = (_, ?w1) =>
    pose proof (seek_current x (VInt 0) w1 eq_refl) as K end.
  match type of K with _ = (_, ?w2) =>
    destruct (play_current d x w2 eq_refl) as (w3 & E3 & S3 & C3 & _) end.
  exists w3. rewrite skip_to_next_S. unfold skip_to_next_body. cbn [when].
  rewrite (bind_ok _ _ _ _ _ (eq_refl : ret tt w = (Ok tt, w))).
  rewrite (bind_ok _ _ _ _ _
             (eq_refl : gets _queue_progress_index w
                        = (Ok (_queue_progress_index (self w)), w))).
  fold (_jump_to_index (S d)). rewrite (bind_ok _ _ _ _ _ J).
  rewrite (bind_ok _ _ _ _ _ K). fold (play (S d)).
  split; [exact E3|]. rewrite S3, C3. cbn. rewrite <- app_assoc.
  repeat split; through_clock.
Qed.

(** C1: the on_stop handler [_cancel_estimation].  With the
    external-stop flag set (the stop comes from [stop()]) it leaves the
    progress index, the current track, the queue and the position
    estimate as they were and calls nothing on any handle.  With the flag
    unset (the track ended by itself) and the clock in place it sets the
    position estimate to 0 and runs
    [skip_to_next(stop_current_playback=False)]: the estimate is 0
    afterwards, no handle is stopped, and when a next track exists it
    becomes the current one, sought to 0 and played.  [stop()] itself
    sets the flag around the stop of the handle, so the handlers it
    triggers do not advance: index, current track and position estimate
    are as before, and the flag is unset again on return. *)
Theorem cancel_estimation_obeys_the_external_stop_flag (d : nat) (w : World) :
  (_external_stop_call (self w) = true ->
   _queue_progress_index (self (after (_cancel_estimation (S (S (S d)))) w))
   = _queue_progress_index (self w)
   /\ _pos_estimate (self (after (_cancel_estimation (S (S (S d)))) w))
      = _pos_estimate (self w)
   /\ _current_sound_obj (self (after (_cancel_estimation (S (S (S d)))) w))
      = _current_sound_obj (self w)
   /\ _queue (self (after (_cancel_estimation (S (S (S d)))) w)) = _queue (self w)
   /\ calls (after (_cancel_estimation (S (S (S d)))) w) = calls w)
  /\ (_external_stop_call (self w) = false ->
      clock_ready (self w) = true ->
      _cancel_estimation (S (S (S d))) w
      = skip_to_next (S (S d)) true false true (track_ended w)
      /\ _pos_estimate (self (after (_cancel_estimation (S (S (S d)))) w)) = VInt 0
      /\ (exists cs,
             calls (after (_cancel_estimation (S (S (S d)))) w) = (calls w ++ cs)%list
             /\ forallb (fun c => negb (is_stop c)) cs = true)
      /\ forall x,
           0 <= _queue_progress_index (self w) + 1
             < Z.of_nat (List.length (_queue (self w))) ->
           nth_error (_queue (self w)) (Z.to_nat (_queue_progress_index (self w) + 1))
           = Some x ->
           outcome (_cancel_estimation (S (S (S d)))) w = Ok tt
           /\ _queue_progress_index (self (after (_cancel_estimation (S (S (S d)))) w))
              = _queue_progress_index (self w) + 1
           /\ _current_sound_obj (self (after (_cancel_estimation (S (S (S d)))) w))
              = Some x
           /\ calls (after (_cancel_estimation (S (S (S d)))) w)
              = (calls w ++ [call_seek x (VInt 0); call_play x])%list)
  /\ (forall h,
        _current_sound_obj (self w) = Some h ->
        clock_ready (self w) = true ->
        outcome (stop (S (S (S d)))) w = Ok tt
        /\ _queue_progress_index (self (after (stop (S (S (S d)))) w))
           = _queue_progress_index (self w)
        /\ _current_sound_obj (self (after (stop (S (S (S d)))) w)) = Some h
        /\ _pos_estimate (self (after (stop (S (S (S d)))) w))
           = _pos_estimate (self w)
        /\ _external_stop_call (self (after (stop (S (S (S d)))) w)) = false
        /\ calls (after (stop (S (S (S d)))) w) = (calls w ++ [call_stop h])%list).
Proof.
  split; [|split].
  - intros Hf.
    destruct (cancel_estimation_flag_set (S (S d)) w Hf) as (r & w' & E & S1 & C1).
    rewrite (after_eq _ _ _ _ E). rewrite <- S1 at 1 2 3 4. cbn.
    repeat split. exact C1.
  - intros Hf Hc.
    pose proof (cancel_estimation_flag_unset (S (S d)) w Hf Hc) as E.
    split; [exact E|].
    pose proof (quiet_skip_to_next_without_stop (S (S d)) true true (track_ended w))
      as [Qp Qc].
    unfold after, outcome. rewrite E.
    split; [rewrite Qp; reflexivity|]. split; [exact Qc|].
    intros x Hi Hx.
    assert (Qt : _queue (self (track_ended w)) = _queue (self w))
      by (cbn; through_clock).
    assert (It : _queue_progress_index (self (track_ended w))
                 = _queue_progress_index (self w))
      by (cbn; through_clock).
    destruct (skip_to_next_advances d x (track_ended w)
                ltac:(rewrite Qt, It; exact Hi) ltac:(rewrite Qt, It; exact Hx))
      as (w3 & E3 & I3 & Cur3 & _ & _ & C3).
    rewrite E3. cbn [fst snd]. rewrite I3, It, C3. repeat split. exact Cur3.
  - intros h Hc Hr.
    destruct (stop_run (S d) h w Hc Hr) as (w' & E & S1 & C1 & _).
    unfold outcome, after. rewrite E. cbn [fst snd]. rewrite S1, C1.
    repeat split; through_clock.
Qed.

Lemma cancel_estimation_obeys_the_external_stop_flag_witness :
  (_external_stop_call (self two_tracks_stopping) = true
   /\ _queue_progress_index (self (after (_cancel_estimation 3) two_tracks_stopping))
      = 0
   /\ _pos_estimate (self (after (_cancel_estimation 3) two_tracks_stopping))
      = _pos_estimate (self two_tracks_stopping)
   /\ calls (after (_cancel_estimation 3) two_tracks_stopping)
      = calls two_tracks_stopping)
  /\ (_external_stop_call (self two_tracks_playing) = false
      /\ clock_ready (self two_tracks_playing) = true
      /\ outcome (_cancel_estimation 3) two_tracks_playing = Ok tt
      /\ _queue_progress_index (self (after (_cancel_estimation 3) two_tracks_playing))
         = 1
      /\ _current_sound_obj (self (after (_cancel_estimation 3) two_tracks_playing))
         = Some 1%nat
      /\ _pos_estimate (self (after (_cancel_estimation 3) two_tracks_playing))
         = VInt 0
      /\ calls (after (_cancel_estimation 3) two_tracks_playing)
         = [call_play 0%nat; call_seek 1%nat (VInt 0); call_play 1%nat]).
Proof.
  split.
  - destruct (cancel_estimation_obeys_the_external_stop_flag 0 two_tracks_stopping)
      as (Hset & _ & _).
    destruct (Hset eq_refl) as (I & P & _ & _ & C).
    split; [reflexivity|]. split; [exact I|]. split; [exact P | exact C].
  - destruct (cancel_estimation_obeys_the_external_stop_flag 0 two_tracks_playing)
      as (_ & Hunset & _).
    destruct (Hunset eq_refl eq_refl) as (_ & P & _ & Adv).
    destruct (Adv 1%nat ltac:(cbn; lia) eq_refl) as (O & I & Cur & C).
    split; [reflexivity|]. split; [reflexivity|]. split; [exact O|].
    split; [exact I|]. split; [exact Cur|]. split; [exact P | exact C].
Defined.

(** ** unload, then play *)

Lemma unload_keeps_current (w : World) :
  exists w',
    unload w = (Ok tt, w')
    /\ _current_sound_obj (self w') = _current_sound_obj (self w)
    /\ _queue_progress_index (self w') = _queue_progress_index (self w)
    /\ _queue (self w') = []
    /\ _state (self w') = "queue empty"
    /\ calls w' = (calls w ++ match _current_sound_obj (self w) with
                              | Some h => [call_unload h]
                              | None => []
                              end)%list
    /\ forall h, _current_sound_obj (self w) = Some h -> unloaded (sounds w' h) = true.
Proof.
  unfold unload, bind, gets.
  destruct (_current_sound_obj (self w)) as [h|] eqn:E; cbn; eexists;
    (split; [reflexivity|]); cbn; rewrite ?app_nil_r; repeat split; try assumption.
  - intros h' Hh. injection Hh as <-. rewrite Nat.eqb_refl. reflexivity.
  - intros h' Hh. discriminate Hh.
Qed.

(** Whenever a track was current at [unload], the next [play] returns
    normally after calling play on that released handle. *)
Lemma play_after_unload (d : nat) (h : Handle) (w : World) :
  _current_sound_obj (self w) = Some h ->
  exists w1 w2,
    unload w = (Ok tt, w1)
    /\ unloaded (sounds w1 h) = true
    /\ _queue (self w1) = []
    /\ play (S d) w1 = (Ok tt, w2)
    /\ calls w2 = (calls w ++ [call_unload h; call_play h])%list
    /\ _state (self w2) = "play".
Proof.
  intros Hc.
  destruct (unload_keeps_current w) as (w1 & E1 & Cur1 & _ & Q1 & _ & C1 & U1).
  rewrite Hc in Cur1, C1.
  destruct (play_current d h w1 Cur1) as (w2 & E2 & S2 & C2 & _).
  exists w1, w2. split; [exact E1|]. split; [exact (U1 h Hc)|]. split; [exact Q1|].
  split; [exact E2|]. rewrite C2, C1, <- app_assoc, S2. split; reflexivity.
Qed.

(** C4: [play()] on the empty queue left by [unload()] is meant to raise
    rather than go through.  After [load("a.wav"); play(); unload()] the
    queue is empty and the released handle is still the current track:
    [play()] returns normally, has called play on that handle, and sets
    the state to "play". *)
Theorem play_after_unload_plays_the_released_handle :
  _queue (self (after unload playing_world)) = []
  /\ _current_sound_obj (self (after unload playing_world)) = Some 0%nat
  /\ unloaded (sounds (after unload playing_world) 0%nat) = true
  /\ outcome (play 2) (after unload playing_world) = Ok tt
  /\ calls (after (play 2) (after unload playing_world))
     = [call_play 0%nat; call_unload 0%nat; call_play 0%nat]
  /\ _state (self (after (play 2) (after unload playing_world))) = "play".
Proof. repeat split; reflexivity. Qed.

(** ** The progress index *)

Lemma valid_progress_index_iff (p : AudioPlayer) :
  valid_progress_index p = true
  <-> _queue_progress_index p = -1
      \/ 0 <= _queue_progress_index p < Z.of_nat (List.length (_queue p)).
Proof.
  unfold valid_progress_index.
  rewrite orb_true_iff, andb_true_iff, Z.eqb_eq, Z.leb_le, Z.ltb_lt. tauto.
Qed.

Lemma keeps_refl (w : World) : keeps_index w w.
Proof. intros H; exact H. Qed.

Lemma keeps_trans (w1 w2 w3 : World) :
  keeps_index w1 w2 -> keeps_index w2 w3 -> keeps_index w1 w3.
Proof. unfold keeps_index. auto. Qed.

Lemma keeps_modify (f : AudioPlayer -> AudioPlayer) :
  (forall p, _queue_progress_index (f p) = _queue_progress_index p) ->
  (forall p, _queue (f p) = _queue p) ->
  respects keeps_index (modify f).
Proof.
  intros Hi Hq w. unfold keeps_index, valid_progress_index. cbn.
  rewrite Hi, Hq. auto.
Qed.

Lemma keeps_update_sound (h : Handle) (f : Sound -> Sound) :
  respects keeps_index (update_sound h f).
Proof. intros w H; exact H. Qed.

Lemma keeps_record_call (c : SoundCall) : respects keeps_index (record_call c).
Proof. intros w H; exact H. Qed.

Ltac keeps_steps :=
  repeat first
    [ apply (respects_bind keeps_index keeps_trans); [| intros ?]
    | apply (respects_when keeps_index keeps_refl)
    | apply (respects_dispatch keeps_index keeps_refl keeps_trans)
    | apply (respects_ret keeps_index keeps_refl)
    | apply (respects_raise keeps_index keeps_refl)
    | apply (respects_lift keeps_index keeps_refl)
    | apply (respects_gets keeps_index keeps_refl)
    | apply (respects_get_sound keeps_index keeps_refl)
    | apply keeps_update_sound
    | apply keeps_record_call
    | apply keeps_modify; intros ?; reflexivity
    | match goal with
      | |- respects keeps_index (match ?x with _ => _ end) => destruct x
      | |- respects keeps_index (if ?x then _ else _) => destruct x
      end
    | assumption
    | match goal with H : forall _, respects keeps_index _ |- _ => apply H end ].

Lemma getitem_raises_IndexError {A} (l : list A) (i : Z) (e : PyExn) :
  py_getitem l i = Raise e -> e = IndexError "list index out of range".
Proof.
  unfold py_getitem. intros H.
  destruct (_ && _) in H; [destruct (nth_error _ _) in H|]; congruence.
Qed.

Lemma getitem_ok_in_range {A} (l : list A) (i : Z) (x : A) :
  0 <= i -> py_getitem l i = Ok x -> 0 <= i < Z.of_nat (List.length l).
Proof.
  intros H0 H.
  destruct (Z.lt_ge_cases i (Z.of_nat (List.length l))) as [|Hge]; [lia|].
  rewrite getitem_out_of_range in H by (right; exact Hge). discriminate H.
Qed.

(** A jump to a non-negative index leaves the index in order: on the
    track it found, or at -1 before whatever [play] does next. *)
Lemma keeps_jump_body (rec : Methods) (i : Z) :
  0 <= i ->
  respects keeps_index (m_play rec) ->
  respects keeps_index (_jump_to_index_body rec i).
Proof.
  intros H0 Hplay w _.
  unfold _jump_to_index_body, try_except_IndexError.
  unfold bind at 1. cbn [modify]. unfold _set_current_sound_obj.
  unfold bind at 1. cbn [gets self set_queue_progress_index _queue].
  unfold bind at 1. cbn [gets]. unfold bind at 1.
  unfold lift at 1. cbn [self set_queue_progress_index _queue_progress_index].
  destruct (py_getitem (_queue (self w)) i) as [x|e] eqn:G.
  - cbn. apply valid_progress_index_iff. cbn. right.
    exact (getitem_ok_in_range _ _ _ H0 G).
  - rewrite (getitem_raises_IndexError _ _ _ G).
    unfold bind at 1. cbn [modify]. unfold bind at 1. cbn [modify].
    unfold bind at 1.
    cbn [gets self set_current_sound_obj set_queue_progress_index _loop].
    destruct (_loop (self w)); cbn [when].
    + apply Hplay. reflexivity.
    + reflexivity.
Qed.

Lemma valid_index_from_minus_one (p : AudioPlayer) :
  valid_progress_index p = true -> 0 <= _queue_progress_index p + 1.
Proof. rewrite valid_progress_index_iff. lia. Qed.

Lemma keeps_skip_to_next_body (rec : Methods) (p s r : bool) :
  respects keeps_index (m_stop rec) ->
  (forall i, 0 <= i -> respects keeps_index (m__jump_to_index rec i)) ->
  respects keeps_index (m_play rec) ->
  respects keeps_index (skip_to_next_body rec p s r).
Proof.
  intros Hstop Hjump Hplay. unfold skip_to_next_body.
  apply (respects_bind keeps_index keeps_trans); [keeps_steps | intros _].
  intros w Hv.
  pose proof (Hjump _ (valid_index_from_minus_one _ Hv)) as J.
  assert (Hrest : respects keeps_index
    (m__jump_to_index rec (_queue_progress_index (self w) + 1) ;;
     when r (seek (VInt 0)) ;; when p (m_play rec)))
    by (unfold seek, Sound_seek; keeps_steps).
  exact (Hrest w Hv).
Qed.

Lemma normalize_index_nonneg {A} (l : list A) (i j : Z) :
  normalize_index l i = Ok j -> 0 <= j.
Proof.
  unfold normalize_index. intros H.
  destruct (i <? 0) eqn:E.
  - destruct (Z.of_nat (List.length l) <? Z.abs i) eqn:E2; [discriminate H|].
    injection H as <-. apply Z.ltb_lt in E. apply Z.ltb_ge in E2. lia.
  - destruct (Z.of_nat (List.length l) - 1 <? i); [discriminate H|].
    injection H as <-. apply Z.ltb_ge in E. exact E.
Qed.

Lemma keeps_skip_to_previous_body (rec : Methods) (p s r : bool) :
  respects keeps_index (m_stop rec) ->
  (forall i, 0 <= i -> respects keeps_index (m__jump_to_index rec i)) ->
  respects keeps_index (m_play rec) ->
  respects keeps_index (skip_to_previous_body rec p s r).
Proof.
  intros Hstop Hjump Hplay. unfold skip_to_previous_body.
  apply (respects_bind keeps_index keeps_trans); [keeps_steps | intros _].
  intros w Hv. unfold bind at 1. cbn [gets]. unfold bind at 1. cbn [gets].
  unfold bind at 1. unfold lift at 1.
  destruct (normalize_index (_queue (self w)) (_queue_progress_index (self w) - 1))
    as [j|e] eqn:N; [|exact Hv].
  pose proof (Hjump _ (normalize_index_nonneg _ _ _ N)) as J.
  assert (Hrest : respects keeps_index
    (m__jump_to_index rec j ;; when r (seek (VInt 0)) ;; when p (m_play rec)))
    by (unfold seek, Sound_seek; keeps_steps).
  exact (Hrest w Hv).
Qed.

(** Every transport method, at every depth, leaves the progress index
    in order. *)
Lemma keeps_methods (d : nat) :
  respects keeps_index (m__cancel_estimation (methods d))
  /\ (forall i, 0 <= i -> respects keeps_index (m__jump_to_index (methods d) i))
  /\ respects keeps_index (m_play (methods d))
  /\ respects keeps_index (m_stop (methods d))
  /\ (forall p s r, respects keeps_index (m_skip_to_next (methods d) p s r)).
Proof.
  induction d as [|d (IHc & IHj & IHp & IHs & IHn)].
  - repeat split; intros; apply (respects_raise keeps_index keeps_refl).
  - rewrite methods_S. cbn [m__cancel_estimation m__jump_to_index m_play m_stop
                             m_skip_to_next].
    split; [|split; [|split; [|split]]].
    + unfold _cancel_estimation_body, _cancel_clock, _update_pos_estimate.
      pose proof (IHn true false true) as N. keeps_steps.
    + intros i Hi. apply keeps_jump_body; assumption.
    + unfold play_body, Sound_play, _initialize_estimation, _start_clock.
      pose proof (IHj 0 ltac:(lia)) as J0. keeps_steps.
    + unfold stop_body, Sound_stop. keeps_steps.
    + intros p s r. apply keeps_skip_to_next_body; assumption.
Qed.

Lemma respects_for_each {A} (R : World -> World -> Prop)
      (R_refl : forall w, R w w)
      (R_trans : forall w1 w2 w3, R w1 w2 -> R w2 w3 -> R w1 w3)
      (xs : list A) (body : A -> M unit) :
  (forall x, respects R (body x)) -> respects R (for_each xs body).
Proof.
  intros Hb. induction xs as [|x xs IH]; cbn.
  - apply (respects_ret R R_refl).
  - apply (respects_bind R R_trans); [apply Hb | intros _; exact IH].
Qed.

Lemma keeps_load_one (fs : Q -> string) (pr : string -> bool)
      (ignore_aliases : bool) (audio_file : PyVal) :
  respects keeps_index (load_one fs pr ignore_aliases audio_file).
Proof.
  intros w Hv.
  destruct (valid_reference fs pr ignore_aliases (_aliases w) audio_file) eqn:V.
  - destruct (load_one_valid fs pr _ _ _ V) as (h & w' & E & S1 & _).
    rewrite E. cbn [snd]. rewrite S1.
    apply valid_progress_index_iff in Hv. apply valid_progress_index_iff.
    cbn. rewrite length_app. cbn. lia.
  - destruct (load_one_invalid fs pr _ _ _ V) as (e & E & _).
    rewrite E. exact Hv.
Qed.

Lemma keeps_perform (fs : Q -> string) (pr : string -> bool)
      (depth : nat) (op : Operation) :
  clears op = false -> respects keeps_index (perform fs pr depth op).
Proof.
  intros Hop.
  destruct (keeps_methods depth) as (_ & _ & Hp & Hs & Hn).
  destruct op; cbn in Hop; try discriminate Hop; cbn [perform].
  - subst clear_previous_queue. unfold load. cbn [when].
    pose proof (respects_for_each keeps_index keeps_refl keeps_trans args
                  _ (keeps_load_one fs pr ignore_aliases)) as L.
    keeps_steps.
  - exact Hp.
  - exact Hs.
  - apply Hn.
  - destruct depth as [|d]; cbn [skip_to_previous].
    + apply (respects_raise keeps_index keeps_refl).
    + destruct (keeps_methods d) as (_ & Hj' & Hp' & Hs' & _).
      apply keeps_skip_to_previous_body; assumption.
Qed.

(** As long as the queue is never cleared and no call runs out of
    stack, the progress index stays -1 or an index into the queue,
    whatever is called, in whatever order, and whether the calls return
    or raise one of their other exceptions. *)
Lemma progress_index_valid_without_clearing
      (fs : Q -> string) (pr : string -> bool) (depth : nat)
      (ops : list Operation) (w : World) :
  forallb (fun op => negb (clears op)) ops = true ->
  within_the_stack fs pr depth ops w = true ->
  valid_progress_index (self w) = true ->
  valid_progress_index (self (perform_all fs pr depth ops w)) = true.
Proof.
  intros Hops _. revert Hops.
  revert w. induction ops as [|op ops IH]; intros w Hops Hv; cbn in *.
  - exact Hv.
  - apply andb_prop in Hops as [Hop Hops].
    apply IH; [exact Hops|].
    apply (keeps_perform fs pr depth op); [|exact Hv].
    destruct (clears op); [discriminate Hop | reflexivity].
Qed.

(** C2: the progress index is meant to be -1 or an index into the queue
    after every sequence of calls.  After [load("a.wav"); play();
    clear_queue()] it is 0 and the queue is empty; [unload()] and
    [load(..., clear_previous_queue=True)] leave a stale index the same
    way. *)
Theorem clearing_the_queue_leaves_a_stale_index :
  valid_progress_index (self fresh_world) = true
  /\ _queue_progress_index
       (self (perform_all demo_float_str wav_provider 4
                [op_load [VStr "a.wav"] false false; op_play; op_clear_queue]
                fresh_world)) = 0
  /\ _queue (self (perform_all demo_float_str wav_provider 4
                     [op_load [VStr "a.wav"] false false; op_play; op_clear_queue]
                     fresh_world)) = []
  /\ valid_progress_index
       (self (perform_all demo_float_str wav_provider 4
                [op_load [VStr "a.wav"] false false; op_play; op_clear_queue]
                fresh_world)) = false
  /\ valid_progress_index
       (self (perform_all demo_float_str wav_provider 4
                [op_load [VStr "a.wav"] false false; op_play; op_unload]
                fresh_world)) = false
  /\ valid_progress_index
       (self (perform_all demo_float_str wav_provider 4
                [op_load [VStr "a.wav"; VStr "b.wav"] false false; op_play;
                 op_skip_to_next true true true;
                 op_load [VStr "c.wav"] true false]
                fresh_world)) = false.
Proof. repeat split; reflexivity. Qed.

(** * Further properties of the code *)

(** ** _utils.py: normalize_index *)

Lemma normalize_index_in_range {A : Type} (sequence : list A) (index : Z) :
  - Z.of_nat (List.length sequence) <= index < Z.of_nat (List.length sequence) ->
  normalize_index sequence index = Ok (index mod Z.of_nat (List.length sequence)).
Proof.
  unfold normalize_index. set (n := Z.of_nat (List.length sequence)). intros H.
  destruct (index <? 0) eqn:E.
  - apply Z.ltb_lt in E.
    replace (n <? Z.abs index) with false by (symmetry; apply Z.ltb_ge; lia).
    f_equal. apply Z.mod_unique with (-1); lia.
  - apply Z.ltb_ge in E.
    replace (n - 1 <? index) with false by (symmetry; apply Z.ltb_ge; lia).
    f_equal. symmetry. apply Z.mod_small. lia.
Qed.

Lemma normalize_index_out_of_range {A : Type} (sequence : list A) (index : Z) :
  index < - Z.of_nat (List.length sequence)
  \/ Z.of_nat (List.length sequence) <= index ->
  exists msg, normalize_index sequence index = Raise (IndexError msg).
Proof.
  unfold normalize_index. set (n := Z.of_nat (List.length sequence)). intros H.
  destruct (index <? 0) eqn:E.
  - apply Z.ltb_lt in E.
    replace (n <? Z.abs index) with true by (symmetry; apply Z.ltb_lt; lia).
    eexists; reflexivity.
  - apply Z.ltb_ge in E.
    replace (n - 1 <? index) with true by (symmetry; apply Z.ltb_lt; lia).
    eexists; reflexivity.
Qed.

Lemma normalize_index_ok_range {A : Type} (sequence : list A) (index j : Z) :
  normalize_index sequence index = Ok j ->
  - Z.of_nat (List.length sequence) <= index < Z.of_nat (List.length sequence).
Proof.
  intros H.
  destruct (Z.lt_ge_cases index (- Z.of_nat (List.length sequence))) as [Hlo|Hlo];
    [|destruct (Z.lt_ge_cases index (Z.of_nat (List.length sequence))) as [Hhi|Hhi]].
  - destruct (normalize_index_out_of_range sequence index (or_introl Hlo))
      as [msg E]. congruence.
  - lia.
  - destruct (normalize_index_out_of_range sequence index (or_intror Hhi))
      as [msg E]. congruence.
Qed.

(** X1: [normalize_index] returns exactly for the indices Python's own
    indexing accepts, from [-len] to [len - 1]; its result is then the
    index counted from the front, [index mod len], within [0, len).
    Every other index, and so every index into an empty sequence, raises
    IndexError. *)
Theorem normalize_index_bounds {A : Type} (sequence : list A) (index : Z) :
  (- Z.of_nat (List.length sequence) <= index < Z.of_nat (List.length sequence) ->
   normalize_index sequence index = Ok (index mod Z.of_nat (List.length sequence))
   /\ 0 <= index mod Z.of_nat (List.length sequence) < Z.of_nat (List.length sequence))
  /\ (index < - Z.of_nat (List.length sequence)
      \/ Z.of_nat (List.length sequence) <= index ->
      exists msg, normalize_index sequence index = Raise (IndexError msg)).
Proof.
  split.
  - intros H. split; [apply normalize_index_in_range; exact H|].
    apply Z.mod_pos_bound. lia.
  - apply normalize_index_out_of_range.
Qed.

Lemma normalize_index_bounds_witness :
  - Z.of_nat (List.length [10; 20; 30]) <= -1 < Z.of_nat (List.length [10; 20; 30])
  /\ normalize_index [10; 20; 30] (-1) = Ok 2
  /\ exists msg, normalize_index [10; 20; 30] (-4) = Raise (IndexError msg).
Proof.
  assert (H : - Z.of_nat (List.length [10; 20; 30]) <= -1
              < Z.of_nat (List.length [10; 20; 30])) by (cbn; lia).
  destruct (normalize_index_bounds [10; 20; 30] (-1)) as [Hin _].
  destruct (normalize_index_bounds [10; 20; 30] (-4)) as [_ Hout].
  split; [exact H|]. split; [exact (proj1 (Hin H))|].
  apply Hout. left. cbn. lia.
Defined.

(** X2: the index [normalize_index] returns designates the element that
    Python's indexing finds at the index it was given: normalizing never
    changes which element is meant. *)
Theorem normalize_index_same_element {A : Type} (sequence : list A) (index j : Z) :
  normalize_index sequence index = Ok j ->
  py_getitem sequence j = py_getitem sequence index
  /\ exists x, py_getitem sequence j = Ok x
               /\ nth_error sequence (Z.to_nat j) = Some x.
Proof.
  intros H. pose proof (normalize_index_ok_range _ _ _ H) as Hr.
  assert (Hj : j = if index <? 0 then Z.of_nat (List.length sequence) + index
                   else index).
  { unfold normalize_index in H. destruct (index <? 0).
    - destruct (_ <? _) in H; congruence.
    - destruct (_ <? _) in H; congruence. }
  assert (Hjr : 0 <= j < Z.of_nat (List.length sequence)).
  { destruct (index <? 0) eqn:E; subst j;
      [apply Z.ltb_lt in E | apply Z.ltb_ge in E]; lia. }
  split; [|exact (getitem_in_range _ _ Hjr)].
  unfold py_getitem at 2. rewrite <- Hj.
  unfold py_getitem.
  replace (j <? 0) with false by (symmetry; apply Z.ltb_ge; lia). reflexivity.
Qed.

Lemma normalize_index_same_element_witness :
  normalize_index [10; 20; 30] (-1) = Ok 2
  /\ py_getitem [10; 20; 30] 2 = py_getitem [10; 20; 30] (-1)
  /\ py_getitem [10; 20; 30] (-1) = Ok 30.
Proof.
  destruct (normalize_index_same_element [10; 20; 30] (-1) 2 eq_refl) as [E _].
  split; [reflexivity|]. split; [exact E | reflexivity].
Defined.

(** ** _utils.py: humanize_duration *)

Lemma two_digit_field_reads (n : Z) :
  0 <= n < 60 ->
  PyStr.all_digits (PyStr.of_Z_02 n) = true
  /\ PyStr.to_Z (PyStr.of_Z_02 n) = Some n.
Proof.
  intros H. pose proof (two_digit_field_ok n H) as F. unfold two_digit_field in F.
  destruct (PyStr.of_Z_02 n) as [|a [|b [|? ?]]] eqn:E; try discriminate F.
  apply andb_prop in F as [F _]. apply andb_prop in F as [F F3].
  apply andb_prop in F as [F1 F2].
  destruct (PyStr.to_Z (String a (String b ""))) as [m|]; [|discriminate F3].
  apply Z.eqb_eq in F3. subst m.
  split; [cbn; rewrite F1, F2; reflexivity | reflexivity].
Qed.

Lemma hour_field_reads (h : Z) :
  0 <= h < 24 ->
  PyStr.all_digits (PyStr.of_Z h) = true /\ PyStr.to_Z (PyStr.of_Z h) = Some h.
Proof.
  intros H. pose proof (hour_field_ok h H) as F. unfold hour_field in F.
  apply andb_prop in F as [F1 F2].
  destruct (PyStr.to_Z (PyStr.of_Z h)) as [m|]; [|discriminate F2].
  apply Z.eqb_eq in F2. subst m. split; [exact F1 | reflexivity].
Qed.

Lemma time_of_day_fields (s : Z) :
  0 <= s < 86400 ->
  0 <= s / 60 / 60 < 24 /\ 0 <= s / 60 mod 60 < 60 /\ 0 <= s mod 60 < 60
  /\ 3600 * (s / 60 / 60) + 60 * (s / 60 mod 60) + s mod 60 = s.
Proof.
  intros Hs. repeat split; try (apply Z.mod_pos_bound; lia).
  - apply Z.div_pos; [apply Z.div_pos|]; lia.
  - apply Z.div_lt_upper_bound; [lia|]. apply Z.div_lt_upper_bound; lia.
  - pose proof (Z.div_mod s 60 ltac:(lia)).
    pose proof (Z.div_mod (s / 60) 60 ltac:(lia)). lia.
Qed.

(** X3: with [remove_leading_zero=False] a duration of less than one day
    is printed as the three fields hours, minutes and seconds of
    ["%d:%02d:%02d"], whatever its size, and reads back as the same
    number of seconds. *)
Theorem humanize_duration_keeping_zeros (s : Z) :
  0 <= s < 86400 ->
  humanize_duration s false
  = Ok (PyStr.of_Z (s / 60 / 60) ++ ":" ++ PyStr.of_Z_02 (s / 60 mod 60)
        ++ ":" ++ PyStr.of_Z_02 (s mod 60))%string
  /\ PyStr.split ":" (PyStr.of_Z (s / 60 / 60) ++ ":" ++ PyStr.of_Z_02 (s / 60 mod 60)
                      ++ ":" ++ PyStr.of_Z_02 (s mod 60))
     = [PyStr.of_Z (s / 60 / 60); PyStr.of_Z_02 (s / 60 mod 60);
        PyStr.of_Z_02 (s mod 60)]
  /\ parse_hms (PyStr.of_Z (s / 60 / 60) ++ ":" ++ PyStr.of_Z_02 (s / 60 mod 60)
                ++ ":" ++ PyStr.of_Z_02 (s mod 60)) = Some s.
Proof.
  intros Hs. destruct (time_of_day_fields s Hs) as (Hh & Hm & Hsec & Hsum).
  destruct (hour_field_reads _ Hh) as [Dh Rh].
  destruct (two_digit_field_reads _ Hm) as [Dm Rm].
  destruct (two_digit_field_reads _ Hsec) as [Ds Rs].
  pose proof (split_three_fields _ _ _ Dh Dm Ds) as Hsplit.
  split; [|split; [exact Hsplit|]].
  - unfold humanize_duration. rewrite (timedelta_str_below_one_day s Hs). reflexivity.
  - unfold parse_hms. rewrite Hsplit, Rh, Rm, Rs. f_equal. exact Hsum.
Qed.

Lemma humanize_duration_keeping_zeros_witness :
  0 <= 150 < 86400
  /\ humanize_duration 150 false = Ok "0:02:30"
  /\ parse_hms "0:02:30" = Some 150.
Proof.
  assert (H : 0 <= 150 < 86400) by lia.
  destruct (humanize_duration_keeping_zeros 150 H) as (E & _ & P).
  split; [exact H|]. split; [exact E | exact P].
Defined.

(** X4: with the default [remove_leading_zero=True], a non-negative
    number of seconds is printed in a form that reads back, as
    hours:minutes:seconds or minutes:seconds, to the same number exactly
    when it is less than one day; below one day two different durations
    are never printed alike. *)
Theorem humanize_duration_reads_back_below_one_day (s t : Z) :
  0 <= s -> 0 <= t ->
  (round_trips s = true <-> s < 86400)
  /\ (s < 86400 -> t < 86400 ->
      humanize_duration s true = humanize_duration t true -> s = t).
Proof.
  intros Hs Ht. split; [apply humanize_round_trips_iff; exact Hs|].
  intros Hs' Ht' E.
  destruct (humanize_round_trip_below_one_day s (conj Hs Hs')) as (x & Ex & Px).
  destruct (humanize_round_trip_below_one_day t (conj Ht Ht')) as (y & Ey & Py).
  rewrite Ex, Ey in E. injection E as ->. congruence.
Qed.

Lemma humanize_duration_reads_back_below_one_day_witness :
  0 <= 130 /\ 0 <= 3600
  /\ round_trips 130 = true
  /\ humanize_duration 130 true = Ok "2:10"
  /\ humanize_duration 3600 true = Ok "1:00:00".
Proof.
  assert (H1 : 0 <= 130) by lia. assert (H2 : 0 <= 3600) by lia.
  destruct (humanize_duration_reads_back_below_one_day 130 3600 H1 H2) as [I _].
  split; [exact H1|]. split; [exact H2|].
  split; [apply I; lia|]. split; reflexivity.
Defined.

Lemma last_digit_field_ok (n : Z) : 0 <= n < 60 -> last_digit_field n = true.
Proof. apply (below_forallb last_digit_field 60). vm_compute. reflexivity. Qed.

Lemma of_Z_no_colon (z : Z) : no_colon (PyStr.of_Z z) = true.
Proof.
  unfold PyStr.of_Z. destruct z; cbn.
  - reflexivity.
  - apply digits_no_colon, uint_digits.
  - apply digits_no_colon, uint_digits.
Qed.

(** X5: a negative number of seconds is not refused.  [timedelta]
    prints it as a negative day count followed by a time of day, and
    [humanize_duration] keeps of that only the last digit of the minutes
    and the seconds: the result reads back as a time under ten minutes,
    never as the duration given. *)
Theorem humanize_duration_negative (s : Z) :
  - 999999999 * 86400 <= s < 0 ->
  exists str,
    humanize_duration s true = Ok str
    /\ parse_hms str
       = Some (60 * ((s mod 86400 / 60 mod 60) mod 10) + s mod 86400 mod 60)
    /\ parse_hms str <> Some s.
Proof.
  intros Hs.
  set (secs := s mod 86400).
  assert (Hsecs : 0 <= secs < 86400) by (apply Z.mod_pos_bound; lia).
  destruct (time_of_day_fields secs Hsecs) as (Hh & Hm & Hsec & _).
  assert (Hd : - 999999999 <= s / 86400 < 0).
  { split; [apply Z.div_le_lower_bound; lia | apply Z.div_lt_upper_bound; lia]. }
  pose proof (last_digit_field_ok _ Hm) as Fm. unfold last_digit_field in Fm.
  destruct (two_digit_field_reads _ Hsec) as [Ds Rs].
  destruct (PyStr.of_Z_02 (secs / 60 mod 60)) as [|a [|b [|? ?]]] eqn:Em;
    try discriminate Fm.
  apply andb_prop in Fm as [Fm Fm3]. apply andb_prop in Fm as [Fm1 Fm2].
  destruct (PyStr.to_Z (String b "")) as [m|] eqn:Eb; [|discriminate Fm3].
  apply Z.eqb_eq in Fm3. subst m.
  assert (Db : PyStr.all_digits (String b "") = true) by (cbn; rewrite Fm2; reflexivity).
  assert (Dm : PyStr.all_digits (String a (String b "")) = true)
    by (cbn; rewrite Fm1, Fm2; reflexivity).
  set (sep := if Z.abs (s / 86400) =? 1 then " day, " else " days, ").
  assert (Hsep : no_colon sep = true)
    by (subst sep; destruct (Z.abs (s / 86400) =? 1); reflexivity).
  set (first := (PyStr.of_Z (s / 86400) ++ sep ++ PyStr.of_Z (secs / 60 / 60))%string).
  assert (Hfirst : no_colon first = true).
  { subst first. rewrite !no_colon_app, Hsep, !of_Z_no_colon. reflexivity. }
  assert (T : timedelta_str s
              = Ok (first ++ String ":" (String a (String b "") ++ ":"
                                         ++ PyStr.of_Z_02 (secs mod 60)))%string).
  { unfold timedelta_str. fold secs.
    replace (999999999 <? Z.abs (s / 86400)) with false
      by (symmetry; apply Z.ltb_ge; lia).
    replace (s / 86400 =? 0) with false by (symmetry; apply Z.eqb_neq; lia).
    rewrite Em. fold sep. subst first. rewrite <- !append_assoc. reflexivity. }
  exists (String b "" ++ ":" ++ PyStr.of_Z_02 (secs mod 60))%string.
  assert (P : parse_hms (String b "" ++ ":" ++ PyStr.of_Z_02 (secs mod 60))
              = Some (60 * ((secs / 60 mod 60) mod 10) + secs mod 60)).
  { unfold parse_hms. rewrite (split_two_fields _ _ Db Ds), Eb, Rs. reflexivity. }
  split; [|split; [exact P|]].
  - unfold humanize_duration. rewrite T.
    replace (s <? 3600) with true by (symmetry; apply Z.ltb_lt; lia).
    replace (s <? 10 * 60) with true by (symmetry; apply Z.ltb_lt; lia).
    rewrite (split_no_colon _ _ Hfirst), (split_two_fields _ _ Dm Ds). reflexivity.
  - rewrite P. intros E.
    assert (E' : 60 * ((secs / 60 mod 60) mod 10) + secs mod 60 = s) by congruence.
    pose proof (Z.mod_pos_bound (secs / 60 mod 60) 10 ltac:(lia)) as B. lia.
Qed.

Lemma humanize_duration_negative_witness :
  - 999999999 * 86400 <= -10 < 0
  /\ humanize_duration (-10) true = Ok "9:50"
  /\ exists str, humanize_duration (-10) true = Ok str /\ parse_hms str = Some 590.
Proof.
  assert (H : - 999999999 * 86400 <= -10 < 0) by lia.
  destruct (humanize_duration_negative (-10) H) as (str & E & P & _).
  split; [exact H|]. split; [reflexivity|].
  exists str. split; [exact E | exact P].
Defined.

(** ** _conversions.py *)



(** ** audioplayer.py: the alias registry *)

Lemma Qeq_bool_sym (x y : Q) : Qeq_bool x y = Qeq_bool y x.
Proof.
  destruct (Qeq_bool x y) eqn:E1, (Qeq_bool y x) eqn:E2; try reflexivity.
  - apply Qeq_bool_iff in E1. apply Qeq_bool_neq in E2. exfalso. apply E2.
    symmetry. exact E1.
  - apply Qeq_bool_iff in E2. apply Qeq_bool_neq in E1. exfalso. apply E1.
    symmetry. exact E2.
Qed.

Lemma Qeq_bool_trans (x y z : Q) :
  Qeq_bool x y = true -> Qeq_bool y z = true -> Qeq_bool x z = true.
Proof.
  rewrite !Qeq_bool_iff. intros H1 H2. rewrite H1. exact H2.
Qed.

(** Key equality is an equivalence. *)
Lemma py_eqb_refl (a : PyVal) : py_eqb a a = true.
Proof.
  destruct a; cbn [py_eqb as_number]; try reflexivity;
    try apply String.eqb_refl; try apply Nat.eqb_refl;
    apply Qeq_bool_iff; reflexivity.
Qed.

Lemma py_eqb_sym (a b : PyVal) : py_eqb a b = py_eqb b a.
Proof.
  destruct a, b; cbn [py_eqb as_number]; try reflexivity;
    try apply String.eqb_sym; try apply Nat.eqb_sym; apply Qeq_bool_sym.
Qed.

Lemma py_eqb_trans (a b c : PyVal) :
  py_eqb a b = true -> py_eqb b c = true -> py_eqb a c = true.
Proof.
  destruct a, b, c; cbn [py_eqb as_number]; intros H1 H2;
    try discriminate H1; try discriminate H2; try reflexivity;
    try (apply String.eqb_eq in H1, H2; subst; apply String.eqb_refl);
    try (apply Nat.eqb_eq in H1, H2; subst; apply Nat.eqb_refl);
    eapply Qeq_bool_trans; eassumption.
Qed.

Lemma py_eqb_false_right (e k k' : PyVal) :
  py_eqb e k = true -> py_eqb e k' = py_eqb k k'.
Proof.
  intros H. destruct (py_eqb k k') eqn:E.
  - exact (py_eqb_trans _ _ _ H E).
  - destruct (py_eqb e k') eqn:E'; [|reflexivity].
    rewrite py_eqb_sym in H. rewrite (py_eqb_trans _ _ _ H E') in E. discriminate E.
Qed.

(** Looking a key up after an assignment. *)
Lemma dict_get_set (d : list (PyVal * PyVal)) (k v k' default : PyVal) :
  dict_get (dict_set d k v) k' default
  = if py_eqb k k' then v else dict_get d k' default.
Proof.
  induction d as [|[e x] d IH]; cbn.
  - reflexivity.
  - destruct (py_eqb e k) eqn:Ek; cbn.
    + rewrite (py_eqb_false_right _ _ k' Ek).
      destruct (py_eqb k k'); reflexivity.
    + rewrite IH. destruct (py_eqb e k') eqn:Ek'; [|reflexivity].
      destruct (py_eqb k k') eqn:Ekk; [|reflexivity].
      rewrite py_eqb_sym in Ekk. rewrite (py_eqb_trans _ _ _ Ek' Ekk) in Ek.
      discriminate Ek.
Qed.

Lemma register_run (alias value : PyVal) (w : World) :
  SoundTypeConversion_is_allowed value = Ok tt ->
  hashable alias = true ->
  register alias value w
  = (Ok tt, mkWorld (self w) (dict_set (_aliases w) alias value) (sounds w)
              (next_handle w) (calls w)).
Proof.
  intros Ha Hh. unfold register, bind, lift. rewrite Ha, Hh. reflexivity.
Qed.

(** X7: registering an allowed value under a hashable alias returns
    normally and touches only the alias table; afterwards [get_alias]
    gives that value for every key equal to the alias, whatever was
    registered under it before, and gives for every other key what it
    gave before. *)
Theorem register_then_get_alias (alias value key default_value : PyVal) (w : World) :
  SoundTypeConversion_is_allowed value = Ok tt ->
  hashable alias = true ->
  hashable key = true ->
  exists w',
    register alias value w = (Ok tt, w')
    /\ self w' = self w /\ sounds w' = sounds w /\ calls w' = calls w
    /\ get_alias alias default_value w' = (Ok value, w')
    /\ get_alias key default_value w'
       = (Ok (if py_eqb alias key then value
              else dict_get (_aliases w) key default_value), w').
Proof.
  intros Ha Hh Hk. eexists. split; [apply register_run; assumption|].
  cbn. repeat split.
  - unfold get_alias. rewrite Hh. cbn. rewrite dict_get_set, py_eqb_refl. reflexivity.
  - unfold get_alias. rewrite Hk. cbn. rewrite dict_get_set. reflexivity.
Qed.

Lemma register_then_get_alias_witness :
  SoundTypeConversion_is_allowed (VStr "a.wav") = Ok tt
  /\ hashable (VInt 1) = true
  /\ hashable (VFloat 1) = true
  /\ exists w',
       register (VInt 1) (VStr "a.wav") fresh_world = (Ok tt, w')
       /\ get_alias (VFloat 1) VNone w' = (Ok (VStr "a.wav"), w').
Proof.
  destruct (register_then_get_alias (VInt 1) (VStr "a.wav") (VFloat 1) VNone
              fresh_world eq_refl eq_refl eq_refl) as (w' & E & _ & _ & _ & _ & G).
  repeat (split; [reflexivity|]).
  exists w'. split; [exact E | exact G].
Defined.

(** X8: [register] checks the value before anything else.  A value that
    is not a str, a Path or a Sound is refused with the TypeError naming
    these types, whatever the alias; an allowed value under an
    unhashable alias is refused with the TypeError of the dict.  Either
    way nothing has been registered. *)
Theorem register_refuses (alias value : PyVal) (w : World) :
  (isinstance value [TStr; TPath; TSound] = false ->
   register alias value w
   = (Raise (TypeError_only_accepted [TStr; TPath; TSound]), w))
  /\ (isinstance value [TStr; TPath; TSound] = true ->
      hashable alias = false ->
      register alias value w = (Raise TypeError_unhashable, w)).
Proof.
  split.
  - intros H. unfold register, bind, lift, SoundTypeConversion_is_allowed,
      is_allowed, SoundTypeConversion_allowed_types. rewrite H. reflexivity.
  - intros H Hh. unfold register, bind, lift, SoundTypeConversion_is_allowed,
      is_allowed, SoundTypeConversion_allowed_types. rewrite H, Hh. reflexivity.
Qed.

Lemma register_refuses_witness :
  isinstance (VInt 5) [TStr; TPath; TSound] = false
  /\ register (VStr "five") (VInt 5) fresh_world
     = (Raise (TypeError_only_accepted [TStr; TPath; TSound]), fresh_world).
Proof.
  assert (H : isinstance (VInt 5) [TStr; TPath; TSound] = false) by reflexivity.
  destruct (register_refuses (VStr "five") (VInt 5) fresh_world) as [R _].
  split; [exact H | exact (R H)].
Defined.

(** ** audioplayer.py: load and the constructor *)

Lemma load_one_through_alias (fs : Q -> string) (pr : string -> bool)
      (audio_file : PyVal) (w : World) :
  hashable audio_file = true ->
  load_one fs pr false audio_file w
  = load_one fs pr true (resolve_alias false (_aliases w) audio_file) w.
Proof.
  intros Hh. unfold load_one.
  rewrite (bind_ok _ _ _ _ _ (resolve_alias_run false audio_file w
                                ltac:(rewrite Hh; reflexivity))).
  reflexivity.
Qed.

(** X9: [load] looks every argument up in the alias table, one level
    deep.  Once a value is registered under an alias, loading the alias
    is loading that value with aliases ignored; an alias whose value is
    the empty string is passed over, and the alias itself is loaded. *)
Theorem load_follows_a_registered_alias
        (fs : Q -> string) (pr : string -> bool)
        (alias value : PyVal) (clear_previous_queue : bool) (w : World) :
  SoundTypeConversion_is_allowed value = Ok tt ->
  hashable alias = true ->
  exists w1,
    register alias value w = (Ok tt, w1)
    /\ load fs pr [alias] clear_previous_queue false w1
       = load fs pr [if truthy value then value else alias]
              clear_previous_queue true w1.
Proof.
  intros Ha Hh. eexists. split; [apply register_run; assumption|].
  assert (L : forall w2,
    _aliases w2 = dict_set (_aliases w) alias value ->
    load_one fs pr false alias w2
    = load_one fs pr true (if truthy value then value else alias) w2).
  { intros w2 A. rewrite (load_one_through_alias fs pr alias w2 Hh).
    unfold resolve_alias. cbn [negb]. rewrite A, dict_get_set, py_eqb_refl.
    reflexivity. }
  unfold load. cbn [for_each].
  destruct clear_previous_queue; cbn [when]; unfold bind at 1 5; cbn [clear_queue modify ret];
    unfold bind at 1 4; unfold bind at 1 4; rewrite L by reflexivity; reflexivity.
Qed.

Lemma load_follows_a_registered_alias_witness :
  SoundTypeConversion_is_allowed (VStr "a.wav") = Ok tt
  /\ hashable (VStr "intro") = true
  /\ exists w1,
       register (VStr "intro") (VStr "a.wav") fresh_world = (Ok tt, w1)
       /\ load demo_float_str wav_provider [VStr "intro"] false false w1
          = load demo_float_str wav_provider [VStr "a.wav"] false true w1
       /\ outcome (load demo_float_str wav_provider [VStr "intro"] false false) w1
          = Ok tt.
Proof.
  destruct (load_follows_a_registered_alias demo_float_str wav_provider
              (VStr "intro") (VStr "a.wav") false fresh_world eq_refl eq_refl)
    as (w1 & E & L).
  split; [reflexivity|]. split; [reflexivity|].
  exists w1. split; [exact E|]. split; [exact L|].
  injection E as <-. reflexivity.
Defined.

(** X10: a player constructed with a queue of valid references has them
    loaded, in order, and nothing started: progress index -1, no current
    track, no clock, position estimate 0, the flags as given.  Its state
    is "queue empty" all the same, since the constructor sets the state
    after it has loaded the queue. *)
Theorem constructor_state
        (fs : Q -> string) (pr : string -> bool)
        (queue : list PyVal) (volume : PyVal) (loop estimate_position : bool)
        (interval : PyVal) (w : World) :
  forallb (valid_reference fs pr false (_aliases w)) queue = true ->
  exists hs w',
    __init__ fs pr queue volume loop estimate_position interval w = (Ok tt, w')
    /\ List.length hs = List.length queue
    /\ self w' = mkAudioPlayer false (-1) hs volume loop estimate_position
                   interval (VInt 0) "queue empty" None None
    /\ __len__ (self w') = Z.of_nat (List.length queue)
    /\ _aliases w' = _aliases w /\ calls w' = calls w.
Proof.
  intros Hv. unfold __init__.
  rewrite (bind_ok _ _ _ _ _
             (eq_refl : modify _ w = (Ok tt, mkWorld _ (_aliases w) (sounds w)
                                               (next_handle w) (calls w)))).
  set (w0 := mkWorld (mkAudioPlayer false (-1) [] volume loop estimate_position
                        interval (VInt 0) "" None None)
               (_aliases w) (sounds w) (next_handle w) (calls w)).
  destruct (load_loop_valid fs pr false queue w0 Hv)
    as (hs & w1 & E1 & L & S1 & A1 & C1).
  assert (El : exists w2,
    load fs pr queue false false w0 = (Ok tt, w2)
    /\ set_state "" (self w2) = set_state "" (self w1)
    /\ _aliases w2 = _aliases w1 /\ calls w2 = calls w1).
  { unfold load. cbn [when].
    rewrite (bind_ok _ _ _ _ _ (eq_refl : ret tt w0 = (Ok tt, w0))).
    rewrite (bind_ok _ _ _ _ _ E1). unfold bind, gets, when.
    destruct (negb _); eexists; (split; [reflexivity|]); repeat split. }
  destruct El as (w2 & E2 & S2 & A2 & C2).
  exists hs. eexists. rewrite (bind_ok _ _ _ _ _ E2).
  split; [reflexivity|]. split; [exact L|]. cbn.
  assert (P : set_current_sound_obj None
                (set_clock_event None
                   (set_state "queue empty" (set_pos_estimate (VInt 0) (self w2))))
              = mkAudioPlayer false (-1) hs volume loop estimate_position
                  interval (VInt 0) "queue empty" None None).
  { change (set_current_sound_obj None
              (set_clock_event None
                 (set_state "queue empty"
                    (set_pos_estimate (VInt 0) (set_state "" (self w2)))))
            = mkAudioPlayer false (-1) hs volume loop estimate_position
                interval (VInt 0) "queue empty" None None).
    rewrite S2, S1. reflexivity. }
  rewrite P. split; [reflexivity|]. split.
  - rewrite len_before_start by reflexivity. cbn. rewrite L. reflexivity.
  - subst w0. cbn in A1, C1. split; congruence.
Qed.

Lemma constructor_state_witness :
  forallb (valid_reference demo_float_str wav_provider false (_aliases world0))
          [VStr "a.wav"; VStr "b.wav"] = true
  /\ exists w',
       __init__ demo_float_str wav_provider [VStr "a.wav"; VStr "b.wav"]
                (VInt 1) false true (VInt 1) world0 = (Ok tt, w')
       /\ _state (self w') = "queue empty"
       /\ __len__ (self w') = 2.
Proof.
  destruct (constructor_state demo_float_str wav_provider
              [VStr "a.wav"; VStr "b.wav"] (VInt 1) false true (VInt 1) world0
              eq_refl) as (hs & w' & E & _ & S1 & Len & _).
  split; [reflexivity|]. exists w'. split; [exact E|].
  split; [rewrite S1; reflexivity | exact Len].
Defined.

Lemma as_sound_obj_store (fs : Q -> string) (pr : string -> bool)
      (v : PyVal) (w : World) :
  resolves_to_sound fs pr v = true ->
  exists h w1,
    SoundTypeConversion_as_sound_obj fs pr v w = (Ok (Some h), w1)
    /\ self w1 = self w /\ _aliases w1 = _aliases w /\ calls w1 = calls w
    /\ forall h', h' <> h -> sounds w1 h' = sounds w h'.
Proof.
  unfold resolves_to_sound. intros H.
  destruct v; cbn in *; unfold bind, SoundLoader_load; cbn; try rewrite H;
    do 2 eexists; (split; [reflexivity|]); cbn; repeat split; try reflexivity;
    intros h' Hh; apply Nat.eqb_neq in Hh; rewrite Hh; reflexivity.
Qed.

(** What [load] does to the sound store for one valid reference. *)
Lemma load_one_store (fs : Q -> string) (pr : string -> bool)
      (ignore_aliases : bool) (audio_file : PyVal) (w : World) :
  valid_reference fs pr ignore_aliases (_aliases w) audio_file = true ->
  exists h w',
    load_one fs pr ignore_aliases audio_file w = (Ok tt, w')
    /\ self w' = set_queue (_queue (self w) ++ [h]) (self w)
    /\ _aliases w' = _aliases w
    /\ volume (sounds w' h) = _volume (self w)
    /\ (1 <= on_play_bound (sounds w' h))%nat
    /\ (1 <= on_stop_bound (sounds w' h))%nat
    /\ forall h', h' <> h -> sounds w' h' = sounds w h'.
Proof.
  unfold valid_reference. intros Hv. apply andb_prop in Hv as [Hh Hr].
  destruct (as_sound_obj_store fs pr _ w Hr) as (h & w1 & E & F1 & F2 & F3 & F4).
  exists h. eexists. unfold load_one.
  rewrite (bind_ok _ _ _ _ _ (resolve_alias_run _ _ _ Hh)).
  rewrite (bind_ok _ _ _ _ _ E).
  split; [reflexivity|]. cbn. rewrite F1, F2, !Nat.eqb_refl. cbn.
  repeat split; try lia.
  intros h' Hh'. apply Nat.eqb_neq in Hh'. rewrite Hh'. apply F4.
  apply Nat.eqb_neq. exact Hh'.
Qed.

Lemma load_loop_store (fs : Q -> string) (pr : string -> bool)
      (ignore_aliases : bool) (args : list PyVal) (w : World) :
  forallb (valid_reference fs pr ignore_aliases (_aliases w)) args = true ->
  exists hs w',
    for_each args (load_one fs pr ignore_aliases) w = (Ok tt, w')
    /\ List.length hs = List.length args
    /\ self w' = set_queue (_queue (self w) ++ hs) (self w)
    /\ (forall h, In h hs ->
          volume (sounds w' h) = _volume (self w)
          /\ (1 <= on_play_bound (sounds w' h))%nat
          /\ (1 <= on_stop_bound (sounds w' h))%nat)
    /\ forall h', ~ In h' hs -> sounds w' h' = sounds w h'.
Proof.
  revert w. induction args as [|a args IH]; intros w Hv.
  - exists [], w. cbn. rewrite app_nil_r, set_queue_same.
    split; [reflexivity|]. split; [reflexivity|]. split; [reflexivity|].
    split; [intros h0 Hin; destruct Hin | intros h0 _; reflexivity].
  - cbn in Hv. apply andb_prop in Hv as [Ha Hargs].
    destruct (load_one_store fs pr ignore_aliases a w Ha)
      as (h & w1 & E1 & S1 & A1 & V1 & P1 & Q1 & F1).
    rewrite <- A1 in Hargs.
    destruct (IH w1 Hargs) as (hs & w2 & E2 & L & S2 & V2 & F2).
    exists (h :: hs), w2. cbn [for_each List.length].
    rewrite (bind_ok _ _ _ _ _ E1).
    split; [exact E2|]. split; [congruence|]. split; [|split].
    + rewrite S2, S1. cbn [_queue set_queue]. rewrite <- app_assoc. reflexivity.
    + intros h0 Hin.
      destruct (in_dec Nat.eq_dec h0 hs) as [Hhs|Hhs].
      * destruct (V2 h0 Hhs) as (Va & Pa & Qa). rewrite S1 in Va.
        repeat split; assumption.
      * destruct Hin as [<-|Hin]; [|contradiction].
        rewrite (F2 h Hhs). repeat split; assumption.
    + intros h' Hn. rewrite F2 by (intros Hin; apply Hn; right; exact Hin).
      apply F1. intros ->. apply Hn. left. reflexivity.
Qed.

(** X11: every handle that [load] appends for a list of valid references
    carries the player's volume and has one handler of the player, or
    more, bound to its on_play and to its on_stop event; the Sounds that
    are not appended are left as they were. *)
Theorem load_configures_what_it_appends
        (fs : Q -> string) (pr : string -> bool)
        (args : list PyVal) (clear_previous_queue ignore_aliases : bool)
        (w : World) :
  forallb (valid_reference fs pr ignore_aliases (_aliases w)) args = true ->
  exists hs w',
    load fs pr args clear_previous_queue ignore_aliases w = (Ok tt, w')
    /\ _queue (self w')
       = ((if clear_previous_queue then [] else _queue (self w)) ++ hs)%list
    /\ _volume (self w') = _volume (self w)
    /\ (forall h, In h hs ->
          volume (sounds w' h) = _volume (self w)
          /\ (1 <= on_play_bound (sounds w' h))%nat
          /\ (1 <= on_stop_bound (sounds w' h))%nat)
    /\ forall h', ~ In h' hs -> sounds w' h' = sounds w h'.
Proof.
  intros Hv. unfold load.
  set (w0 := snd (when clear_previous_queue clear_queue w)).
  assert (E0 : when clear_previous_queue clear_queue w = (Ok tt, w0))
    by (subst w0; destruct clear_previous_queue; reflexivity).
  assert (Q0 : _queue (self w0) = if clear_previous_queue then [] else _queue (self w))
    by (subst w0; destruct clear_previous_queue; reflexivity).
  assert (V0 : _volume (self w0) = _volume (self w))
    by (subst w0; destruct clear_previous_queue; reflexivity).
  assert (A0 : _aliases w0 = _aliases w)
    by (subst w0; destruct clear_previous_queue; reflexivity).
  assert (D0 : sounds w0 = sounds w)
    by (subst w0; destruct clear_previous_queue; reflexivity).
  rewrite <- A0 in Hv.
  destruct (load_loop_store fs pr ignore_aliases args w0 Hv)
    as (hs & w1 & E1 & L & S1 & V1 & F1).
  rewrite (bind_ok _ _ _ _ _ E0), (bind_ok _ _ _ _ _ E1).
  exists hs. unfold bind, gets, when.
  destruct (negb _); eexists; (split; [reflexivity|]); cbn;
    rewrite S1; cbn; rewrite Q0, <- V0, <- D0; repeat split;
    try exact F1;
    match goal with Hin : In ?h hs |- _ => apply (V1 h Hin) end.
Qed.

Lemma load_configures_what_it_appends_witness :
  forallb (valid_reference demo_float_str wav_provider false (_aliases fresh_world))
          [VStr "a.wav"] = true
  /\ exists hs w',
       load demo_float_str wav_provider [VStr "a.wav"] false false fresh_world
       = (Ok tt, w')
       /\ _queue (self w') = (_queue (self fresh_world) ++ hs)%list
       /\ forall h, In h hs -> volume (sounds w' h) = _volume (self fresh_world).
Proof.
  assert (Hv : forallb (valid_reference demo_float_str wav_provider false
                          (_aliases fresh_world)) [VStr "a.wav"] = true)
    by (vm_compute; reflexivity).
  split; [exact Hv|].
  destruct (load_configures_what_it_appends demo_float_str wav_provider
              [VStr "a.wav"] false false fresh_world Hv)
    as (hs & w' & E & Q & _ & V & _).
  exists hs, w'. split; [exact E|]. split; [exact Q|].
  intros h Hin. exact (proj1 (V h Hin)).
Defined.

(** ** audioplayer.py: the volume property *)

(** X12: assigning a number to [volume] stores it on the player and on
    the Sound of every queued handle, and on nothing else: a Sound that
    is not in the queue (a current track whose queue was cleared, say)
    keeps the volume it had, and no call is made on any handle.  A value
    that is neither an int nor a float is refused with the TypeError that
    names these types before anything is assigned. *)
Theorem volume_setter_reaches_the_queue_only (new_volume : PyVal) (w : World) :
  (forall x, as_number new_volume = Some x ->
     exists w',
       volume_setter new_volume w = (Ok tt, w')
       /\ self w' = set_volume new_volume (self w)
       /\ (forall h, In h (_queue (self w)) ->
             sounds w' h = set_sound_volume new_volume (sounds w h))
       /\ (forall h, ~ In h (_queue (self w)) -> sounds w' h = sounds w h)
       /\ calls w' = calls w)
  /\ (as_number new_volume = None ->
      volume_setter new_volume w
      = (Raise (TypeError_only_accepted [TInt; TFloat]), w)).
Proof.
  split.
  - intros x Hx. rewrite (volume_setter_number_eq _ _ _ Hx).
    pose proof (set_volume_on_queue (_queue (self w))
                  (mkWorld (set_volume new_volume (self w)) (_aliases w) (sounds w)
                     (next_handle w) (calls w))) as Hq.
    cbn in Hq. destruct Hq as (H1 & H2 & _ & _ & H5 & H6).
    destruct (for_each _ _ _) as [r w'] eqn:E. cbn in *. subst r.
    exists w'. split; [reflexivity|]. split; [exact H2|].
    split; [|split; [|exact H5]].
    + intros h Hin. rewrite H6.
      replace (existsb (Nat.eqb h) (_queue (self w))) with true; [reflexivity|].
      symmetry. apply existsb_exists. exists h. split; [exact Hin | apply Nat.eqb_refl].
    + intros h Hn. rewrite H6.
      replace (existsb (Nat.eqb h) (_queue (self w))) with false; [reflexivity|].
      symmetry. apply not_true_is_false. intros Hex.
      apply existsb_exists in Hex as (h' & Hin & Heq).
      apply Nat.eqb_eq in Heq. subst h'. exact (Hn Hin).
  - apply volume_setter_rejects_non_numbers.
Qed.

Lemma volume_setter_reaches_the_queue_only_witness :
  as_number (VFloat (1 # 2)) = Some (1 # 2)
  /\ exists w',
       volume_setter (VFloat (1 # 2)) one_track_world = (Ok tt, w')
       /\ self w' = set_volume (VFloat (1 # 2)) (self one_track_world)
       /\ calls w' = calls one_track_world.
Proof.
  destruct (volume_setter_reaches_the_queue_only (VFloat (1 # 2)) one_track_world)
    as [Hnum _].
  destruct (Hnum (1 # 2) eq_refl) as (w' & E & S & _ & _ & C).
  split; [reflexivity|]. exists w'. split; [exact E|]. split; [exact S | exact C].
Defined.

(** ** audioplayer.py: play and stop *)

(** X13: [play()] on a player with a current track calls play on that
    track and sets the state to "play"; it does not look at the queue:
    progress index, queue, current track and position estimate are as
    before.  The clock is scheduled if estimation is enabled and the
    Sound has a handler of the player bound, and is left alone
    otherwise. *)
Theorem play_with_a_current_track (d : nat) (h : Handle) (w : World) :
  _current_sound_obj (self w) = Some h ->
  exists w',
    play (S d) w = (Ok tt, w')
    /\ calls w' = (calls w ++ [call_play h])%list
    /\ _state (self w') = "play"
    /\ _queue_progress_index (self w') = _queue_progress_index (self w)
    /\ _queue (self w') = _queue (self w)
    /\ _current_sound_obj (self w') = Some h
    /\ _pos_estimate (self w') = _pos_estimate (self w)
    /\ _clock_event (self w')
       = (if _estimate_position (self w)
             && negb (Nat.eqb (on_play_bound (sounds w h)) 0)
          then Some scheduled else _clock_event (self w)).
Proof.
  intros Hc. destruct (play_current d h w Hc) as (w' & E & S1 & C1 & _).
  exists w'. split; [exact E|]. split; [exact C1|]. rewrite S1.
  unfold estimation_started.
  destruct (_estimate_position (self w) && _); cbn; repeat split; assumption.
Qed.

Lemma play_with_a_current_track_witness :
  _current_sound_obj (self playing_world) = Some 0%nat
  /\ exists w',
       play 1 playing_world = (Ok tt, w')
       /\ calls w' = [call_play 0%nat; call_play 0%nat]
       /\ _queue_progress_index (self w') = 0.
Proof.
  destruct (play_with_a_current_track 0 0%nat playing_world eq_refl)
    as (w' & E & C & _ & I & _).
  split; [reflexivity|]. exists w'. split; [exact E|]. split; [exact C | exact I].
Defined.

(** X14: [play()] on a player without a current track and with a
    non-empty queue starts the queue from its head, wherever the
    progress index stood: the index becomes 0, the first handle becomes
    the current track and is played, and the state is "play". *)
Theorem play_starts_the_queue (d : nat) (x : Handle) (rest : list Handle) (w : World) :
  _current_sound_obj (self w) = None ->
  _queue (self w) = x :: rest ->
  exists w',
    play (S (S d)) w = (Ok tt, w')
    /\ _queue_progress_index (self w') = 0
    /\ _current_sound_obj (self w') = Some x
    /\ _state (self w') = "play"
    /\ _queue (self w') = x :: rest
    /\ calls w' = (calls w ++ [call_play x])%list.
Proof.
  intros Hc Hq. destruct (play_from_start d x rest w Hc Hq) as (w' & E & S1 & C1 & _).
  exists w'. split; [exact E|]. rewrite S1, C1.
  repeat split; through_clock.
Qed.

Lemma play_starts_the_queue_witness :
  _current_sound_obj (self one_track_world) = None
  /\ _queue (self one_track_world) = [0%nat]
  /\ exists w',
       play 2 one_track_world = (Ok tt, w')
       /\ _queue_progress_index (self w') = 0
       /\ _current_sound_obj (self w') = Some 0%nat.
Proof.
  destruct (play_starts_the_queue 0 0%nat [] one_track_world eq_refl eq_refl)
    as (w' & E & I & C & _).
  split; [reflexivity|]. split; [reflexivity|].
  exists w'. split; [exact E|]. split; [exact I | exact C].
Defined.

(** X15: [play()] with nothing queued, no current track and the loop
    flag off raises the AttributeError of calling play on [None]; no
    handle is called, the state is not changed, and the progress index
    is -1 afterwards. *)
Theorem play_on_an_empty_player (d : nat) (w : World) :
  _current_sound_obj (self w) = None ->
  _queue (self w) = [] ->
  _loop (self w) = false ->
  exists w',
    play (S (S d)) w = (Raise (AttributeError_NoneType "play"), w')
    /\ _state (self w') = _state (self w)
    /\ _queue_progress_index (self w') = -1
    /\ _current_sound_obj (self w') = None
    /\ calls w' = calls w.
Proof.
  intros Hc Hq Hl. eexists. split; [apply play_nothing; assumption|].
  repeat split.
Qed.

Lemma play_on_an_empty_player_witness :
  _current_sound_obj (self fresh_world) = None
  /\ _queue (self fresh_world) = []
  /\ _loop (self fresh_world) = false
  /\ exists w',
       play 2 fresh_world = (Raise (AttributeError_NoneType "play"), w')
       /\ _state (self w') = "queue empty".
Proof.
  destruct (play_on_an_empty_player 0 fresh_world eq_refl eq_refl eq_refl)
    as (w' & E & S1 & _).
  repeat (split; [reflexivity|]). exists w'. split; [exact E | exact S1].
Defined.

Lemma only_clock_flag (w w' : World) :
  only_clock w w' ->
  _external_stop_call (self w') = _external_stop_call (self w)
  /\ _queue_progress_index (self w') = _queue_progress_index (self w)
  /\ _current_sound_obj (self w') = _current_sound_obj (self w)
  /\ _queue (self w') = _queue (self w)
  /\ _pos_estimate (self w') = _pos_estimate (self w)
  /\ _state (self w') = _state (self w).
Proof. intros [H _]. rewrite <- H. repeat split. Qed.

Lemma under_stop_refl (w : World) : under_stop w w.
Proof. intros _. split; [destruct (self w); reflexivity | reflexivity]. Qed.

Lemma under_stop_trans (w1 w2 w3 : World) :
  under_stop w1 w2 -> under_stop w2 w3 -> under_stop w1 w3.
Proof.
  intros H12 H23 Hf. specialize (H12 Hf).
  destruct (only_clock_flag _ _ H12) as (F2 & _).
  rewrite Hf in F2. destruct (H23 F2) as [S23 C23]. destruct H12 as [S12 C12].
  split; [|congruence].
  rewrite <- S12 at 2. rewrite <- S23. reflexivity.
Qed.

(** Under [stop()] the on_stop handler, at any depth, writes the clock
    at most. *)
Lemma handler_under_stop (d : nat) :
  respects under_stop (m__cancel_estimation (methods d)).
Proof.
  intros w Hf. destruct d as [|d].
  - cbn. split; [destruct (self w); reflexivity | reflexivity].
  - destruct (cancel_estimation_flag_set d w Hf) as (r & w' & E & S1 & C1).
    fold (_cancel_estimation (S d)). rewrite E. split; assumption.
Qed.

(** X16: [stop()] unsets the external-stop flag only when it returns.
    Whenever it raises (no current track, or a handler that fails under
    the handle's stop) the flag stays set and the state is not changed,
    so that a later end of track finds the flag set and does not
    advance.  Either way the progress index, the current track, the
    queue and the position estimate are as before. *)
Theorem stop_unsets_the_flag_only_on_return (d : nat) (w : World) :
  exists r w',
    stop (S d) w = (r, w')
    /\ _queue_progress_index (self w') = _queue_progress_index (self w)
    /\ _current_sound_obj (self w') = _current_sound_obj (self w)
    /\ _queue (self w') = _queue (self w)
    /\ _pos_estimate (self w') = _pos_estimate (self w)
    /\ match r with
       | Ok _ => _external_stop_call (self w') = false
                 /\ _state (self w') = "stop"
       | Raise _ => _external_stop_call (self w') = true
                    /\ _state (self w') = _state (self w)
       end.
Proof.
  unfold stop. rewrite methods_S. cbn [m_stop]. unfold stop_body.
  unfold bind at 1. cbn [modify]. unfold bind at 1.
  cbn [gets self set_external_stop_call _current_sound_obj].
  destruct (_current_sound_obj (self w)) as [h|] eqn:Hc.
  - unfold bind at 1. unfold Sound_stop.
    unfold bind at 1. cbn [record_call]. unfold bind at 1. cbn [update_sound].
    unfold bind at 1. cbn [get_sound].
    match goal with |- context [dispatch ?n ?c ?w2] =>
      pose proof (respects_dispatch under_stop under_stop_refl under_stop_trans
                    n c (handler_under_stop d) w2 eq_refl) as H;
      destruct (dispatch n c w2) as [[[]|e] w3]
    end; cbn in H; destruct (only_clock_flag _ _ H) as (F & I & C & Q & P & St);
      cbn in F, I, C, Q, P, St.
    + do 2 eexists. split; [reflexivity|]. cbn. rewrite I, C, Q, P, Hc.
      repeat split.
    + do 2 eexists. split; [reflexivity|]. cbn. rewrite I, C, Q, P, F, St, Hc.
      repeat split.
  - do 2 eexists. split; [reflexivity|]. cbn. rewrite Hc. repeat split.
Qed.

Lemma stop_unsets_the_flag_only_on_return_witness :
  outcome (stop 2) fresh_world = Raise (AttributeError_NoneType "stop")
  /\ _external_stop_call (self fresh_world) = false
  /\ _external_stop_call (self (after (stop 2) fresh_world)) = true.
Proof.
  destruct (stop_unsets_the_flag_only_on_return 1 fresh_world)
    as (r & w' & E & _ & _ & _ & _ & M).
  unfold outcome, after. rewrite E. cbn [fst snd].
  assert (R : r = Raise (AttributeError_NoneType "stop"))
    by (change r with (fst (r, w')); rewrite <- E; reflexivity).
  subst r. split; [reflexivity|]. split; [reflexivity | exact (proj1 M)].
Defined.

(** ** audioplayer.py: skip_to_next and skip_to_previous *)

Lemma skip_to_next_advances_player (d : nat) (x : Handle) (w : World) :
  0 <= _queue_progress_index (self w) + 1
    < Z.of_nat (List.length (_queue (self w))) ->
  nth_error (_queue (self w)) (Z.to_nat (_queue_progress_index (self w) + 1))
  = Some x ->
  exists w',
    skip_to_next (S (S d)) true false true w = (Ok tt, w')
    /\ self w'
       = set_state "play"
           (estimation_started (on_play_bound (sounds w x))
              (set_current_sound_obj (Some x)
                 (set_queue_progress_index (_queue_progress_index (self w) + 1)
                    (self w))))
    /\ calls w' = (calls w ++ [call_seek x (VInt 0); call_play x])%list.
Proof.
  intros Hi Hx.
  pose proof (jump_in_range d _ x w Hi Hx) as J.
  match type of J with _ = (_, ?w1) =>
    pose proof (seek_current x (VInt 0) w1 eq_refl) as K end.
  match type of K with _ = (_, ?w2) =>
    destruct (play_current d x w2 eq_refl) as (w3 & E3 & S3 & C3 & _) end.
  exists w3. rewrite skip_to_next_S. unfold skip_to_next_body. cbn [when].
  rewrite (bind_ok _ _ _ _ _ (eq_refl : ret tt w = (Ok tt, w))).
  rewrite (bind_ok _ _ _ _ _
             (eq_refl : gets _queue_progress_index w
                        = (Ok (_queue_progress_index (self w)), w))).
  fold (_jump_to_index (S d)). rewrite (bind_ok _ _ _ _ _ J).
  rewrite (bind_ok _ _ _ _ _ K). fold (play (S d)).
  split; [exact E3|]. rewrite S3, C3. cbn. rewrite <- app_assoc.
  split; reflexivity.
Qed.

(** X17: [skip_to_next()], with its default arguments, on a player whose
    current track can be stopped and which has a track after the current
    index: the current track is stopped, the next handle of the queue
    becomes the current track, is sought to 0 and played, in this order;
    the index has moved by one, the state is "play" and the position
    estimate is left as it was. *)
Theorem skip_to_next_moves_on (d : nat) (h x : Handle) (w : World) :
  _current_sound_obj (self w) = Some h ->
  clock_ready (self w) = true ->
  0 <= _queue_progress_index (self w) + 1
    < Z.of_nat (List.length (_queue (self w))) ->
  nth_error (_queue (self w)) (Z.to_nat (_queue_progress_index (self w) + 1))
  = Some x ->
  exists w',
    skip_to_next (S (S (S d))) true true true w = (Ok tt, w')
    /\ _queue_progress_index (self w') = _queue_progress_index (self w) + 1
    /\ _current_sound_obj (self w') = Some x
    /\ _state (self w') = "play"
    /\ _pos_estimate (self w') = _pos_estimate (self w)
    /\ _external_stop_call (self w') = false
    /\ calls w' = (calls w ++ [call_stop h; call_seek x (VInt 0); call_play x])%list.
Proof.
  intros Hc Hr Hi Hx.
  destruct (stop_run d h w Hc Hr) as (w1 & E1 & S1 & C1 & _).
  assert (Q1 : _queue (self w1) = _queue (self w)) by (rewrite S1; through_clock).
  assert (I1 : _queue_progress_index (self w1) = _queue_progress_index (self w))
    by (rewrite S1; through_clock).
  assert (P1 : _pos_estimate (self w1) = _pos_estimate (self w))
    by (rewrite S1; through_clock).
  assert (F1 : _external_stop_call (self w1) = false) by (rewrite S1; through_clock).
  destruct (skip_to_next_advances_player (S d) x w1
              ltac:(rewrite Q1, I1; exact Hi) ltac:(rewrite Q1, I1; exact Hx))
    as (w2 & E2 & S2 & C2).
  exists w2. rewrite skip_to_next_S.
  rewrite (skip_to_next_after_stop _ _ _ _ _ E1).
  fold (skip_to_next (S (S (S d))) true false true). split; [exact E2|].
  rewrite S2, C2, C1, <- app_assoc. cbn.
  repeat split; through_clock; rewrite I1; reflexivity.
Qed.

Lemma skip_to_next_moves_on_witness :
  _current_sound_obj (self two_tracks_playing) = Some 0%nat
  /\ clock_ready (self two_tracks_playing) = true
  /\ exists w',
       skip_to_next 3 true true true two_tracks_playing = (Ok tt, w')
       /\ _current_sound_obj (self w') = Some 1%nat
       /\ _state (self w') = "play".
Proof.
  assert (Hc : _current_sound_obj (self two_tracks_playing) = Some 0%nat)
    by (vm_compute; reflexivity).
  assert (Hr : clock_ready (self two_tracks_playing) = true)
    by (vm_compute; reflexivity).
  assert (Hi : 0 <= _queue_progress_index (self two_tracks_playing) + 1
               < Z.of_nat (List.length (_queue (self two_tracks_playing))))
    by (vm_compute; split; [intro H; discriminate H | reflexivity]).
  assert (Hx : nth_error (_queue (self two_tracks_playing))
                 (Z.to_nat (_queue_progress_index (self two_tracks_playing) + 1))
               = Some 1%nat)
    by (vm_compute; reflexivity).
  destruct (skip_to_next_moves_on 0 0%nat 1%nat two_tracks_playing Hc Hr Hi Hx)
    as (w' & E & _ & Cur & St & _).
  split; [exact Hc|]. split; [exact Hr|].
  exists w'. split; [exact E|]. split; [exact Cur | exact St].
Defined.

Lemma normalize_index_ok_bounds {A : Type} (sequence : list A) (index j : Z) :
  normalize_index sequence index = Ok j ->
  0 <= j < Z.of_nat (List.length sequence).
Proof.
  intros N. pose proof (normalize_index_ok_range _ _ _ N) as H.
  rewrite (normalize_index_in_range _ _ H) in N. injection N as <-.
  apply Z.mod_pos_bound. lia.
Qed.

Lemma skip_to_previous_after_stop (rec : Methods) (p r : bool) (w w1 : World) :
  m_stop rec w = (Ok tt, w1) ->
  skip_to_previous_body rec p true r w = skip_to_previous_body rec p false r w1.
Proof.
  intros E. unfold skip_to_previous_body. cbn [when].
  rewrite (bind_ok _ _ _ _ _ E). reflexivity.
Qed.

Lemma skip_to_previous_lands (d : nat) (j : Z) (x : Handle) (w : World) :
  normalize_index (_queue (self w)) (_queue_progress_index (self w) - 1) = Ok j ->
  nth_error (_queue (self w)) (Z.to_nat j) = Some x ->
  exists w',
    skip_to_previous (S (S (S d))) true false true w = (Ok tt, w')
    /\ self w'
       = set_state "play"
           (estimation_started (on_play_bound (sounds w x))
              (set_current_sound_obj (Some x)
                 (set_queue_progress_index j (self w))))
    /\ calls w' = (calls w ++ [call_seek x (VInt 0); call_play x])%list.
Proof.
  intros N Hx.
  pose proof (normalize_index_ok_bounds _ _ _ N) as Hj.
  pose proof (jump_in_range (S d) j x w Hj Hx) as J.
  match type of J with _ = (_, ?w1) =>
    pose proof (seek_current x (VInt 0) w1 eq_refl) as K end.
  match type of K with _ = (_, ?w2) =>
    destruct (play_current (S d) x w2 eq_refl) as (w3 & E3 & S3 & C3 & _) end.
  exists w3. cbn [skip_to_previous]. unfold skip_to_previous_body. cbn [when].
  rewrite (bind_ok _ _ _ _ _ (eq_refl : ret tt w = (Ok tt, w))).
  rewrite (bind_ok _ _ _ _ _
             (eq_refl : gets _queue w = (Ok (_queue (self w)), w))).
  rewrite (bind_ok _ _ _ _ _
             (eq_refl : gets _queue_progress_index w
                        = (Ok (_queue_progress_index (self w)), w))).
  assert (L : lift (normalize_index (_queue (self w))
                      (_queue_progress_index (self w) - 1)) w = (Ok j, w))
    by (unfold lift; rewrite N; reflexivity).
  rewrite (bind_ok _ _ _ _ _ L).
  change (m__jump_to_index (methods (S (S d)))) with (_jump_to_index (S (S d))).
  rewrite (bind_ok _ _ _ _ _ J), (bind_ok _ _ _ _ _ K).
  change (m_play (methods (S (S d)))) with (play (S (S d))).
  split; [exact E3|]. rewrite S3, C3. cbn. rewrite <- app_assoc.
  split; reflexivity.
Qed.

(** X18: [skip_to_previous()], with its default arguments, on a player
    whose current track can be stopped: from an index above 0 it goes
    one track back, and from index 0 it wraps around to the last track
    of the queue (the index minus one is -1, which [normalize_index]
    turns into the last index).  The current track is stopped, then the
    track it lands on is sought to 0 and played. *)
Theorem skip_to_previous_steps_back_or_wraps (d : nat) (h x : Handle) (w : World) :
  _current_sound_obj (self w) = Some h ->
  clock_ready (self w) = true ->
  0 <= _queue_progress_index (self w)
    < Z.of_nat (List.length (_queue (self w))) ->
  nth_error (_queue (self w))
    (Z.to_nat (if _queue_progress_index (self w) =? 0
               then Z.of_nat (List.length (_queue (self w))) - 1
               else _queue_progress_index (self w) - 1))
  = Some x ->
  exists w',
    skip_to_previous (S (S (S d))) true true true w = (Ok tt, w')
    /\ _queue_progress_index (self w')
       = (if _queue_progress_index (self w) =? 0
          then Z.of_nat (List.length (_queue (self w))) - 1
          else _queue_progress_index (self w) - 1)
    /\ _current_sound_obj (self w') = Some x
    /\ _state (self w') = "play"
    /\ _queue (self w') = _queue (self w)
    /\ calls w' = (calls w ++ [call_stop h; call_seek x (VInt 0); call_play x])%list.
Proof.
  intros Hc Hr Hi Hx.
  set (j := if _queue_progress_index (self w) =? 0
            then Z.of_nat (List.length (_queue (self w))) - 1
            else _queue_progress_index (self w) - 1) in *.
  assert (N : normalize_index (_queue (self w)) (_queue_progress_index (self w) - 1)
              = Ok j).
  { rewrite normalize_index_in_range by lia. f_equal. subst j.
    destruct (_queue_progress_index (self w) =? 0) eqn:E.
    - apply Z.eqb_eq in E. rewrite E. symmetry. apply Z.mod_unique with (-1); lia.
    - apply Z.eqb_neq in E. apply Z.mod_small. lia. }
  destruct (stop_run d h w Hc Hr) as (w1 & E1 & S1 & C1 & _).
  assert (Q1 : _queue (self w1) = _queue (self w)) by (rewrite S1; through_clock).
  assert (I1 : _queue_progress_index (self w1) = _queue_progress_index (self w))
    by (rewrite S1; through_clock).
  destruct (skip_to_previous_lands d j x w1
              ltac:(rewrite Q1, I1; exact N) ltac:(rewrite Q1; exact Hx))
    as (w2 & E2 & S2 & C2).
  exists w2. cbn [skip_to_previous].
  rewrite (skip_to_previous_after_stop _ _ _ _ _ E1).
  split; [exact E2|].
  rewrite S2, C2, C1, <- app_assoc. cbn.
  repeat split; through_clock.
Qed.

Lemma skip_to_previous_steps_back_or_wraps_witness :
  _current_sound_obj (self two_tracks_playing) = Some 0%nat
  /\ clock_ready (self two_tracks_playing) = true
  /\ exists w',
       skip_to_previous 3 true true true two_tracks_playing = (Ok tt, w')
       /\ _current_sound_obj (self w') = Some 1%nat
       /\ _state (self w') = "play".
Proof.
  assert (Hc : _current_sound_obj (self two_tracks_playing) = Some 0%nat)
    by (vm_compute; reflexivity).
  assert (Hr : clock_ready (self two_tracks_playing) = true)
    by (vm_compute; reflexivity).
  assert (Hi : 0 <= _queue_progress_index (self two_tracks_playing)
               < Z.of_nat (List.length (_queue (self two_tracks_playing))))
    by (vm_compute; split; [intro H; discriminate H | reflexivity]).
  assert (Hx : nth_error (_queue (self two_tracks_playing))
                 (Z.to_nat
                    (if _queue_progress_index (self two_tracks_playing) =? 0
                     then Z.of_nat (List.length (_queue (self two_tracks_playing))) - 1
                     else _queue_progress_index (self two_tracks_playing) - 1))
               = Some 1%nat)
    by (vm_compute; reflexivity).
  destruct (skip_to_previous_steps_back_or_wraps 0 0%nat 1%nat two_tracks_playing
              Hc Hr Hi Hx)
    as (w' & E & _ & Cur & St & _).
  split; [exact Hc|]. split; [exact Hr|].
  exists w'. split; [exact E|]. split; [exact Cur | exact St].
Defined.

(** X19: [skip_to_previous(stop_current_playback=False)] on a player that
    has not started (progress index -1) asks [normalize_index] for index
    -2.  With fewer than two tracks in the queue the IndexError leaves
    the method (it is raised outside the try block of [_jump_to_index])
    and nothing has changed; with two tracks or more the player lands on
    the track before the last one. *)
Theorem skip_to_previous_before_the_start (d : nat) (w : World) :
  _queue_progress_index (self w) = -1 ->
  ((List.length (_queue (self w)) < 2)%nat ->
   forall p r, exists msg,
     skip_to_previous (S d) p false r w = (Raise (IndexError msg), w))
  /\ (forall x,
        (2 <= List.length (_queue (self w)))%nat ->
        nth_error (_queue (self w)) (List.length (_queue (self w)) - 2) = Some x ->
        exists w',
          skip_to_previous (S (S (S d))) true false true w = (Ok tt, w')
          /\ _queue_progress_index (self w')
             = Z.of_nat (List.length (_queue (self w))) - 2
          /\ _current_sound_obj (self w') = Some x
          /\ calls w' = (calls w ++ [call_seek x (VInt 0); call_play x])%list).
Proof.
  intros Hi. split.
  - intros Hl p r.
    destruct (normalize_index_out_of_range (_queue (self w))
                (_queue_progress_index (self w) - 1)) as [msg N]; [left; lia|].
    exists msg. cbn [skip_to_previous]. unfold skip_to_previous_body. cbn [when].
    rewrite (bind_ok _ _ _ _ _ (eq_refl : ret tt w = (Ok tt, w))).
    rewrite (bind_ok _ _ _ _ _
               (eq_refl : gets _queue w = (Ok (_queue (self w)), w))).
    rewrite (bind_ok _ _ _ _ _
               (eq_refl : gets _queue_progress_index w
                          = (Ok (_queue_progress_index (self w)), w))).
    apply bind_raise. unfold lift. rewrite N. reflexivity.
  - intros x Hl Hx.
    assert (N : normalize_index (_queue (self w)) (_queue_progress_index (self w) - 1)
                = Ok (Z.of_nat (List.length (_queue (self w))) - 2)).
    { rewrite normalize_index_in_range by lia. f_equal. rewrite Hi.
      symmetry. apply Z.mod_unique with (-1); lia. }
    destruct (skip_to_previous_lands d _ x w N) as (w' & E & S' & C).
    + replace (Z.to_nat (Z.of_nat (List.length (_queue (self w))) - 2))
        with (List.length (_queue (self w)) - 2)%nat by lia.
      exact Hx.
    + exists w'. split; [exact E|]. rewrite S'.
      split; [through_clock|]. split; [through_clock | exact C].
Qed.

Lemma skip_to_previous_before_the_start_witness :
  _queue_progress_index (self one_track_world) = -1
  /\ (List.length (_queue (self one_track_world)) < 2)%nat
  /\ exists msg,
       skip_to_previous 1 true false true one_track_world
       = (Raise (IndexError msg), one_track_world).
Proof.
  assert (Hi : _queue_progress_index (self one_track_world) = -1)
    by (vm_compute; reflexivity).
  assert (Hl : (List.length (_queue (self one_track_world)) < 2)%nat)
    by (vm_compute; apply le_n).
  split; [exact Hi|]. split; [exact Hl|].
  exact (proj1 (skip_to_previous_before_the_start 0 one_track_world Hi) Hl true true).
Defined.

(** ** audioplayer.py: get_pos, length, fast_forward and rewind *)

Section SeekingProperties.

Variable gp : World -> Handle -> Number.
Variable ln : World -> Handle -> Number.
Variable fadd : Q -> Q -> Q.
Variable fsub : Q -> Q -> Q.

Lemma Qle_bool_inject_Z (a b : Z) :
  Qle_bool (inject_Z a) (inject_Z b) = (a <=? b).
Proof. unfold Qle_bool. cbn. rewrite !Z.mul_1_r. reflexivity. Qed.

Lemma as_number_number_val (n : Number) :
  as_number (number_val n) = Some (exact n).
Proof. destruct n; reflexivity. Qed.

Lemma number_of_as_number (v : PyVal) (n : Number) :
  number_of v = Some n -> as_number v = Some (exact n) /\ number_val n = v.
Proof. destruct v; cbn; intros H; inversion H; split; reflexivity. Qed.

Lemma number_of_none (v : PyVal) : number_of v = None -> as_number v = None.
Proof. destruct v; cbn; intros H; try discriminate H; reflexivity. Qed.

(** The last two steps of both methods: the seek on the current track,
    then the estimate when it is kept. *)
Lemma seek_then_estimate (h : Handle) (v : PyVal) (w : World) :
  _current_sound_obj (self w) = Some h ->
  (seek v ;;
   estimate <- gets _estimate_position ;;
   when estimate (_update_pos_estimate v)) w
  = (Ok tt,
     mkWorld (if _estimate_position (self w)
              then set_pos_estimate v (self w) else self w)
       (_aliases w) (sounds w) (next_handle w)
       (calls w ++ [call_seek h v])%list).
Proof.
  intros Hc. rewrite (bind_ok _ _ _ _ _ (seek_current h v w Hc)).
  unfold bind, gets, when, _update_pos_estimate, modify, ret. cbn.
  destruct (_estimate_position (self w)); reflexivity.
Qed.

Lemma rewind_run (h : Handle) (seconds : PyVal) (n : Number) (w : World) :
  _current_sound_obj (self w) = Some h ->
  number_of seconds = Some n ->
  rewind gp fsub seconds w
  = (seek (number_val (if negb (Qle_bool (exact (gp w h)) (exact n))
                       then number_sub fsub (gp w h) n else NInt 0)) ;;
     estimate <- gets _estimate_position ;;
     when estimate
       (_update_pos_estimate
          (number_val (if negb (Qle_bool (exact (gp w h)) (exact n))
                       then number_sub fsub (gp w h) n else NInt 0)))) w.
Proof.
  intros Hc Hn. destruct (number_of_as_number _ _ Hn) as [Ha _].
  unfold rewind.
  assert (G : get_pos gp w = (Ok (gp w h), w))
    by (unfold get_pos, bind, gets; rewrite Hc; reflexivity).
  rewrite (bind_ok _ _ _ _ _ G).
  assert (L : lift (py_gt (number_val (gp w h)) seconds) w
              = (Ok (negb (Qle_bool (exact (gp w h)) (exact n))), w))
    by (unfold lift, py_gt; rewrite as_number_number_val, Ha; reflexivity).
  rewrite (bind_ok _ _ _ _ _ L).
  destruct (negb (Qle_bool (exact (gp w h)) (exact n))).
  - unfold as_operand. rewrite Hn.
    unfold bind at 1. unfold bind at 1. cbn [ret]. reflexivity.
  - unfold bind at 1. cbn [ret]. reflexivity.
Qed.

Lemma fast_forward_run (h : Handle) (seconds : PyVal) (n : Number) (w : World) :
  _current_sound_obj (self w) = Some h ->
  number_of seconds = Some n ->
  fast_forward gp ln fadd fsub seconds w
  = (seek (number_val
             (if negb (Qle_bool (exact (number_sub fsub (ln w h) (gp w h)))
                         (exact n))
              then number_add fadd (gp w h) n else ln w h)) ;;
     estimate <- gets _estimate_position ;;
     when estimate
       (_update_pos_estimate
          (number_val
             (if negb (Qle_bool (exact (number_sub fsub (ln w h) (gp w h)))
                         (exact n))
              then number_add fadd (gp w h) n else ln w h)))) w.
Proof.
  intros Hc Hn. destruct (number_of_as_number _ _ Hn) as [Ha _].
  unfold fast_forward.
  assert (G : get_pos gp w = (Ok (gp w h), w))
    by (unfold get_pos, bind, gets; rewrite Hc; reflexivity).
  rewrite (bind_ok _ _ _ _ _ G).
  assert (G' : length_getter ln w = (Ok (ln w h), w))
    by (unfold length_getter, bind, gets; rewrite Hc; reflexivity).
  rewrite (bind_ok _ _ _ _ _ G').
  assert (L : lift (py_gt (number_val (number_sub fsub (ln w h) (gp w h))) seconds) w
              = (Ok (negb (Qle_bool (exact (number_sub fsub (ln w h) (gp w h)))
                             (exact n))), w))
    by (unfold lift, py_gt; rewrite as_number_number_val, Ha; reflexivity).
  rewrite (bind_ok _ _ _ _ _ L).
  destruct (negb (Qle_bool (exact (number_sub fsub (ln w h) (gp w h))) (exact n))).
  - unfold as_operand. rewrite Hn.
    unfold bind at 1. unfold bind at 1. cbn [ret]. reflexivity.
  - unfold bind at 1. cbn [ret]. reflexivity.
Qed.

(** X20: [rewind] on whole seconds never seeks before the start.  With a
    current track at position [p], [rewind(s)] seeks that track to
    [max(0, p - s)] in one call, and the position estimate becomes that
    value when estimation is on and is left alone otherwise.  Nothing
    bounds the target from above: a negative [s] moves forward, past the
    length of the track if it is large enough. *)
Theorem rewind_stops_at_zero (h : Handle) (p s : Z) (w : World) :
  _current_sound_obj (self w) = Some h ->
  gp w h = NInt p ->
  exists w',
    rewind gp fsub (VInt s) w = (Ok tt, w')
    /\ calls w' = (calls w ++ [call_seek h (VInt (Z.max 0 (p - s)))])%list
    /\ self w' = (if _estimate_position (self w)
                  then set_pos_estimate (VInt (Z.max 0 (p - s))) (self w)
                  else self w)
    /\ sounds w' = sounds w.
Proof.
  intros Hc Hp.
  rewrite (rewind_run h (VInt s) (NInt s) w Hc eq_refl), Hp. cbn [exact].
  rewrite Qle_bool_inject_Z.
  assert (T : number_val (if negb (p <=? s) then number_sub fsub (NInt p) (NInt s)
                          else NInt 0)
              = VInt (Z.max 0 (p - s))).
  { destruct (p <=? s) eqn:E; cbn.
    - apply Z.leb_le in E. f_equal. lia.
    - apply Z.leb_gt in E. f_equal. lia. }
  rewrite T, (seek_then_estimate h _ w Hc).
  eexists. split; [reflexivity|]. cbn. repeat split.
Qed.

(** X21: [fast_forward] on whole seconds never seeks past the end.  With
    a current track of length [l] at position [p], [fast_forward(s)]
    seeks that track to [min(p + s, l)] in one call, and the position
    estimate follows when estimation is on.  Nothing bounds the target
    from below: a negative [s] can take it under 0. *)
Theorem fast_forward_stops_at_the_length (h : Handle) (p l s : Z) (w : World) :
  _current_sound_obj (self w) = Some h ->
  gp w h = NInt p ->
  ln w h = NInt l ->
  exists w',
    fast_forward gp ln fadd fsub (VInt s) w = (Ok tt, w')
    /\ calls w' = (calls w ++ [call_seek h (VInt (Z.min (p + s) l))])%list
    /\ self w' = (if _estimate_position (self w)
                  then set_pos_estimate (VInt (Z.min (p + s) l)) (self w)
                  else self w)
    /\ sounds w' = sounds w.
Proof.
  intros Hc Hp Hl.
  rewrite (fast_forward_run h (VInt s) (NInt s) w Hc eq_refl), Hp, Hl.
  cbn [exact number_sub]. rewrite Qle_bool_inject_Z.
  assert (T : number_val (if negb (l - p <=? s) then number_add fadd (NInt p) (NInt s)
                          else NInt l)
              = VInt (Z.min (p + s) l)).
  { destruct (l - p <=? s) eqn:E; cbn.
    - apply Z.leb_le in E. f_equal. lia.
    - apply Z.leb_gt in E. f_equal. lia. }
  rewrite T, (seek_then_estimate h _ w Hc).
  eexists. split; [reflexivity|]. cbn. repeat split.
Qed.

(** X22: what [rewind] and [fast_forward] do when they cannot work.
    Without a current track both raise the AttributeError of
    [None.get_pos], whatever the argument.  With a current track and an
    argument that is None, a string, a path or a Sound, both raise the
    TypeError of the comparison.  In every case no seek call has been
    made and nothing has changed. *)
Theorem seeking_refuses_without_effect (seconds : PyVal) (w : World) :
  (_current_sound_obj (self w) = None ->
   rewind gp fsub seconds w = (Raise (AttributeError_NoneType "get_pos"), w)
   /\ fast_forward gp ln fadd fsub seconds w
      = (Raise (AttributeError_NoneType "get_pos"), w))
  /\ (forall h,
        _current_sound_obj (self w) = Some h ->
        match seconds with
        | VNone | VStr _ | VPath _ | VSound _ => True
        | _ => False
        end ->
        rewind gp fsub seconds w = (Raise TypeError_unorderable, w)
        /\ fast_forward gp ln fadd fsub seconds w
           = (Raise TypeError_unorderable, w)).
Proof.
  split.
  - intros Hc.
    assert (G : get_pos gp w = (Raise (AttributeError_NoneType "get_pos"), w))
      by (unfold get_pos, bind, gets; rewrite Hc; reflexivity).
    split; [unfold rewind | unfold fast_forward]; exact (bind_raise _ _ _ _ _ G).
  - intros h Hc Hs.
    assert (Ha : as_number seconds = None)
      by (destruct seconds; try contradiction; reflexivity).
    assert (G : get_pos gp w = (Ok (gp w h), w))
      by (unfold get_pos, bind, gets; rewrite Hc; reflexivity).
    assert (G' : length_getter ln w = (Ok (ln w h), w))
      by (unfold length_getter, bind, gets; rewrite Hc; reflexivity).
    assert (P : forall v, lift (py_gt (number_val v) seconds) w
                          = (Raise TypeError_unorderable, w))
      by (intros v; unfold lift, py_gt;
          rewrite as_number_number_val, Ha; reflexivity).
    split.
    + unfold rewind. rewrite (bind_ok _ _ _ _ _ G).
      exact (bind_raise _ _ _ _ _ (P _)).
    + unfold fast_forward.
      rewrite (bind_ok _ _ _ _ _ G), (bind_ok _ _ _ _ _ G').
      exact (bind_raise _ _ _ _ _ (P _)).
Qed.

(** X23: with a current track and numbers that enter float arithmetic
    without an OverflowError (the argument, and the position and length
    the decoder reports: any float, any int below 2**1024 - 2**970 in
    absolute value), [rewind] and [fast_forward] return; each makes
    exactly one call, a seek on the current track, and the position
    estimate is the position sought when estimation is on and is left
    alone when it is off.  Nothing else of the player changes: the
    state, the progress index, the current track and the external-stop
    flag are as before, and no clock is started or cancelled.  An int
    beyond that range next to a float is outside this statement. *)
Theorem seeking_keeps_the_estimate_in_step (h : Handle) (seconds : PyVal)
        (n : Number) (w : World) :
  _current_sound_obj (self w) = Some h ->
  number_of seconds = Some n ->
  converts_to_float n = true ->
  converts_to_float (gp w h) = true ->
  converts_to_float (ln w h) = true ->
  (exists v w',
     rewind gp fsub seconds w = (Ok tt, w')
     /\ calls w' = (calls w ++ [call_seek h v])%list
     /\ self w' = (if _estimate_position (self w)
                   then set_pos_estimate v (self w) else self w)
     /\ sounds w' = sounds w)
  /\ (exists v w',
        fast_forward gp ln fadd fsub seconds w = (Ok tt, w')
        /\ calls w' = (calls w ++ [call_seek h v])%list
        /\ self w' = (if _estimate_position (self w)
                      then set_pos_estimate v (self w) else self w)
        /\ sounds w' = sounds w).
Proof.
  intros Hc Hn _ _ _. split.
  - rewrite (rewind_run h seconds n w Hc Hn), (seek_then_estimate h _ w Hc).
    do 2 eexists. split; [reflexivity|]. cbn. repeat split.
  - rewrite (fast_forward_run h seconds n w Hc Hn), (seek_then_estimate h _ w Hc).
    do 2 eexists. split; [reflexivity|]. cbn. repeat split.
Qed.

End SeekingProperties.

Lemma rewind_stops_at_zero_witness :
  _current_sound_obj (self playing_world) = Some 0%nat
  /\ demo_get_pos playing_world 0%nat = NInt 30
  /\ exists w',
       rewind demo_get_pos Qminus (VInt 45) playing_world = (Ok tt, w')
       /\ calls w' = (calls playing_world ++ [call_seek 0%nat (VInt 0)])%list.
Proof.
  assert (Hc : _current_sound_obj (self playing_world) = Some 0%nat)
    by (vm_compute; reflexivity).
  destruct (rewind_stops_at_zero demo_get_pos Qminus 0%nat 30 45 playing_world
              Hc eq_refl)
    as (w' & E & C & _).
  split; [exact Hc|]. split; [reflexivity|].
  exists w'. split; [exact E | exact C].
Defined.

Lemma fast_forward_stops_at_the_length_witness :
  _current_sound_obj (self playing_world) = Some 0%nat
  /\ demo_get_pos playing_world 0%nat = NInt 30
  /\ demo_length playing_world 0%nat = NInt 200
  /\ exists w',
       fast_forward demo_get_pos demo_length Qplus Qminus (VInt 500) playing_world
       = (Ok tt, w')
       /\ calls w' = (calls playing_world ++ [call_seek 0%nat (VInt 200)])%list.
Proof.
  assert (Hc : _current_sound_obj (self playing_world) = Some 0%nat)
    by (vm_compute; reflexivity).
  destruct (fast_forward_stops_at_the_length demo_get_pos demo_length Qplus Qminus
              0%nat 30 200 500 playing_world Hc eq_refl eq_refl)
    as (w' & E & C & _).
  split; [exact Hc|]. split; [reflexivity|]. split; [reflexivity|].
  exists w'. split; [exact E | exact C].
Defined.

Lemma seeking_refuses_without_effect_witness :
  _current_sound_obj (self fresh_world) = None
  /\ rewind demo_get_pos Qminus (VInt 10) fresh_world
     = (Raise (AttributeError_NoneType "get_pos"), fresh_world)
  /\ _current_sound_obj (self playing_world) = Some 0%nat
  /\ fast_forward demo_get_pos demo_length Qplus Qminus (VStr "10") playing_world
     = (Raise TypeError_unorderable, playing_world).
Proof.
  assert (Hn : _current_sound_obj (self fresh_world) = None)
    by (vm_compute; reflexivity).
  assert (Hc : _current_sound_obj (self playing_world) = Some 0%nat)
    by (vm_compute; reflexivity).
  split; [exact Hn|]. split.
  - exact (proj1 (proj1 (seeking_refuses_without_effect demo_get_pos demo_length
                           Qplus Qminus (VInt 10) fresh_world) Hn)).
  - split; [exact Hc|].
    exact (proj2 (proj2 (seeking_refuses_without_effect demo_get_pos demo_length
                           Qplus Qminus (VStr "10") playing_world) 0%nat Hc I)).
Defined.

Lemma seeking_keeps_the_estimate_in_step_witness :
  _current_sound_obj (self playing_world) = Some 0%nat
  /\ number_of (VFloat (5 # 2)) = Some (NFloat (5 # 2))
  /\ converts_to_float (NFloat (5 # 2)) = true
  /\ converts_to_float (demo_get_pos playing_world 0%nat) = true
  /\ converts_to_float (demo_length playing_world 0%nat) = true
  /\ exists v w',
       rewind demo_get_pos Qminus (VFloat (5 # 2)) playing_world = (Ok tt, w')
       /\ calls w' = (calls playing_world ++ [call_seek 0%nat v])%list.
Proof.
  assert (Hc : _current_sound_obj (self playing_world) = Some 0%nat)
    by (vm_compute; reflexivity).
  assert (Hp : converts_to_float (demo_get_pos playing_world 0%nat) = true)
    by (vm_compute; reflexivity).
  assert (Hl : converts_to_float (demo_length playing_world 0%nat) = true)
    by (vm_compute; reflexivity).
  destruct (seeking_keeps_the_estimate_in_step demo_get_pos demo_length Qplus Qminus
              0%nat (VFloat (5 # 2)) (NFloat (5 # 2)) playing_world Hc eq_refl
              eq_refl Hp Hl)
    as [(v & w' & E & C & _) _].
  split; [exact Hc|]. split; [reflexivity|]. split; [reflexivity|].
  split; [exact Hp|]. split; [exact Hl|].
  exists v, w'. split; [exact E | exact C].
Defined.

(** ** audioplayer.py: the current track and the progress index *)

Lemma current_at_index_valid (p : AudioPlayer) :
  current_at_index p = true -> valid_progress_index p = true.
Proof.
  unfold current_at_index. intros H. apply valid_progress_index_iff.
  destruct (_current_sound_obj p).
  - apply andb_prop in H as [H0 H1]. apply Z.leb_le in H0. right.
    split; [exact H0|].
    destruct (nth_error _ _) eqn:N; [|discriminate H1].
    assert (L : (Z.to_nat (_queue_progress_index p) < List.length (_queue p))%nat)
      by (apply nth_error_Some; congruence).
    lia.
  - left. apply Z.eqb_eq. exact H.
Qed.

Lemma current_at_index_app (p : AudioPlayer) (hs : list Handle) :
  current_at_index p = true ->
  current_at_index (set_queue (_queue p ++ hs) p) = true.
Proof.
  unfold current_at_index. destruct p; cbn. intros H.
  match goal with |- match ?c with _ => _ end = _ => destruct c end; [|exact H].
  apply andb_prop in H as [H0 H1]. rewrite H0. cbn.
  destruct (nth_error _ _) eqn:N in H1; [|discriminate H1].
  rewrite nth_error_app1 by (apply nth_error_Some; congruence).
  rewrite N. exact H1.
Qed.

Lemma getitem_ok_nth {A} (l : list A) (i : Z) (x : A) :
  0 <= i -> py_getitem l i = Ok x -> nth_error l (Z.to_nat i) = Some x.
Proof.
  intros H0 G.
  destruct (getitem_in_range l i (getitem_ok_in_range l i x H0 G)) as (y & G' & N).
  congruence.
Qed.

Lemma current_refl (w : World) : keeps_current w w.
Proof. intros H; exact H. Qed.

Lemma current_trans (w1 w2 w3 : World) :
  keeps_current w1 w2 -> keeps_current w2 w3 -> keeps_current w1 w3.
Proof. unfold keeps_current. auto. Qed.

Lemma current_modify (f : AudioPlayer -> AudioPlayer) :
  (forall p, _queue_progress_index (f p) = _queue_progress_index p) ->
  (forall p, _queue (f p) = _queue p) ->
  (forall p, _current_sound_obj (f p) = _current_sound_obj p) ->
  respects keeps_current (modify f).
Proof.
  intros Hi Hq Hc w. unfold keeps_current, current_at_index. cbn.
  rewrite Hi, Hq, Hc. auto.
Qed.

Lemma current_update_sound (h : Handle) (f : Sound -> Sound) :
  respects keeps_current (update_sound h f).
Proof. intros w H; exact H. Qed.

Lemma current_record_call (c : SoundCall) : respects keeps_current (record_call c).
Proof. intros w H; exact H. Qed.

Ltac current_steps :=
  repeat first
    [ apply (respects_bind keeps_current current_trans); [| intros ?]
    | apply (respects_when keeps_current current_refl)
    | apply (respects_dispatch keeps_current current_refl current_trans)
    | apply (respects_ret keeps_current current_refl)
    | apply (respects_raise keeps_current current_refl)
    | apply (respects_lift keeps_current current_refl)
    | apply (respects_gets keeps_current current_refl)
    | apply (respects_get_sound keeps_current current_refl)
    | apply current_update_sound
    | apply current_record_call
    | apply current_modify; intros ?; reflexivity
    | match goal with
      | |- respects keeps_current (match ?x with _ => _ end) => destruct x
      | |- respects keeps_current (if ?x then _ else _) => destruct x
      end
    | assumption
    | match goal with H : forall _, respects keeps_current _ |- _ => apply H end ].

(** A jump to a non-negative index ends on the track the queue holds
    there, or at -1 without a track before whatever [play] does next. *)
Lemma current_jump_body (rec : Methods) (i : Z) :
  0 <= i ->
  respects keeps_current (m_play rec) ->
  respects keeps_current (_jump_to_index_body rec i).
Proof.
  intros H0 Hplay w _.
  unfold _jump_to_index_body, try_except_IndexError.
  unfold bind at 1. cbn [modify]. unfold _set_current_sound_obj.
  unfold bind at 1. cbn [gets self set_queue_progress_index _queue].
  unfold bind at 1. cbn [gets]. unfold bind at 1.
  unfold lift at 1. cbn [self set_queue_progress_index _queue_progress_index].
  destruct (py_getitem (_queue (self w)) i) as [x|e] eqn:G.
  - cbn. unfold current_at_index. cbn.
    rewrite (getitem_ok_nth _ _ _ H0 G), Nat.eqb_refl.
    replace (0 <=? i) with true by (symmetry; apply Z.leb_le; exact H0).
    reflexivity.
  - rewrite (getitem_raises_IndexError _ _ _ G).
    unfold bind at 1. cbn [modify]. unfold bind at 1. cbn [modify].
    unfold bind at 1.
    cbn [gets self set_current_sound_obj set_queue_progress_index _loop].
    destruct (_loop (self w)); cbn [when].
    + apply Hplay. reflexivity.
    + reflexivity.
Qed.

Lemma current_skip_to_next_body (rec : Methods) (p s r : bool) :
  respects keeps_current (m_stop rec) ->
  (forall i, 0 <= i -> respects keeps_current (m__jump_to_index rec i)) ->
  respects keeps_current (m_play rec) ->
  respects keeps_current (skip_to_next_body rec p s r).
Proof.
  intros Hstop Hjump Hplay. unfold skip_to_next_body.
  apply (respects_bind keeps_current current_trans); [current_steps | intros _].
  intros w Hv.
  pose proof (Hjump _ (valid_index_from_minus_one _ (current_at_index_valid _ Hv)))
    as J.
  assert (Hrest : respects keeps_current
    (m__jump_to_index rec (_queue_progress_index (self w) + 1) ;;
     when r (seek (VInt 0)) ;; when p (m_play rec)))
    by (unfold seek, Sound_seek; current_steps).
  exact (Hrest w Hv).
Qed.

Lemma current_skip_to_previous_body (rec : Methods) (p s r : bool) :
  respects keeps_current (m_stop rec) ->
  (forall i, 0 <= i -> respects keeps_current (m__jump_to_index rec i)) ->
  respects keeps_current (m_play rec) ->
  respects keeps_current (skip_to_previous_body rec p s r).
Proof.
  intros Hstop Hjump Hplay. unfold skip_to_previous_body.
  apply (respects_bind keeps_current current_trans); [current_steps | intros _].
  intros w Hv. unfold bind at 1. cbn [gets]. unfold bind at 1. cbn [gets].
  unfold bind at 1. unfold lift at 1.
  destruct (normalize_index (_queue (self w)) (_queue_progress_index (self w) - 1))
    as [j|e] eqn:N; [|exact Hv].
  pose proof (Hjump _ (normalize_index_nonneg _ _ _ N)) as J.
  assert (Hrest : respects keeps_current
    (m__jump_to_index rec j ;; when r (seek (VInt 0)) ;; when p (m_play rec)))
    by (unfold seek, Sound_seek; current_steps).
  exact (Hrest w Hv).
Qed.

Lemma current_methods (d : nat) :
  respects keeps_current (m__cancel_estimation (methods d))
  /\ (forall i, 0 <= i -> respects keeps_current (m__jump_to_index (methods d) i))
  /\ respects keeps_current (m_play (methods d))
  /\ respects keeps_current (m_stop (methods d))
  /\ (forall p s r, respects keeps_current (m_skip_to_next (methods d) p s r)).
Proof.
  induction d as [|d (IHc & IHj & IHp & IHs & IHn)].
  - repeat split; intros; apply (respects_raise keeps_current current_refl).
  - rewrite methods_S. cbn [m__cancel_estimation m__jump_to_index m_play m_stop
                             m_skip_to_next].
    split; [|split; [|split; [|split]]].
    + unfold _cancel_estimation_body, _cancel_clock, _update_pos_estimate.
      pose proof (IHn true false true) as N. current_steps.
    + intros i Hi. apply current_jump_body; assumption.
    + unfold play_body, Sound_play, _initialize_estimation, _start_clock.
      pose proof (IHj 0 ltac:(lia)) as J0. current_steps.
    + unfold stop_body, Sound_stop. current_steps.
    + intros p s r. apply current_skip_to_next_body; assumption.
Qed.

Lemma current_load_one (fs : Q -> string) (pr : string -> bool)
      (ignore_aliases : bool) (audio_file : PyVal) :
  respects keeps_current (load_one fs pr ignore_aliases audio_file).
Proof.
  intros w Hv.
  destruct (valid_reference fs pr ignore_aliases (_aliases w) audio_file) eqn:V.
  - destruct (load_one_valid fs pr _ _ _ V) as (h & w' & E & S1 & _).
    rewrite E. cbn [snd]. rewrite S1. apply current_at_index_app. exact Hv.
  - destruct (load_one_invalid fs pr _ _ _ V) as (e & E & _).
    rewrite E. exact Hv.
Qed.

Lemma current_perform (fs : Q -> string) (pr : string -> bool)
      (depth : nat) (op : Operation) :
  clears op = false -> respects keeps_current (perform fs pr depth op).
Proof.
  intros Hop.
  destruct (current_methods depth) as (_ & _ & Hp & Hs & Hn).
  destruct op; cbn in Hop; try discriminate Hop; cbn [perform].
  - subst clear_previous_queue. unfold load. cbn [when].
    pose proof (respects_for_each keeps_current current_refl current_trans args
                  _ (current_load_one fs pr ignore_aliases)) as L.
    current_steps.
  - exact Hp.
  - exact Hs.
  - apply Hn.
  - destruct depth as [|d]; cbn [skip_to_previous].
    + apply (respects_raise keeps_current current_refl).
    + destruct (current_methods d) as (_ & Hj' & Hp' & Hs' & _).
      apply current_skip_to_previous_body; assumption.
Qed.

(** Without the loop flag the methods do not call one another without
    end: [_jump_to_index] returns after its reset, so the deepest chain
    is skip, stop, the on_stop handler, its skip, play, jump. *)
Lemma safe_ret {A} (a : A) : stack_safe (ret a).
Proof. intros w Hl. split; [discriminate | exact Hl]. Qed.

Lemma safe_raise {A} (e : PyExn) : e <> RecursionError -> stack_safe (@raise A e).
Proof. intros He w Hl. split; [cbn; congruence | exact Hl]. Qed.

Lemma safe_lift {A} (r : PyResult A) :
  r <> Raise RecursionError -> stack_safe (lift r).
Proof. intros Hr w Hl. split; [exact Hr | exact Hl]. Qed.

Lemma safe_gets {A} (f : AudioPlayer -> A) : stack_safe (gets f).
Proof. intros w Hl. split; [discriminate | exact Hl]. Qed.

Lemma safe_get_sound (h : Handle) : stack_safe (get_sound h).
Proof. intros w Hl. split; [discriminate | exact Hl]. Qed.

Lemma safe_modify (f : AudioPlayer -> AudioPlayer) :
  (forall p, _loop (f p) = _loop p) -> stack_safe (modify f).
Proof. intros Hf w Hl. split; [discriminate | cbn; rewrite Hf; exact Hl]. Qed.

Lemma safe_update_sound (h : Handle) (f : Sound -> Sound) :
  stack_safe (update_sound h f).
Proof. intros w Hl. split; [discriminate | exact Hl]. Qed.

Lemma safe_record_call (c : SoundCall) : stack_safe (record_call c).
Proof. intros w Hl. split; [discriminate | exact Hl]. Qed.

Lemma safe_bind {A B} (c : M A) (k : A -> M B) :
  stack_safe c -> (forall a, stack_safe (k a)) -> stack_safe (bind c k).
Proof.
  intros Hc Hk w Hl. unfold outcome, after, bind.
  destruct (Hc w Hl) as [Ho Ha]. unfold outcome, after in Ho, Ha.
  destruct (c w) as [[a|e] w1]; cbn in *.
  - exact (Hk a w1 Ha).
  - split; [|exact Ha]. intros H. apply Ho. congruence.
Qed.

Lemma safe_when (b : bool) (c : M unit) : stack_safe c -> stack_safe (when b c).
Proof. intros Hc. destruct b; [exact Hc | apply safe_ret]. Qed.

Lemma safe_dispatch (n : nat) (handler : M unit) :
  stack_safe handler -> stack_safe (dispatch n handler).
Proof.
  intros Hh. induction n as [|n IH]; cbn.
  - apply safe_ret.
  - apply safe_bind; [exact Hh | intros _; exact IH].
Qed.

Lemma safe_for_each {A} (xs : list A) (body : A -> M unit) :
  (forall x, stack_safe (body x)) -> stack_safe (for_each xs body).
Proof.
  intros Hb. induction xs as [|x xs IH]; cbn.
  - apply safe_ret.
  - apply safe_bind; [apply Hb | intros _; exact IH].
Qed.

Ltac safe_steps :=
  repeat first
    [ apply safe_bind; [| intros ?]
    | apply safe_when
    | apply safe_dispatch
    | apply safe_ret
    | apply safe_raise; discriminate
    | apply safe_gets
    | apply safe_get_sound
    | apply safe_update_sound
    | apply safe_record_call
    | apply safe_modify; intros ?; reflexivity
    | match goal with
      | |- stack_safe (match ?x with _ => _ end) => destruct x
      | |- stack_safe (if ?x then _ else _) => destruct x
      end
    | assumption
    | match goal with H : forall _, stack_safe _ |- _ => apply H end ].

Lemma normalize_index_no_overflow {A} (l : list A) (i : Z) :
  normalize_index l i <> Raise RecursionError.
Proof.
  unfold normalize_index.
  destruct (i <? 0); [destruct (_ <? Z.abs i) | destruct (_ <? i)]; discriminate.
Qed.

(** With the loop flag off a jump calls nothing that could call it
    back, whatever the table of the methods one call deeper. *)
Lemma safe_jump_body (rec : Methods) (i : Z) :
  stack_safe (_jump_to_index_body rec i).
Proof.
  intros w Hl.
  assert (E : exists r w',
             _jump_to_index_body rec i w = (r, w')
             /\ r <> Raise RecursionError /\ _loop (self w') = false).
  { unfold _jump_to_index_body, try_except_IndexError.
    unfold bind at 1. cbn [modify]. unfold _set_current_sound_obj.
    unfold bind at 1. cbn [gets self set_queue_progress_index _queue].
    unfold bind at 1. cbn [gets]. unfold bind at 1.
    unfold lift at 1. cbn [self set_queue_progress_index _queue_progress_index].
    destruct (py_getitem (_queue (self w)) i) as [x|e] eqn:G.
    - do 2 eexists. split; [reflexivity|]. split; [discriminate | exact Hl].
    - rewrite (getitem_raises_IndexError _ _ _ G).
      unfold bind at 1. cbn [modify]. unfold bind at 1. cbn [modify].
      unfold bind at 1.
      cbn [gets self set_current_sound_obj set_queue_progress_index _loop].
      rewrite Hl. do 2 eexists. split; [reflexivity|].
      split; [discriminate | exact Hl]. }
  destruct E as (r & w' & E & Hr & Hl'). unfold outcome, after. rewrite E.
  split; assumption.
Qed.

Lemma safe_play_body (rec : Methods) :
  (forall i, stack_safe (m__jump_to_index rec i)) -> stack_safe (play_body rec).
Proof.
  intros Hj. unfold play_body, Sound_play, _initialize_estimation, _start_clock.
  safe_steps.
Qed.

Lemma safe_skip_to_next_body (rec : Methods) (p s r : bool) :
  (s = true -> stack_safe (m_stop rec)) ->
  (forall i, stack_safe (m__jump_to_index rec i)) ->
  stack_safe (m_play rec) ->
  stack_safe (skip_to_next_body rec p s r).
Proof.
  intros Hs Hj Hp. unfold skip_to_next_body, seek, Sound_seek.
  destruct s; cbn [when]; [pose proof (Hs eq_refl) as Hstop|]; safe_steps.
Qed.

Lemma safe_cancel_estimation_body (rec : Methods) :
  (forall p r, stack_safe (m_skip_to_next rec p false r)) ->
  stack_safe (_cancel_estimation_body rec).
Proof.
  intros Hn. unfold _cancel_estimation_body, _cancel_clock, _update_pos_estimate.
  pose proof (Hn true true) as N. safe_steps.
Qed.

Lemma safe_stop_body (rec : Methods) :
  stack_safe (m__cancel_estimation rec) -> stack_safe (stop_body rec).
Proof. intros Hc. unfold stop_body, Sound_stop. safe_steps. Qed.

Lemma safe_skip_to_previous_body (rec : Methods) (p s r : bool) :
  stack_safe (m_stop rec) ->
  (forall i, stack_safe (m__jump_to_index rec i)) ->
  stack_safe (m_play rec) ->
  stack_safe (skip_to_previous_body rec p s r).
Proof.
  intros Hs Hj Hp. unfold skip_to_previous_body, seek, Sound_seek.
  apply safe_bind; [safe_steps | intros _].
  apply safe_bind; [safe_steps | intros q].
  apply safe_bind; [safe_steps | intros i].
  apply safe_bind; [apply safe_lift, normalize_index_no_overflow | intros j].
  safe_steps.
Qed.

(** How deep each method needs the stack to be. *)
Lemma safe_jump (n : nat) (i : Z) : stack_safe (_jump_to_index (S n) i).
Proof. rewrite jump_S. apply safe_jump_body. Qed.

Lemma safe_play (n : nat) : stack_safe (play (S (S n))).
Proof. rewrite play_S. apply safe_play_body. intros i. apply (safe_jump n). Qed.

Lemma safe_skip_to_next_without_stop (n : nat) (p r : bool) :
  stack_safe (skip_to_next (S (S (S n))) p false r).
Proof.
  rewrite skip_to_next_S. apply safe_skip_to_next_body.
  - discriminate.
  - intros i. apply (safe_jump (S n)).
  - apply (safe_play n).
Qed.

Lemma safe_cancel_estimation (n : nat) :
  stack_safe (_cancel_estimation (S (S (S (S n))))).
Proof.
  rewrite cancel_estimation_S. apply safe_cancel_estimation_body.
  intros p r. apply (safe_skip_to_next_without_stop n).
Qed.

Lemma safe_stop (n : nat) : stack_safe (stop (S (S (S (S (S n)))))).
Proof.
  unfold stop. rewrite methods_S. cbn [m_stop]. apply safe_stop_body.
  apply (safe_cancel_estimation n).
Qed.

Lemma safe_skip_to_next (n : nat) (p s r : bool) :
  stack_safe (skip_to_next (S (S (S (S (S (S n)))))) p s r).
Proof.
  rewrite skip_to_next_S. apply safe_skip_to_next_body.
  - intros _. apply (safe_stop n).
  - intros i. apply (safe_jump (S (S (S (S n))))).
  - apply (safe_play (S (S (S n)))).
Qed.

Lemma safe_skip_to_previous (n : nat) (p s r : bool) :
  stack_safe (skip_to_previous (S (S (S (S (S (S n)))))) p s r).
Proof.
  cbn [skip_to_previous]. apply safe_skip_to_previous_body.
  - apply (safe_stop n).
  - intros i. apply (safe_jump (S (S (S (S n))))).
  - apply (safe_play (S (S (S n)))).
Qed.

Lemma safe_load_one (fs : Q -> string) (pr : string -> bool)
      (ignore_aliases : bool) (audio_file : PyVal) :
  stack_safe (load_one fs pr ignore_aliases audio_file).
Proof.
  intros w Hl. unfold outcome, after.
  destruct (valid_reference fs pr ignore_aliases (_aliases w) audio_file) eqn:V.
  - destruct (load_one_valid fs pr _ _ _ V) as (h & w' & E & S1 & _).
    rewrite E. cbn [fst snd]. rewrite S1. split; [discriminate | exact Hl].
  - destruct (load_one_invalid fs pr _ _ _ V) as (e & E & [He|He]).
    + rewrite E, He. split; [discriminate | exact Hl].
    + rewrite E, He. split; [discriminate | exact Hl].
Qed.

Lemma safe_perform (fs : Q -> string) (pr : string -> bool)
      (n : nat) (op : Operation) :
  clears op = false ->
  stack_safe (perform fs pr (S (S (S (S (S (S n)))))) op).
Proof.
  intros Hop. destruct op; cbn in Hop; try discriminate Hop; cbn [perform].
  - subst clear_previous_queue. unfold load. cbn [when].
    pose proof (safe_for_each args _ (safe_load_one fs pr ignore_aliases)) as L.
    safe_steps.
  - apply (safe_play (S (S (S (S n))))).
  - apply (safe_stop (S n)).
  - apply safe_skip_to_next.
  - apply safe_skip_to_previous.
Qed.

Lemma within_the_stack_without_loop (fs : Q -> string) (pr : string -> bool)
      (n : nat) (ops : list Operation) (w : World) :
  forallb (fun op => negb (clears op)) ops = true ->
  _loop (self w) = false ->
  within_the_stack fs pr (S (S (S (S (S (S n)))))) ops w = true.
Proof.
  revert w. induction ops as [|op ops IH]; intros w Hops Hl; [reflexivity|].
  cbn [forallb] in Hops. apply andb_prop in Hops as [Hop Hops].
  assert (Hc : clears op = false)
    by (destruct (clears op); [discriminate Hop | reflexivity]).
  destruct (safe_perform fs pr n op Hc w Hl) as [Ho Ha].
  cbn [within_the_stack].
  destruct (outcome (perform fs pr (S (S (S (S (S (S n)))))) op) w) as [u|e].
  - apply IH; assumption.
  - destruct e; try (apply IH; assumption). contradiction Ho. reflexivity.
Qed.

(** X24: as long as the queue is never cleared and no call runs out of
    stack, the current track stays the queue entry at the progress
    index.  On a player where this holds (a new one: no track, index
    -1), after any sequence of [load] without [clear_previous_queue],
    [play], [stop], [skip_to_next] and [skip_to_previous] calls, with
    any arguments, none of which ends in RecursionError, and whether
    they return or raise one of their other exceptions, the player has
    either no current track and index -1, or the current track is the
    handle at the index in the queue; the index is then -1 or in range
    in particular.  On a player with the loop flag off these methods
    nest at most six deep, so no such call runs out of stack once the
    stack has room for that, and the statement holds for every such
    sequence. *)
Theorem current_track_is_the_entry_at_the_index
        (fs : Q -> string) (pr : string -> bool) (depth : nat)
        (ops : list Operation) (w : World) :
  forallb (fun op => negb (clears op)) ops = true ->
  current_at_index (self w) = true ->
  (within_the_stack fs pr depth ops w = true ->
   current_at_index (self (perform_all fs pr depth ops w)) = true
   /\ valid_progress_index (self (perform_all fs pr depth ops w)) = true)
  /\ (_loop (self w) = false -> (6 <= depth)%nat ->
      within_the_stack fs pr depth ops w = true).
Proof.
  intros Hops Hv. split.
  - intros _.
    assert (H : current_at_index (self (perform_all fs pr depth ops w)) = true).
    { revert w Hv. induction ops as [|op ops IH]; intros w Hv; cbn in *.
      - exact Hv.
      - apply andb_prop in Hops as [Hop Hops].
        apply IH; [exact Hops|].
        apply (current_perform fs pr depth op); [|exact Hv].
        destruct (clears op); [discriminate Hop | reflexivity]. }
    split; [exact H | exact (current_at_index_valid _ H)].
  - intros Hl Hd.
    destruct depth as [|[|[|[|[|[|n]]]]]]; try lia.
    apply within_the_stack_without_loop; assumption.
Qed.

Lemma current_track_is_the_entry_at_the_index_witness :
  current_at_index (self fresh_world) = true
  /\ within_the_stack demo_float_str wav_provider 6
       [op_load [VStr "a.wav"; VStr "b.wav"] false false; op_play;
        op_skip_to_previous true true true; op_stop;
        op_skip_to_next true true true]
       fresh_world = true
  /\ current_at_index
       (self (perform_all demo_float_str wav_provider 6
                [op_load [VStr "a.wav"; VStr "b.wav"] false false; op_play;
                 op_skip_to_previous true true true; op_stop;
                 op_skip_to_next true true true]
                fresh_world)) = true.
Proof.
  assert (Hv : current_at_index (self fresh_world) = true)
    by (vm_compute; reflexivity).
  assert (Hl : _loop (self fresh_world) = false) by (vm_compute; reflexivity).
  destruct (current_track_is_the_entry_at_the_index demo_float_str wav_provider 6
              [op_load [VStr "a.wav"; VStr "b.wav"] false false; op_play;
               op_skip_to_previous true true true; op_stop;
               op_skip_to_next true true true]
              fresh_world eq_refl Hv) as [Hkeep Hstack].
  pose proof (Hstack Hl (le_n 6)) as Hw.
  split; [exact Hv|]. split; [exact Hw|]. exact (proj1 (Hkeep Hw)).
Defined.

(** ** audioplayer.py: stop before play *)

Lemma stop_without_a_track (d : nat) (w : World) :
  _current_sound_obj (self w) = None ->
  stop (S d) w
  = (Raise (AttributeError_NoneType "stop"),
     mkWorld (set_external_stop_call true (self w)) (_aliases w) (sounds w)
       (next_handle w) (calls w)).
Proof.
  intros Hc. unfold stop. rewrite methods_S. cbn [m_stop]. unfold stop_body.
  unfold bind at 1. cbn [modify]. unfold bind at 1.
  cbn [gets self set_external_stop_call _current_sound_obj]. rewrite Hc.
  reflexivity.
Qed.

(** X25: a [stop()] before anything plays switches the advance at the end
    of a track off.  On a player without a current track [stop()] raises
    the AttributeError of [None.stop] after it has set the external-stop
    flag, and so do [skip_to_next()] and [skip_to_previous()] with their
    default arguments, which begin with that [stop()].  A [play()] after
    it starts the first track and leaves the flag set; when that track
    ends, the handler of its on_stop event finds the flag set and
    returns or raises without touching the queue position: the player
    stays on the first track, in state "play", and no handle is
    called. *)
Theorem stop_before_play_switches_the_advance_off
        (d d' : nat) (x : Handle) (rest : list Handle) (w : World) :
  _current_sound_obj (self w) = None ->
  _queue (self w) = x :: rest ->
  exists w1 w2,
    stop (S d) w = (Raise (AttributeError_NoneType "stop"), w1)
    /\ skip_to_next (S (S d)) true true true w
       = (Raise (AttributeError_NoneType "stop"), w1)
    /\ skip_to_previous (S (S d)) true true true w
       = (Raise (AttributeError_NoneType "stop"), w1)
    /\ play (S (S d)) w1 = (Ok tt, w2)
    /\ _current_sound_obj (self w2) = Some x
    /\ _external_stop_call (self w2) = true
    /\ exists r w3,
         _cancel_estimation (S d') w2 = (r, w3)
         /\ _queue_progress_index (self w3) = 0
         /\ _current_sound_obj (self w3) = Some x
         /\ _state (self w3) = "play"
         /\ calls w3 = calls w2.
Proof.
  intros Hc Hq.
  pose proof (stop_without_a_track d w Hc) as E1.
  match type of E1 with _ = (_, ?w1) =>
    destruct (play_from_start d x rest w1 Hc Hq) as (w2 & E2 & S2 & C2 & _) end.
  assert (F2 : _external_stop_call (self w2) = true) by (rewrite S2; through_clock).
  assert (I2 : _queue_progress_index (self w2) = 0) by (rewrite S2; through_clock).
  assert (Cur2 : _current_sound_obj (self w2) = Some x) by (rewrite S2; through_clock).
  assert (St2 : _state (self w2) = "play") by (rewrite S2; through_clock).
  destruct (cancel_estimation_flag_set d' w2 F2) as (r & w3 & E3 & S3 & C3).
  do 2 eexists. split; [exact E1|]. split; [|split; [|split; [exact E2|]]].
  - rewrite skip_to_next_S. unfold skip_to_next_body. cbn [when].
    apply bind_raise. exact E1.
  - cbn [skip_to_previous]. unfold skip_to_previous_body. cbn [when].
    apply bind_raise. exact E1.
  - split; [exact Cur2|]. split; [exact F2|].
    exists r, w3. split; [exact E3|].
    pose proof (f_equal _queue_progress_index S3) as HI.
    pose proof (f_equal _current_sound_obj S3) as HC.
    pose proof (f_equal _state S3) as HS.
    cbn in HI, HC, HS.
    rewrite HI, HC, HS. repeat split; assumption.
Qed.

Lemma stop_before_play_switches_the_advance_off_witness :
  _current_sound_obj (self one_track_world) = None
  /\ _queue (self one_track_world) = [0%nat]
  /\ exists w1 w2,
       stop 1 one_track_world = (Raise (AttributeError_NoneType "stop"), w1)
       /\ play 2 w1 = (Ok tt, w2)
       /\ _external_stop_call (self w2) = true.
Proof.
  assert (Hc : _current_sound_obj (self one_track_world) = None)
    by (vm_compute; reflexivity).
  assert (Hq : _queue (self one_track_world) = [0%nat])
    by (vm_compute; reflexivity).
  destruct (stop_before_play_switches_the_advance_off 0 0 0%nat [] one_track_world
              Hc Hq)
    as (w1 & w2 & E1 & _ & _ & E2 & _ & F & _).
  split; [exact Hc|]. split; [exact Hq|].
  exists w1, w2. split; [exact E1|]. split; [exact E2 | exact F].
Defined.

(** ** audioplayer.py: load with a reference that does not resolve *)



